(** * Recursive copy and delete of the upspin-ui browser (cmd/upspin-ui)

    The Go functions [copy], [copyEntry], [rm] and [rmEntry] of
    cmd/upspin-ui walk a directory tree of the Upspin name space through an
    [upspin.Client] and an [upspin.DirServer].  They are embedded here as
    functions in a state-and-error monad over an arbitrary client; every
    call made to the client is recorded in a ghost log, so that the order
    of the calls can be stated.  The recursion follows what the directory
    server lists, so it is bounded by a fuel argument (the depth of the
    walk), and running out of fuel is an outcome of its own.

    The HTTP handler that calls them ([ServeHTTP], [serveAPI],
    [serveContent], [serveStatic], [put]) and some helpers of the command
    ([isLocal], [formatRequest], [hostResolvesTo], the helpers of the
    Google Cloud set-up and of package local) are embedded after them. *)

From Stdlib Require Import String Ascii List Arith Lia Bool.
From stdpp Require Import base option list strings gmap fin_maps.

Open Scope string_scope.
Open Scope list_scope.

(** ** Path names (upspin.io/path, upspin.PathName) *)

Module path.

(** Modelled from the spec: the package upspin.io/path is not part of the
    sources.  A path is "an ordered sequence of name elements, comparable
    for prefix relationships"; a path name carries the user whose tree it
    is in and the elements below that user's root. *)
Record PathName : Type := MkPathName { pn_user : string; pn_elems : list string }.

(** Modelled from the spec: the parsed form of a path name ([path.Parsed]). *)
Record Parsed : Type := MkParsed { User : string; elems : list string }.

Definition zeroParsed : Parsed := MkParsed EmptyString [].

Definition NElem (p : Parsed) : nat := length (elems p).

Definition Elem (p : Parsed) (i : nat) : string := nth i (elems p) EmptyString.

(** Modelled from the spec: [HasPrefix] compares the users and then the
    elements of the prefix one by one. *)
Fixpoint hasPrefixElems (p prefix : list string) : bool :=
  match prefix, p with
  | [], _ => true
  | _ :: _, [] => false
  | x :: prefix', y :: p' => bool_decide (x = y) && hasPrefixElems p' prefix'
  end.

Definition HasPrefix (p prefix : Parsed) : bool :=
  bool_decide (User p = User prefix) && hasPrefixElems (elems p) (elems prefix).

(** Modelled from the spec: [Join] appends one element to a path name. *)
Definition Join (dir : PathName) (elem : string) : PathName :=
  MkPathName (pn_user dir) (pn_elems dir ++ [elem]).

End path.

Export path.

#[global] Instance PathName_eq_dec : EqDecision PathName.
Proof. solve_decision. Defined.

#[global] Instance PathName_countable : Countable PathName :=
  inj_countable' (λ p, (pn_user p, pn_elems p)) (λ t, MkPathName t.1 t.2)
    (λ p, match p with MkPathName _ _ => eq_refl end).

(** ** Errors (upspin.io/errors) *)

Module errors.

(** The kinds of error of upspin.io/errors; [Other] is the zero value, the
    kind of an error built without a kind. *)
Inductive Kind : Type :=
| Other | Invalid | Permission | IO | Exist | NotExist | IsDir | NotDir
| NotEmpty | Private | Internal | CannotDecrypt | Transient | BrokenLink.

(** An error value: either the sentinel [upspin.ErrFollowLink], which the
    code compares by identity, or an error built by [errors.E] from a path
    name, a kind (when one is passed) and a text (when [errors.Str] is
    passed). *)
Inductive Error : Type :=
| ErrFollowLink
| E (name : PathName) (kind : Kind) (text : string).

Definition kindOf (e : Error) : Kind :=
  match e with
  | ErrFollowLink => Other
  | E _ k _ => k
  end.

End errors.

Export errors.

#[global] Instance Kind_eq_dec : EqDecision Kind.
Proof. solve_decision. Defined.

#[global] Instance Error_eq_dec : EqDecision Error.
Proof. solve_decision. Defined.

(** Modelled from the spec: [path.Parse] is not part of the sources.  It
    fails on a name that has no user, and otherwise gives the user and the
    elements. *)
Definition Parse (name : PathName) : Error + Parsed :=
  if bool_decide (pn_user name = EmptyString)
  then inl (E name Invalid "no user name in path")
  else inr (MkParsed (pn_user name) (pn_elems name)).

(** ** Directory entries (upspin.DirEntry) *)

Inductive Attribute : Type := AttrNone | AttrLink | AttrDirectory.

(** Modelled from the spec: an entry "identifies a namespace object by
    Path and carries a variant tag {Directory, Link(target Path), File}
    plus opaque content reference". *)
Record DirEntry : Type := MkDirEntry {
  Name : PathName;
  Attr : Attribute;
  Link : PathName;
  Blocks : list nat
}.

Definition IsDir (d : DirEntry) : bool :=
  match Attr d with AttrDirectory => true | _ => false end.

Definition IsLink (d : DirEntry) : bool :=
  match Attr d with AttrLink => true | _ => false end.

#[global] Instance Attribute_eq_dec : EqDecision Attribute.
Proof. solve_decision. Defined.

#[global] Instance DirEntry_eq_dec : EqDecision DirEntry.
Proof. solve_decision. Defined.

(** Modelled from the spec: [upspin.AllFilesGlob] gives the single-level
    pattern "all entries directly under the directory": the directory
    followed by the element "*". *)
Definition AllFilesGlob (dir : PathName) : PathName := Join dir "*".

(** ** The client and the ghost log of its calls *)

(** One constructor per method of [upspin.Client] and [upspin.DirServer]
    that the tree walk uses. *)
Inductive Call : Type :=
| CLookup (name : PathName) (followFinal : bool)
| CMakeDirectory (name : PathName)
| CPutLink (oldName newName : PathName)
| CPutDuplicate (oldName newName : PathName)
| CDelete (name : PathName)
| CDirServer (name : PathName)
| CGlob (pattern : PathName).

#[global] Instance Call_eq_dec : EqDecision Call.
Proof. solve_decision. Defined.

(** A call that changes the name space. *)
Definition mutating (c : Call) : bool :=
  match c with
  | CMakeDirectory _ | CPutLink _ _ | CPutDuplicate _ _ | CDelete _ => true
  | CLookup _ _ | CDirServer _ | CGlob _ => false
  end.

(** The methods of [upspin.Client] ([Lookup], [MakeDirectory], [PutLink],
    [PutDuplicate], [Delete], [DirServer]) and of [upspin.DirServer]
    ([Glob]) over a service state [W]; [Dir] is the type of directory
    server handles.  [Glob] gives entries and an error together, as the Go
    method does. *)
Record Client (W Dir : Type) : Type := MkClient {
  Lookup : PathName → bool → W → W * (Error + DirEntry);
  MakeDirectory : PathName → W → W * (Error + DirEntry);
  PutLink : PathName → PathName → W → W * (Error + DirEntry);
  PutDuplicate : PathName → PathName → W → W * (Error + DirEntry);
  Delete : PathName → W → W * option Error;
  DirServer : PathName → W → W * (Error + Dir);
  Glob : Dir → PathName → W → W * (list DirEntry * option Error)
}.

Arguments Lookup {W Dir} _ _ _ _.
Arguments MakeDirectory {W Dir} _ _ _.
Arguments PutLink {W Dir} _ _ _ _.
Arguments PutDuplicate {W Dir} _ _ _ _.
Arguments Delete {W Dir} _ _ _.
Arguments DirServer {W Dir} _ _ _.
Arguments Glob {W Dir} _ _ _ _.

(** ** The monad of the tree walk *)

(** The state: the service's state and the calls made so far. *)
Record State (W : Type) : Type := MkState { world : W; calls : list Call }.

Arguments MkState {W} _ _.
Arguments world {W} _.
Arguments calls {W} _.

(** What a Go function returning [error] (or a value and an [error])
    gives: a value, a non-nil error, or no answer within the fuel. *)
Inductive Res (A : Type) : Type :=
| Val (a : A)
| Raise (e : Error)
| OutOfFuel.

Arguments Val {A} _.
Arguments Raise {A} _.
Arguments OutOfFuel {A}.

Definition M (W A : Type) : Type := State W → State W * Res A.

Section Monad.
Context {W : Type}.

Definition ret {A} (a : A) : M W A := λ st, (st, Val a).

Definition raise {A} (e : Error) : M W A := λ st, (st, Raise e).

Definition outOfFuel {A} : M W A := λ st, (st, OutOfFuel).

Definition bind {A B} (m : M W A) (k : A → M W B) : M W B :=
  λ st, match m st with
        | (st', Val a) => k a st'
        | (st', Raise e) => (st', Raise e)
        | (st', OutOfFuel) => (st', OutOfFuel)
        end.

(** A call to the client: the call is logged, the service state becomes
    what the client leaves. *)
Definition call {A} (c : Call) (op : W → W * (Error + A)) : M W A :=
  λ st, let '(w, r) := op (world st) in
        (MkState w (calls st ++ [c]),
         match r with inl e => Raise e | inr a => Val a end).

(** [for _, x := range l { if err := f(x); err != nil { return err } }] *)
Fixpoint forEach {A} (l : list A) (f : A → M W unit) : M W unit :=
  match l with
  | [] => ret tt
  | x :: l' => bind (f x) (λ _, forEach l' f)
  end.
End Monad.

Notation "x <- c1 ;; c2" := (bind c1 (λ x, c2))
  (at level 100, c1 at next level, right associativity).
Notation "c1 ;;; c2" := (bind c1 (λ _, c2))
  (at level 100, right associativity).

(** ** The tree walk *)

Section TreeOp.
Context {W Dir : Type}.
Variable cli : Client W Dir.

(** The calls to [s.cli] and to the directory server, logged. *)
Definition cliLookup (name : PathName) (followFinal : bool) : M W DirEntry :=
  call (CLookup name followFinal) (Lookup cli name followFinal).

Definition cliMakeDirectory (name : PathName) : M W DirEntry :=
  call (CMakeDirectory name) (MakeDirectory cli name).

Definition cliPutLink (oldName newName : PathName) : M W DirEntry :=
  call (CPutLink oldName newName) (PutLink cli oldName newName).

Definition cliPutDuplicate (oldName newName : PathName) : M W DirEntry :=
  call (CPutDuplicate oldName newName) (PutDuplicate cli oldName newName).

Definition cliDelete (name : PathName) : M W unit :=
  call (CDelete name)
    (λ w, let '(w', r) := Delete cli name w in
          (w', match r with Some e => inl e | None => inr tt end)).

Definition cliDirServer (name : PathName) : M W Dir :=
  call (CDirServer name) (DirServer cli name).

Definition dirGlob (dir : Dir) (pattern : PathName)
  : M W (list DirEntry * option Error) :=
  call (CGlob pattern) (λ w, let '(w', r) := Glob cli dir pattern w in (w', inr r)).

(** [copyEntry]: copies the entry to the destination directory;
    a directory recursively, a link as a link.  [fuel] bounds the depth
    of the recursion. *)
Fixpoint copyEntry (fuel : nat) (dstDir : PathName) (srcEntry : DirEntry)
  : M W unit :=
  match fuel with
  | O => outOfFuel
  | S fuel' =>
    match Parse (Name srcEntry) with
    | inl err => raise err
    | inr srcPath =>
      if Nat.eqb (NElem srcPath) 0
      then raise (E (Name srcEntry) Other "cannot copy a root")
      else
        let dstDirPath :=
          match Parse dstDir with inr p => p | inl _ => zeroParsed end in
        if HasPrefix dstDirPath srcPath
        then raise (E (Name srcEntry) Other
                      "cannot copy a directory into one of its sub-directories")
        else
          let dst := Join dstDir (Elem srcPath (NElem srcPath - 1)) in
          if IsDir srcEntry then
            _ <- cliMakeDirectory dst ;;
            dir <- cliDirServer (Name srcEntry) ;;
            r <- dirGlob dir (AllFilesGlob (Name srcEntry)) ;;
            match r with
            | (des, Some err) =>
                if bool_decide (err = ErrFollowLink)
                then forEach des (copyEntry fuel' dst)
                else raise err
            | (des, None) => forEach des (copyEntry fuel' dst)
            end
          else if IsLink srcEntry then
            _ <- cliPutLink (Link srcEntry) dst ;; ret tt
          else
            _ <- cliPutDuplicate (Name srcEntry) dst ;; ret tt
    end
  end.

(** The body of the loop of [copy] over the sources. *)
Definition copySource (fuel : nat) (dst src : PathName) : M W unit :=
  srcEntry <- cliLookup src false ;;
  copyEntry fuel dst srcEntry.

(** [copy]: checks that the destination is a directory, then
    copies the sources in order. *)
Definition copy (fuel : nat) (dst : PathName) (srcs : list PathName) : M W unit :=
  dstEntry <- cliLookup dst true ;;
  if negb (IsDir dstEntry)
  then raise (E dst NotDir EmptyString)
  else forEach srcs (copySource fuel dst).

(** [rmEntry]: removes the entry; for a directory the contents
    first, then the directory. *)
Fixpoint rmEntry (fuel : nat) (de : DirEntry) : M W unit :=
  match fuel with
  | O => outOfFuel
  | S fuel' =>
    if IsDir de then
      dir <- cliDirServer (Name de) ;;
      r <- dirGlob dir (AllFilesGlob (Name de)) ;;
      match r with
      | (_, Some err) => raise err
      | (des, None) =>
          forEach des (rmEntry fuel') ;;;
          cliDelete (Name de)
      end
    else cliDelete (Name de)
  end.

(** [rm]: looks the name up without following a final link and
    removes the entry. *)
Definition rm (fuel : nat) (name : PathName) : M W unit :=
  de <- cliLookup name false ;;
  rmEntry fuel de.

(** The loop of the "rm" request of the HTTP handler: the paths in order, stopping
    at the first error. *)
Definition rmAll (fuel : nat) (paths : list PathName) : M W unit :=
  forEach paths (rm fuel).

End TreeOp.

(** ** A name space in memory, as a client

    The client and the directory server of upspin.io are outside the
    sources of upspin-ui.  The statements that need to know what the
    service does with a call are made on this client: a finite map from
    names to nodes, with the calls that the service refuses. *)

Module mem.

(** What a path names: a directory, a link with its target, or a file with
    its content reference. *)
Inductive Node : Type :=
| NDir
| NLink (target : PathName)
| NFile (blocks : list nat).

#[global] Instance Node_eq_dec : EqDecision Node.
Proof. solve_decision. Defined.

(** The service: the name space, and the calls that the service refuses
    (a permission, a network failure, ...) with the error it gives. *)
Record World : Type := MkWorld {
  ns : gmap PathName Node;
  faults : Call → option Error
}.

Definition zeroName : PathName := MkPathName EmptyString [].

Definition entryOf (name : PathName) (n : Node) : DirEntry :=
  match n with
  | NDir => MkDirEntry name AttrDirectory zeroName []
  | NLink t => MkDirEntry name AttrLink t []
  | NFile b => MkDirEntry name AttrNone zeroName b
  end.

Definition parentOf (name : PathName) : PathName :=
  MkPathName (pn_user name) (removelast (pn_elems name)).

(** [name] is directly under [dir]. *)
Definition isChild (dir name : PathName) : bool :=
  bool_decide (pn_elems name ≠ [] ∧ parentOf name = dir).

Definition children (m : gmap PathName Node) (dir : PathName) : list DirEntry :=
  (λ pn, entryOf pn.1 pn.2) <$> filter (λ pn, isChild dir pn.1 = true) (map_to_list m).

(** The first proper prefix of [user/done/rest] at or below [user/done]
    that is a link, with what follows it. *)
Fixpoint firstLink (m : gmap PathName Node) (user : string)
    (done rest : list string) : option (PathName * list string) :=
  match rest with
  | [] => None
  | x :: rest' =>
    match m !! MkPathName user done with
    | Some (NLink t) => Some (t, rest)
    | _ => firstLink m user (done ++ [x]) rest'
    end
  end.

Definition MaxLinkHops : nat := 20.

(** Modelled from the spec: "Lookup(path, followFinalLink) fails with
    NotFound if the path does not exist, BrokenLink if an intermediate link
    cannot be resolved"; a final link is followed only when asked. *)
Fixpoint lookupIn (hops : nat) (m : gmap PathName Node) (name : PathName)
    (followFinal : bool) : Error + DirEntry :=
  match m !! name with
  | Some (NLink t) =>
    if followFinal then
      match hops with
      | O => inl (E name BrokenLink "too many links")
      | S hops' =>
        match lookupIn hops' m t true with
        | inl _ => inl (E name BrokenLink EmptyString)
        | inr d => inr d
        end
      end
    else inr (entryOf name (NLink t))
  | Some n => inr (entryOf name n)
  | None =>
    match firstLink m (pn_user name) [] (pn_elems name) with
    | Some (t, rest) =>
      match hops with
      | O => inl (E name BrokenLink "too many links")
      | S hops' =>
        match lookupIn hops' m (MkPathName (pn_user t) (pn_elems t ++ rest)) followFinal with
        | inl _ => inl (E name BrokenLink EmptyString)
        | inr d => inr d
        end
      end
    | None => inl (E name NotExist EmptyString)
    end
  end.

(** A call that the service refuses leaves the name space as it is. *)
Definition guarded {A} (c : Call) (w : World) (op : World * (Error + A))
  : World * (Error + A) :=
  match faults w c with
  | Some e => (w, inl e)
  | None => op
  end.

Definition setNs (w : World) (m : gmap PathName Node) : World :=
  MkWorld m (faults w).

Definition memLookup (name : PathName) (followFinal : bool) (w : World)
  : World * (Error + DirEntry) :=
  guarded (CLookup name followFinal) w (w, lookupIn MaxLinkHops (ns w) name followFinal).

(** The entry is put at [name] when its parent is a directory and [name]
    is not a directory already. *)
Definition putNode (name : PathName) (n : Node) (w : World)
  : World * (Error + DirEntry) :=
  match pn_elems name with
  | [] => (w, inl (E name Invalid "cannot put a root"))
  | _ :: _ =>
    match ns w !! name with
    | Some NDir => (w, inl (E name errors.IsDir EmptyString))
    | _ =>
      match ns w !! parentOf name with
      | Some NDir => (setNs w (<[name := n]> (ns w)), inr (entryOf name n))
      | Some _ => (w, inl (E name NotDir EmptyString))
      | None => (w, inl (E name NotExist EmptyString))
      end
    end
  end.

(** Modelled from the spec: "MakeDirectory(path) → (Entry, error)"; it
    fails when the name exists or its parent is not a directory. *)
Definition memMakeDirectory (name : PathName) (w : World)
  : World * (Error + DirEntry) :=
  guarded (CMakeDirectory name) w
    match ns w !! name with
    | Some _ => (w, inl (E name Exist EmptyString))
    | None =>
      match pn_elems name with
      | [] => (setNs w (<[name := NDir]> (ns w)), inr (entryOf name NDir))
      | _ :: _ => putNode name NDir w
      end
    end.

(** Modelled from the spec: "PutLink(targetPath, destPath) → (Entry,
    error)". *)
Definition memPutLink (oldName newName : PathName) (w : World)
  : World * (Error + DirEntry) :=
  guarded (CPutLink oldName newName) w (putNode newName (NLink oldName) w).

(** Modelled from the spec: "PutDuplicate(sourcePath, destPath) creates a
    destination entry referencing the same content as source, without
    re-reading/re-writing bytes". *)
Definition memPutDuplicate (oldName newName : PathName) (w : World)
  : World * (Error + DirEntry) :=
  guarded (CPutDuplicate oldName newName) w
    match lookupIn MaxLinkHops (ns w) oldName true with
    | inl e => (w, inl e)
    | inr d =>
      if IsDir d then (w, inl (E oldName errors.IsDir EmptyString))
      else putNode newName (NFile (Blocks d)) w
    end.

(** Modelled from the spec: "Delete(path) → error".  The entry named is
    removed, whatever is below it: the service is not assumed to refuse a
    directory that is not empty. *)
Definition memDelete (name : PathName) (w : World) : World * option Error :=
  match faults w (CDelete name) with
  | Some e => (w, Some e)
  | None =>
    match ns w !! name with
    | Some _ => (setNs w (delete name (ns w)), None)
    | None => (w, Some (E name NotExist EmptyString))
    end
  end.

(** Modelled from the spec: "DirServerFor(path) → DirHandle"; there is one
    directory server, and only a refusal of the service makes the call
    fail. *)
Definition memDirServer (name : PathName) (w : World) : World * (Error + unit) :=
  guarded (CDirServer name) w (w, inr tt).

(** The entries that a pattern matches: for a pattern ending in "*", the
    entries directly under its directory; the sentinel [ErrFollowLink]
    comes with the link when the directory is a link. *)
Definition globIn (m : gmap PathName Node) (pattern : PathName)
  : list DirEntry * option Error :=
  match rev (pn_elems pattern) with
  | "*" :: _ =>
    let dir := parentOf pattern in
    match m !! dir with
    | Some NDir => (children m dir, None)
    | Some (NLink t) => ([entryOf dir (NLink t)], Some ErrFollowLink)
    | Some (NFile _) => ([], Some (E dir NotDir EmptyString))
    | None => ([], Some (E dir NotExist EmptyString))
    end
  | _ =>
    match m !! pattern with
    | Some n => ([entryOf pattern n], None)
    | None => ([], None)
    end
  end.

(** Modelled from the spec: "Glob(directoryPath + "/*") returns direct
    children only; propagates ErrFollowLink sentinel".  A refusal with the
    sentinel still gives the entries. *)
Definition memGlob (_ : unit) (pattern : PathName) (w : World)
  : World * (list DirEntry * option Error) :=
  match faults w (CGlob pattern) with
  | Some ErrFollowLink => (w, ((globIn (ns w) pattern).1, Some ErrFollowLink))
  | Some e => (w, ([], Some e))
  | None => (w, globIn (ns w) pattern)
  end.

Definition client : Client World unit :=
  MkClient World unit memLookup memMakeDirectory memPutLink memPutDuplicate
    memDelete memDirServer memGlob.

Definition noFaults : Call → option Error := λ _, None.

End mem.

(** ** Running the walk on small name spaces *)

Module examples.
Import mem.

Definition u (l : list string) : PathName := MkPathName "ann@example.com" l.

(** /a with file /a/f, directory /a/b with file /a/b/g, and link /a/l to
    /x; /dst. *)
Definition tree : gmap PathName Node :=
  list_to_map [(u [], NDir); (u ["a"], NDir); (u ["a"; "f"], NFile [1]);
    (u ["a"; "b"], NDir); (u ["a"; "b"; "g"], NFile [2; 3]); (u ["dst"], NDir);
    (u ["a"; "l"], NLink (u ["x"]))].

Definition start (m : gmap PathName Node) : State World :=
  MkState (MkWorld m noFaults) [].

(** /a/b/c, a file. *)
Definition chain : gmap PathName Node :=
  list_to_map [(u [], NDir); (u ["a"], NDir); (u ["a"; "b"], NDir);
    (u ["a"; "b"; "c"], NFile [7])].

(** The service refuses the one call [c] with [e]. *)
Definition refusing (c : Call) (e : Error) : Call → option Error :=
  λ c', if decide (c' = c) then Some e else None.


End examples.

(** ** Names, logs and name spaces: what the statements are about *)

(** The name is [dir] or is below [dir]. *)
Definition under (dir name : PathName) : Prop :=
  pn_user dir = pn_user name ∧ pn_elems dir `prefix_of` pn_elems name.

Definition isDelete (c : Call) : bool :=
  match c with CDelete _ => true | _ => false end.

(** The parsed destination of [copyEntry], whose parse error is dropped. *)
Definition parsedOrZero (name : PathName) : Parsed :=
  match Parse name with inr p => p | inl _ => zeroParsed end.

(** The name under which [copyEntry] puts the copy. *)
Definition copyName (dstDir : PathName) (srcPath : Parsed) : PathName :=
  Join dstDir (Elem srcPath (NElem srcPath - 1)).

(** The first call of the dispatch of [copyEntry] on the kind of entry. *)
Definition creation (dstDir : PathName) (srcPath : Parsed) (e : DirEntry) : Call :=
  if IsDir e then CMakeDirectory (copyName dstDir srcPath)
  else if IsLink e then CPutLink (Link e) (copyName dstDir srcPath)
  else CPutDuplicate (Name e) (copyName dstDir srcPath).

#[global] Instance under_dec dir name : Decision (under dir name).
Proof. unfold under. apply _. Defined.

(** The name [suffix] below [p]. *)
Definition extend (p : PathName) (suffix : list string) : PathName :=
  MkPathName (pn_user p) (pn_elems p ++ suffix).

(** Every entry that is not a root is in a directory that exists. *)
Definition wfNs (m : gmap PathName mem.Node) : Prop :=
  map_Forall (λ p _, pn_elems p ≠ [] → m !! mem.parentOf p = Some mem.NDir) m.

#[global] Instance wfNs_dec m : Decision (wfNs m).
Proof. unfold wfNs. apply _. Defined.

(** The entry is the one that the name space has under its name. *)
Definition consistent (m : gmap PathName mem.Node) (d : DirEntry) : Prop :=
  ∃ n, m !! Name d = Some n ∧ d = mem.entryOf (Name d) n.

(** The name that a call is about: for a pattern, its directory. *)
Definition callPath (c : Call) : PathName :=
  match c with
  | CLookup name _ => name
  | CMakeDirectory name => name
  | CPutLink _ newName => newName
  | CPutDuplicate _ newName => newName
  | CDelete name => name
  | CDirServer name => name
  | CGlob pattern => mem.parentOf pattern
  end.

(** The call deletes a name that is below [p]. *)
Definition deletesBelow (p : PathName) (c : Call) : Prop :=
  match c with
  | CDelete q => under p q ∧ q ≠ p
  | _ => False
  end.

(** Post-order: once a name has been the argument of [Delete], no name
    below it is. *)
Fixpoint postOrdered (l : list Call) : Prop :=
  match l with
  | [] => True
  | c :: l' =>
    match c with
    | CDelete p => Forall (λ c', ¬ deletesBelow p c') l'
    | _ => True
    end ∧ postOrdered l'
  end.

(** What a removal that started at the names [roots] in the name space of
    [w], with the log [tr], has done when it ends in [st'] with [r]. *)
Definition rmPost (fuel : nat) (roots : list PathName) (w : mem.World)
    (tr : list Call) (st' : State mem.World) (r : Res unit) : Prop :=
  mem.faults (world st') = mem.faults w ∧
  wfNs (mem.ns (world st')) ∧
  (∀ p, mem.ns (world st') !! p = mem.ns w !! p
        ∨ (mem.ns (world st') !! p = None ∧ ∃ d, d ∈ roots ∧ under d p)) ∧
  (r = Val tt → ∀ d p, d ∈ roots → under d p → mem.ns (world st') !! p = None) ∧
  ∃ new, calls st' = tr ++ new ∧
    Forall (λ c, ∃ d, d ∈ roots ∧ under d (callPath c)
                 ∧ is_Some (mem.ns w !! callPath c)) new ∧
    postOrdered new ∧
    (∀ e, r = Raise e → ∃ mid c d, new = mid ++ [c] ∧ d ∈ roots ∧
       under d (callPath c) ∧
       ∀ p, under d p → under p (callPath c) →
            mem.ns (world st') !! p = mem.ns w !! p) ∧
    (r = OutOfFuel → ∃ p n d, d ∈ roots ∧ mem.ns w !! p = Some n ∧ under d p ∧
       (length (pn_elems d) + fuel ≤ length (pn_elems p))%nat).

(** The call makes a directory above [q]. *)
Definition createsAbove (q : PathName) (c : Call) : Prop :=
  match c with
  | CMakeDirectory p => under p q ∧ p ≠ q
  | _ => False
  end.

(** Parents first: once an entry has been put at a name, no directory
    above that name is made. *)
Fixpoint preOrdered (l : list Call) : Prop :=
  match l with
  | [] => True
  | c :: l' =>
    (mutating c = true → Forall (λ c', ¬ createsAbove (callPath c) c') l')
    ∧ preOrdered l'
  end.

(** The name of the copy of [src] in [dstDir]. *)
Definition target (dstDir src : PathName) : PathName :=
  copyName dstDir (parsedOrZero src).

(** What a copy of the sources of [roots] to their targets, started in the
    name space of [w] with the log [tr], has done when it ends in [st']
    with [r]. *)
Definition copyPost (fuel : nat) (roots : list (PathName * PathName))
    (w : mem.World) (tr : list Call) (st' : State mem.World) (r : Res unit) : Prop :=
  mem.faults (world st') = mem.faults w ∧
  wfNs (mem.ns (world st')) ∧
  (∀ p, mem.ns (world st') !! p = mem.ns w !! p
        ∨ ∃ sd, sd ∈ roots ∧ under sd.2 p) ∧
  (r = Val tt → ∀ sd s n, sd ∈ roots →
     mem.ns w !! extend sd.1 s = Some n →
     mem.ns (world st') !! extend sd.2 s = Some n) ∧
  ∃ new, calls st' = tr ++ new ∧
    Forall (λ c, mutating c = true → ∃ sd, sd ∈ roots ∧ under sd.2 (callPath c)) new ∧
    preOrdered new ∧
    (r = OutOfFuel → ∃ p sd, sd ∈ roots ∧ is_Some (mem.ns w !! p) ∧ under sd.1 p ∧
       (length (pn_elems sd.1) + fuel ≤ length (pn_elems p))%nat).

(** ** The calls that a walk may make *)

(** The calls of [rmEntry]: the directory server, listings and deletions. *)
Definition rmCall (c : Call) : Prop :=
  match c with
  | CDirServer _ | CGlob _ | CDelete _ => True
  | _ => False
  end.

(** The calls of [copyEntry]: no lookup and no deletion. *)
Definition copyCall (c : Call) : Prop :=
  match c with
  | CLookup _ _ | CDelete _ => False
  | _ => True
  end.

(** The calls of the loop of [copy] over [srcs]: as [copyEntry], and the
    lookups of the sources, which do not follow a final link. *)
Definition copyLoopCall (srcs : list PathName) (c : Call) : Prop :=
  match c with
  | CLookup name followFinal => followFinal = false ∧ name ∈ srcs
  | CDelete _ => False
  | _ => True
  end.

(** Every name that [w] has, [w'] has. *)
Definition keepsNames (w w' : mem.World) : Prop :=
  ∀ p, is_Some (mem.ns w !! p) → is_Some (mem.ns w' !! p).


(** ** The HTTP handler of upspin-ui

    The handler [server] that calls [copy] and [rm]: [ServeHTTP],
    [serveAPI], [serveContent], [serveStatic], [httpError], [ifError],
    [put] and [static.File].  What the handler uses of net/http, of the
    rest of the Upspin client and of the other packages is gathered in an
    environment [Env]; the statements hold for every environment. *)

Module server.

(** A file of a multipart form: its name and what [Open] gives, an error
    text or the content. *)
Record FileHeader : Type := MkFileHeader {
  Filename : string;
  opened : string + string
}.

(** A request: the method, [URL.Path], the parsed form, and what
    [ParseMultipartForm] gives, an error text or the files of the form in
    the order in which the loop meets them. *)
Record Request : Type := MkRequest {
  Method : string;
  URLPath : string;
  Form : string → list string;
  MultipartForm : string + list (string * list FileHeader)
}.

(** [Request.FormValue]: the first value of the key, or the empty text. *)
Definition FormValue (r : Request) (k : string) : string :=
  match Form r k with v :: _ => v | [] => EmptyString end.

(** An error value of Go: an error of upspin.io/errors (or the sentinel),
    or another error, of which only the text is known. *)
Inductive GoError : Type :=
| Upspin (e : Error)
| Plain (text : string).

(** What the handler writes: [http.Error], [w.Write] of a body, or
    [http.ServeContent] of a static asset or of an Upspin file with the
    time of its entry. *)
Inductive Reply : Type :=
| HTTPError (text : string) (code : nat)
| Written (body : string)
| ServedStatic (name : string) (content : string)
| ServedFile (name : string) (de : DirEntry) (file : PathName).

(** How a call of the handler ends: with a reply, with a run-time panic,
    or without an answer within the fuel of the walk. *)
Inductive Outcome : Type :=
| Replied (reply : Reply)
| Panicked
| NoAnswer.

(** The part of [upspin.Config] that the handler reads: the user name,
    and whether the transport of the directory endpoint is
    [upspin.Remote]. *)
Record Config : Type := MkConfig {
  UserName : string;
  DirRemote : bool
}.

(** The fields of [server]; [cliSet] says that [s.cli] is not nil. *)
Record Server : Type := MkServer {
  key : string;
  cfg : option Config;
  cliSet : bool
}.

(** The values that [serveAPI] passes to [json.Marshal]: nil, the reply
    to "startup", the reply to "list" (entries with their tokens), and
    the reply with only an [Error] field. *)
Inductive Resp (SR : Type) : Type :=
| RNil
| RStartup (Startup : option SR) (user LeftPath RightPath Error : string)
| RList (Entries : list (DirEntry * string)) (Error : string)
| RError (Error : string).

Arguments RNil {SR}.
Arguments RStartup {SR} _ _ _ _ _.
Arguments RList {SR} _ _.
Arguments RError {SR} _.

(** What the handler calls outside of this package and of [Client]. *)
Record Env (W SR : Type) : Type := MkEnv {
  (** the conversion [upspin.PathName(text)] and back *)
  pathNameOf : string → PathName;
  pathString : PathName → string;
  (** [err.Error()] of an error of the Upspin client *)
  errorString : Error → string;
  (** [errors.Match(errors.E(kind), err)] *)
  errorsMatch : Kind → GoError → bool;
  jsonMarshal : Resp SR → string + string;
  (** [s.startup(r)], which may set [s.cfg] and [s.cli] *)
  startup : Request → Server → W → (Server * W) * (option SR * option Config * option Error);
  (** [Client.Glob], [Client.Open], [Client.Create], and [io.Copy] to and
      [Close] of the file created *)
  clientGlob : PathName → W → W * (list DirEntry * option Error);
  clientOpen : PathName → W → W * option Error;
  clientCreate : PathName → W → W * option Error;
  fileCopy : PathName → string → W → W * option Error;
  fileClose : PathName → W → W * option Error;
  (** golang.org/x/net/xsrftoken *)
  xsrfGenerate : string → string → string → string;
  xsrfValid : string → string → string → string → bool;
  (** [path.Base] *)
  pathBase : string → string;
  (** the generated map [files] of package static (nil when it was not
      generated), the directory that [build.Import] finds (empty when it
      finds none), and [ioutil.ReadFile] of a file of that directory,
      which gives the content, or an error with what [os.IsNotExist]
      says of it *)
  staticFiles : option (gmap string string);
  staticDir : string;
  readFile : string → string → (bool * string) + string
}.

Arguments pathNameOf {W SR} _ _.
Arguments pathString {W SR} _ _.
Arguments errorString {W SR} _ _.
Arguments errorsMatch {W SR} _ _ _.
Arguments jsonMarshal {W SR} _ _.
Arguments startup {W SR} _ _ _ _.
Arguments clientGlob {W SR} _ _ _.
Arguments clientOpen {W SR} _ _ _.
Arguments clientCreate {W SR} _ _ _.
Arguments fileCopy {W SR} _ _ _ _.
Arguments fileClose {W SR} _ _ _.
Arguments xsrfGenerate {W SR} _ _ _ _.
Arguments xsrfValid {W SR} _ _ _ _ _.
Arguments pathBase {W SR} _ _.
Arguments staticFiles {W SR} _.
Arguments staticDir {W SR} _.
Arguments readFile {W SR} _ _ _.

(** [http.StatusText] for the status codes of the handler. *)
Definition StatusText (code : nat) : string :=
  match code with
  | 400 => "Bad Request"
  | 403 => "Forbidden"
  | 404 => "Not Found"
  | 405 => "Method Not Allowed"
  | 500 => "Internal Server Error"
  | 503 => "Service Unavailable"
  | _ => EmptyString
  end.

(** An error of package errors built without a path. *)
Definition noName : PathName := MkPathName EmptyString [].

(** [strings.Contains(p, "@")] *)
Fixpoint containsAt (p : string) : bool :=
  match p with
  | EmptyString => false
  | String c rest => if Ascii.eqb c "@"%char then true else containsAt rest
  end.

Section Handler.
Context {W Dir SR : Type}.
Variable cli : Client W Dir.
Variable env : Env W SR.

(** [hasConfig] *)
Definition hasConfig (s : Server) : bool :=
  match cfg s with Some _ => cliSet s | None => false end.

(** The text of a Go error. *)
Definition goErrorString (err : GoError) : string :=
  match err with
  | Upspin e => errorString env e
  | Plain text => text
  end.

(** [ifError]: whether the error is the expected one, and the reply that
    is written if so. *)
Definition ifError (got : GoError) (want : Kind) (code : nat) : option Reply :=
  if errorsMatch env want got then Some (HTTPError (StatusText code) code) else None.

(** [httpError]: the reply of the first case that matches. *)
Definition httpError (err : GoError) : Reply :=
  match ifError err Private 403 with
  | Some reply => reply
  | None =>
    match ifError err Permission 403 with
    | Some reply => reply
    | None =>
      match ifError err NotExist 404 with
      | Some reply => reply
      | None =>
        match ifError err BrokenLink 404 with
        | Some reply => reply
        | None => HTTPError (goErrorString err) 500
        end
      end
    end
  end.

(** [static.File] *)
Definition File (name : string) : GoError + string :=
  match staticFiles env with
  | Some files =>
    match files !! name with
    | None => inl (Upspin (E noName NotExist "file not found"))
    | Some b => inr b
    end
  | None =>
    if String.eqb (staticDir env) EmptyString
    then inl (Upspin (E noName NotExist "could not find static assets"))
    else
      match readFile env (staticDir env) name with
      | inl (isNotExist, text) =>
        if isNotExist then inl (Upspin (E noName NotExist text))
        else inl (Plain text)
      | inr b => inr b
      end
  end.

(** [r.URL.Path[1:]], which panics on the empty path. *)
Definition dropSlash (p : string) : option string :=
  match p with
  | EmptyString => None
  | String _ rest => Some rest
  end.

(** [serveStatic] *)
Definition serveStatic (r : Request) : Outcome :=
  match dropSlash (URLPath r) with
  | None => Panicked
  | Some p0 =>
    let p := if String.eqb p0 EmptyString then "index.html" else p0 in
    match File p with
    | inl err =>
      if errorsMatch env NotExist err
      then Replied (HTTPError "404 page not found" 404)
      else Replied (HTTPError (goErrorString err) 500)
    | inr b => Replied (ServedStatic (pathBase env p) b)
    end
  end.

(** [serveContent]; the state is the one of the Upspin service. *)
Definition serveContent (s : Server) (r : Request) (st : State W)
  : State W * Outcome :=
  if negb (hasConfig s)
  then (st, Replied (HTTPError "No configuration" 503))
  else
    match dropSlash (URLPath r), cfg s with
    | None, _ | _, None => (st, Panicked)
    | Some p, Some c =>
      if negb (xsrfValid env (FormValue r "token") (key s) (UserName c) p)
      then (st, Replied (HTTPError "Invalid XSRF token" 403))
      else
        let name := pathNameOf env p in
        match cliLookup cli name true st with
        | (st1, Raise err) => (st1, Replied (httpError (Upspin err)))
        | (st1, OutOfFuel) => (st1, NoAnswer)
        | (st1, Val de) =>
          match clientOpen env name (world st1) with
          | (w2, Some err) =>
              (MkState w2 (calls st1), Replied (httpError (Upspin err)))
          | (w2, None) =>
              (MkState w2 (calls st1), Replied (ServedFile (pathBase env p) de name))
          end
        end
    end.

(** [put] *)
Definition put (dir : PathName) (fh : FileHeader) (w : W) : W * option GoError :=
  match opened fh with
  | inl text => (w, Some (Plain text))
  | inr src =>
    let dst := Join dir (Filename fh) in
    match clientCreate env dst w with
    | (w1, Some err) => (w1, Some (Upspin err))
    | (w1, None) =>
      match fileCopy env dst src w1 with
      | (w2, Some err) => (w2, Some (Upspin err))
      | (w2, None) =>
        match fileClose env dst w2 with
        | (w3, Some err) => (w3, Some (Upspin err))
        | (w3, None) => (w3, None)
        end
      end
    end
  end.

(** The loop of the "put" request over the files of the form: an early
    reply for a key without a file, and otherwise the text of the first
    error of [put]. *)
Fixpoint putAll (dir : PathName) (files : list (string * list FileHeader)) (w : W)
  : W * (Reply + string) :=
  match files with
  | [] => (w, inr EmptyString)
  | (_, fhs) :: files' =>
    match fhs with
    | [] => (w, inl (HTTPError "missing file handle" 400))
    | fh :: _ =>
      match put dir fh w with
      | (w1, Some err) => (w1, inr (goErrorString err))
      | (w1, None) => putAll dir files' w1
      end
    end
  end.

(** The text of the error of a walk: empty for nil. *)
Definition errText (r : Res unit) : option string :=
  match r with
  | Val _ => Some EmptyString
  | Raise e => Some (errorString env e)
  | OutOfFuel => None
  end.

(** The cases of the switch of [serveAPI] on the method: the new server
    and state, and either an early outcome or the value to marshal. *)
Definition dispatch (fuel : nat) (s : Server) (r : Request) (st : State W)
  : (Server * State W) * (Outcome + Resp SR) :=
  let method := FormValue r "method" in
  if String.eqb method "startup" then
    let '((s1, w1), (sResp, c, err)) := startup env r s (world st) in
    let errString := match err with Some e => errorString env e | None => EmptyString end in
    let '(user, leftPath, rightPath) :=
      match c with
      | Some c =>
        let defaultPath := "augie@upspin.io/" in
        (UserName c,
         (if DirRemote c then UserName c ++ "/" else defaultPath)%string,
         defaultPath)
      | None => (EmptyString, EmptyString, EmptyString)
      end in
    ((s1, MkState w1 (calls st)),
     inr (RStartup sResp user leftPath rightPath errString))
  else if String.eqb method "list" then
    let path := pathNameOf env (FormValue r "path") in
    let '(w1, (des, err)) := clientGlob env (AllFilesGlob path) (world st) in
    let errString := match err with Some e => errorString env e | None => EmptyString end in
    match des, cfg s with
    | [], _ => ((s, MkState w1 (calls st)), inr (RList [] errString))
    | _ :: _, None => ((s, MkState w1 (calls st)), inl Panicked)
    | _ :: _, Some c =>
      let entries :=
        map (λ de, (de, xsrfGenerate env (key s) (UserName c) (pathString env (Name de)))) des in
      ((s, MkState w1 (calls st)), inr (RList entries errString))
    end
  else if String.eqb method "mkdir" then
    match cliMakeDirectory cli (pathNameOf env (FormValue r "path")) st with
    | (st1, Val _) => ((s, st1), inr (RError EmptyString))
    | (st1, Raise e) => ((s, st1), inr (RError (errorString env e)))
    | (st1, OutOfFuel) => ((s, st1), inl NoAnswer)
    end
  else if String.eqb method "rm" then
    match rmAll cli fuel (map (pathNameOf env) (Form r "paths[]")) st with
    | (st1, res) =>
      match errText res with
      | Some text => ((s, st1), inr (RError text))
      | None => ((s, st1), inl NoAnswer)
      end
    end
  else if String.eqb method "copy" then
    match copy cli fuel (pathNameOf env (FormValue r "dest"))
            (map (pathNameOf env) (Form r "paths[]")) st with
    | (st1, res) =>
      match errText res with
      | Some text => ((s, st1), inr (RError text))
      | None => ((s, st1), inl NoAnswer)
      end
    end
  else if String.eqb method "put" then
    match MultipartForm r with
    | inl text => ((s, st), inl (Replied (HTTPError ("Parse error: " ++ text) 400)))
    | inr [] => ((s, st), inl (Replied (HTTPError "missing file" 400)))
    | inr files =>
      match putAll (pathNameOf env (FormValue r "dir")) files (world st) with
      | (w1, inl reply) => ((s, MkState w1 (calls st)), inl (Replied reply))
      | (w1, inr text) => ((s, MkState w1 (calls st)), inr (RError text))
      end
    end
  else ((s, st), inr RNil).

(** [serveAPI] *)
Definition serveAPI (fuel : nat) (s : Server) (r : Request) (st : State W)
  : (Server * State W) * Outcome :=
  if negb (String.eqb (Method r) "POST")
  then ((s, st), Replied (HTTPError "Expected POST request" 405))
  else if negb (String.eqb (FormValue r "key") (key s))
  then ((s, st), Replied (HTTPError "Invalid key" 403))
  else if negb (String.eqb (FormValue r "method") "startup") && negb (hasConfig s)
  then ((s, st), Replied (HTTPError "No configuration" 503))
  else
    match dispatch fuel s r st with
    | (sst, inl out) => (sst, out)
    | (sst, inr resp) =>
      match jsonMarshal env resp with
      | inl text => (sst, Replied (HTTPError text 500))
      | inr b => (sst, Replied (Written b))
      end
    end.

(** [ServeHTTP] *)
Definition ServeHTTP (fuel : nat) (s : Server) (r : Request) (st : State W)
  : (Server * State W) * Outcome :=
  let p := URLPath r in
  if String.eqb p "/_upspin" then serveAPI fuel s r st
  else if containsAt p then
    let '(st1, out) := serveContent s r st in ((s, st1), out)
  else ((s, st), serveStatic r).

End Handler.

End server.

(** ** Requests, by what they may do *)

Module api.
Import server.

(** The kind of a Go error, when it is an error of package errors. *)
Definition goKind (err : GoError) : option Kind :=
  match err with
  | Upspin (E _ k _) => Some k
  | _ => None
  end.

(** The request passes the three gates of [serveAPI]: the method of the
    request, the key, and a configuration for every method but
    "startup". *)
Definition admitted (s : Server) (r : Request) : Prop :=
  Method r = "POST" ∧ FormValue r "key" = key s
  ∧ (FormValue r "method" = "startup" ∨ hasConfig s = true).

(** The request passes the gates of [serveContent]: a configuration, and
    a token that is valid for the path after the first character. *)
Definition tokenValid {W SR} (env : Env W SR) (s : Server) (r : Request) : Prop :=
  ∃ c ch p, cfg s = Some c ∧ cliSet s = true ∧ URLPath r = String ch p
    ∧ xsrfValid env (FormValue r "token") (key s) (UserName c) p = true.



End api.

(** ** A handler over the name space in memory *)

Module handler_examples.
Import mem examples server.

(** The pieces of a text between slashes. *)
Fixpoint fields (s acc : string) : list string :=
  match s with
  | EmptyString => [acc]
  | String c rest =>
    if Ascii.eqb c "/"%char then acc :: fields rest EmptyString
    else fields rest (acc ++ String c EmptyString)%string
  end.

(** The name that a text spells: the user before the first slash, and
    the elements after it. *)
Definition nameOf (s : string) : PathName :=
  match fields s EmptyString with
  | [] => zeroName
  | user :: l => MkPathName user (List.filter (λ x, negb (String.eqb x EmptyString)) l)
  end.

Definition textOf (name : PathName) : string :=
  (pn_user name ++ "/" ++ String.concat "/" (pn_elems name))%string.

Definition baseOf (s : string) : string := List.last (fields s EmptyString) EmptyString.

Definition kindText (k : Kind) : string :=
  match k with
  | Other => "other error"
  | Invalid => "invalid operation"
  | Permission => "permission denied"
  | IO => "I/O error"
  | Exist => "item already exists"
  | NotExist => "item does not exist"
  | errors.IsDir => "item is a directory"
  | NotDir => "item is not a directory"
  | NotEmpty => "directory not empty"
  | Private => "information withheld"
  | Internal => "internal error"
  | CannotDecrypt => "no wrapped key for user"
  | Transient => "transient error"
  | BrokenLink => "link target does not exist"
  end.

Definition textOfError (e : Error) : string :=
  match e with
  | ErrFollowLink => "action incomplete: must follow link"
  | E name k text => (textOf name ++ ": " ++ kindText k ++ ": " ++ text)%string
  end.

(** [Match] by the kind of the error. *)
Definition matchKind (want : Kind) (got : GoError) : bool :=
  bool_decide (api.goKind got = Some want).

(** A rendering of the [Error] field only. *)
Definition render (resp : Resp unit) : string + string :=
  match resp with
  | RNil => inr "null"
  | RStartup _ _ _ _ err | RList _ err | RError err => inr ("Error=" ++ err)%string
  end.

Definition config : Config := MkConfig "ann@example.com" true.

(** The start-up that finds a configuration at once. *)
Definition configure (r : Request) (s : Server) (w : World)
  : (Server * World) * (option unit * option Config * option Error) :=
  ((MkServer (key s) (Some config) true, w), (Some tt, Some config, None)).

Definition token (key user action : string) : string :=
  (key ++ ":" ++ user ++ ":" ++ action)%string.

(** Files are opened when they are files; a file created is empty. *)
Definition open (name : PathName) (w : World) : World * option Error :=
  match lookupIn MaxLinkHops (ns w) name true with
  | inl e => (w, Some e)
  | inr d => if IsDir d then (w, Some (E name errors.IsDir EmptyString)) else (w, None)
  end.

Definition create (name : PathName) (w : World) : World * option Error :=
  match putNode name (NFile []) w with
  | (w', inl e) => (w', Some e)
  | (w', inr _) => (w', None)
  end.

(** The assets on disk; reading [broken] fails, and not because it does
    not exist. *)
Definition disk (dir name : string) : (bool * string) + string :=
  if String.eqb name "index.html" then inr "<html></html>"
  else if String.eqb name "broken" then inl (false, "read error")
  else inl (true, "no such file").

Definition env : Env World unit :=
  MkEnv World unit nameOf textOf textOfError matchKind render configure
    (memGlob tt) open create (λ _ _ w, (w, None)) (λ _ w, (w, None))
    token (λ tok key user action, String.eqb tok (token key user action))
    baseOf None "/static" disk.

(** The server after start-up, with key "k". *)
Definition ready : Server := MkServer "k" (Some config) true.

(** A POST request to the API with the key "k". *)
Definition post (method : string) (form : string → list string) : Request :=
  MkRequest "POST" "/_upspin"
    (λ k, if String.eqb k "key" then ["k"]
          else if String.eqb k "method" then [method] else form k)
    (inl "no multipart form").

(** A GET request. *)
Definition get (p : string) (form : string → list string) : Request :=
  MkRequest "GET" p form (inl "no multipart form").

End handler_examples.

(** The request with only the first file of every key of its multipart
    form. *)
Definition firstHandles (r : server.Request) : server.Request :=
  server.MkRequest (server.Method r) (server.URLPath r) (server.Form r)
    match server.MultipartForm r with
    | inl text => inl text
    | inr files => inr (map (λ kf, (kf.1, take 1 kf.2)) files)
    end.

(** ** Strings of Go, as far as the helpers use them *)

Module gostrings.

Definition nl : string := String (ascii_of_nat 10) EmptyString.
Definition tab : string := String (ascii_of_nat 9) EmptyString.

(** [len(s)] *)
Definition len (s : string) : Z := Z.of_nat (String.length s).

(** [strings.Index(s, c)] for a text [c] of one byte: the index of its
    first instance, or -1. *)
Fixpoint IndexByte (s : string) (c : ascii) : Z :=
  match s with
  | EmptyString => (-1)%Z
  | String a rest =>
    if Ascii.eqb a c then 0%Z
    else let i := IndexByte rest c in if (i <? 0)%Z then (-1)%Z else (i + 1)%Z
  end.

(** [s[a:b]], which panics unless 0 <= a <= b <= len(s). *)
Definition slice (s : string) (a b : Z) : option string :=
  if ((0 <=? a) && (a <=? b) && (b <=? len s))%Z
  then Some (substring (Z.to_nat a) (Z.to_nat (b - a)) s)
  else None.

(** [strings.HasSuffix]:
    [len(s) >= len(suffix) && s[len(s)-len(suffix):] == suffix]. *)
Definition HasSuffix (s suffix : string) : bool :=
  (len suffix <=? len s)%Z
  && String.eqb (substring (Z.to_nat (len s - len suffix)) (Z.to_nat (len suffix)) s) suffix.

(** [strings.Replace(s, old, new, 1)] for a text [old] of one byte. *)
Fixpoint ReplaceFirst (s : string) (old : ascii) (new : string) : string :=
  match s with
  | EmptyString => EmptyString
  | String a rest =>
    if Ascii.eqb a old then (new ++ rest)%string
    else String a (ReplaceFirst rest old new)
  end.

End gostrings.

(** ** Helpers of the command: addresses, logs and the Google Cloud set-up *)

Module helpers.
Import gostrings.

Section Net.
(** Package net: an address of type [net.IP], [net.SplitHostPort], which
    gives an error text or the host and the port, [net.LookupIP], and
    the methods [IsLoopback] and [String]; and the verb %q of package
    fmt. *)
Context {IP : Type}.
Variable SplitHostPort : string → string + (string * string).
Variable LookupIP : string → string + list IP.
Variable IsLoopback : IP → bool.
Variable IPString : IP → string.
Variable quote : string → string.

(** The loop of [isLocal]. *)
Fixpoint loopbackAll (addr : string) (ips : list IP) : option string :=
  match ips with
  | [] => None
  | ip :: ips' =>
    if negb (IsLoopback ip)
    then Some ("cannot listen on non-loopback address " ++ quote addr)%string
    else loopbackAll addr ips'
  end.

(** [isLocal] of main.go: the error text, or [None] for nil. *)
Definition isLocal (addr : string) : option string :=
  match SplitHostPort addr with
  | inl err => Some err
  | inr (host, _) =>
    match LookupIP host with
    | inl err => Some err
    | inr ips => loopbackAll addr ips
    end
  end.

(** The loop of [hostResolvesTo]. *)
Fixpoint resolvesAll (host ip : string) (ips : list IP) : option string :=
  match ips with
  | [] => None
  | ipp :: ips' =>
    if negb (String.eqb (IPString ipp) ip)
    then Some ("The host " ++ quote host ++ " resolves to " ++ quote (IPString ipp) ++ "."
               ++ nl ++ "It should resolve to " ++ quote ip
               ++ ". Check your DNS settings.")%string
    else resolvesAll host ip ips'
  end.

(** [hostResolvesTo] *)
Definition hostResolvesTo (host ip : string) : option string :=
  match LookupIP host with
  | inl err => Some ("Could not resolve " ++ quote host ++ ":" ++ nl ++ err)%string
  | inr [] =>
    Some ("The host " ++ quote host ++ " does not resolve to any IP." ++ nl
          ++ "It should resolve to " ++ quote ip ++ ". Check your DNS settings.")%string
  | inr ips => resolvesAll host ip ips
  end.

(** [local.LocalName] for the user name of the configuration. *)
Definition localSuffix : string := ".localhost.".

Definition LocalName (user service : string) : string :=
  ReplaceFirst (user ++ "." ++ service ++ localSuffix)%string "@"%char ".".

(** [local.IsLocal] *)
Definition IsLocal (address : string) : bool :=
  let h := match SplitHostPort address with
           | inl _ => address
           | inr (h, _) => h
           end in
  if negb (HasSuffix h localSuffix) then false else true.

End Net.

Section Format.
(** The verb %q of package fmt, for a text and for a slice of texts. *)
Variable quote : string → string.
Variable quoteAll : list string → string.

(** The loop of [formatRequest] over the values, in the order in which
    the map gives them: the flag [first] and the buffer. *)
Fixpoint formatLoop (vals : list (string * list string)) (first : bool) (buf : string)
  : bool * string :=
  match vals with
  | [] => (first, buf)
  | (k, vs) :: rest =>
    let vs := if String.eqb k "privateKeyData" then ["REDACTED"] else vs in
    if String.eqb k "method" then formatLoop rest first buf
    else if String.eqb k "key" then formatLoop rest first buf
    else
      let buf := if first then (buf ++ nl)%string else (buf ++ "," ++ nl)%string in
      formatLoop rest false (buf ++ tab ++ quote k ++ ": " ++ quoteAll vs)%string
  end.

(** [formatRequest] *)
Definition formatRequest (vals : list (string * list string)) : string :=
  let '(first, buf) := formatLoop vals true "{" in
  if first then (buf ++ "}")%string else (buf ++ nl ++ "}")%string.

(** [serviceAccountEmailToProjectID]: a panic ([None]), an error text or
    the project. *)
Definition domain : string := ".iam.gserviceaccount.com".

Definition serviceAccountEmailToProjectID (email : string) : option (string + string) :=
  let i := IndexByte email "@"%char in
  if (i <? 0)%Z
  then Some (inl ("service account email " ++ quote email ++ " has no @ sign")%string)
  else if negb (HasSuffix email domain)
  then Some (inl ("service account email " ++ quote email
                  ++ " does not have expected form")%string)
  else
    match slice email (i + 1) (len email - len domain) with
    | None => None
    | Some project => Some (inr project)
    end.

End Format.

(** An error value of the Google set-up: a [*googleapi.Error] with the
    reasons of its [Errors], or another error. *)
Inductive ApiError : Type :=
| GoogleAPI (reasons : list string)
| NotGoogleAPI (text : string).

(** The loop of [okReason]: whether no reason differs. *)
Fixpoint reasonsAll (reason : string) (reasons : list string) : bool :=
  match reasons with
  | [] => true
  | e :: rest => if negb (String.eqb e reason) then false else reasonsAll reason rest
  end.

(** [okReason]; [None] is nil. *)
Definition okReason (reason : string) (err : option ApiError) : option ApiError :=
  match err with
  | Some (GoogleAPI (e :: rest)) =>
    if reasonsAll reason (e :: rest) then None else err
  | _ => err
  end.

(** [isExists] *)
Definition isExists (err : option ApiError) : bool :=
  match err with
  | None => false
  | Some _ =>
    match okReason "alreadyExists" err with
    | None => true
    | Some _ =>
      match okReason "conflict" err with
      | None => true
      | Some _ => false
      end
    end
  end.

(** Two forms with the same keys in the same order, and the same values
    but for the keys "privateKeyData", "method" and "key". *)
Definition sameButSecrets (vals vals' : list (string * list string)) : Prop :=
  Forall2 (λ a b, a.1 = b.1
    ∧ (a.1 ≠ "privateKeyData" → a.1 ≠ "method" → a.1 ≠ "key" → a.2 = b.2))
    vals vals'.

End helpers.

(** ** The service with a record of its answers *)














(** ** Laws of the monad *)

Section MonadFacts.
Context {W : Type}.

Lemma bind_val {A B} (m : M W A) (k : A → M W B) st st' a :
  m st = (st', Val a) → bind m k st = k a st'.
Proof. intros H. unfold bind. by rewrite H. Qed.

Lemma bind_raise {A B} (m : M W A) (k : A → M W B) st st' e :
  m st = (st', Raise e) → bind m k st = (st', Raise e).
Proof. intros H. unfold bind. by rewrite H. Qed.

Lemma bind_outOfFuel {A B} (m : M W A) (k : A → M W B) st st' :
  m st = (st', OutOfFuel) → bind m k st = (st', OutOfFuel).
Proof. intros H. unfold bind. by rewrite H. Qed.

(** What [bind] gave tells how far it went. *)
Lemma bind_inv {A B} (m : M W A) (k : A → M W B) st st2 (r : Res B) :
  bind m k st = (st2, r) →
  (∃ st1 a, m st = (st1, Val a) ∧ k a st1 = (st2, r))
  ∨ (∃ e, m st = (st2, Raise e) ∧ r = Raise e)
  ∨ (m st = (st2, OutOfFuel) ∧ r = OutOfFuel).
Proof.
  unfold bind. destruct (m st) as [st1 [a|e|]]; intros H.
  - left. eauto.
  - right. left. inversion H; subst. eauto.
  - right. right. by inversion H; subst.
Qed.

Lemma forEach_app {A} (l1 l2 : list A) (f : A → M W unit) st :
  forEach (l1 ++ l2) f st = bind (forEach l1 f) (λ _, forEach l2 f) st.
Proof.
  revert st. induction l1 as [|x l1 IH]; intros st; simpl.
  - reflexivity.
  - unfold bind in *. destruct (f x st) as [st1 [[]|e|]]; [apply IH | done | done].
Qed.

End MonadFacts.

(** ** The walk over any client *)

Lemma hasPrefixElems_spec (p q : list string) :
  hasPrefixElems p q = true ↔ q `prefix_of` p.
Proof.
  revert p. induction q as [|x q IH]; intros p.
  - destruct p; simpl; (split; [intros _; apply prefix_nil | done]).
  - destruct p as [|y p]; simpl.
    + split; [done | intros H; by apply prefix_nil_not in H].
    + rewrite andb_true_iff, bool_decide_eq_true, IH. split.
      * intros [-> H]. by apply prefix_cons.
      * intros H. split; [by apply prefix_cons_inv_1 in H | by apply prefix_cons_inv_2 in H].
Qed.

Lemma HasPrefix_spec (p q : Parsed) :
  HasPrefix p q = true ↔ User q = User p ∧ elems q `prefix_of` elems p.
Proof.
  unfold HasPrefix. rewrite andb_true_iff, bool_decide_eq_true, hasPrefixElems_spec.
  split; intros [Hu He]; split; congruence.
Qed.

Lemma Parse_inr name p :
  Parse name = inr p → pn_user name ≠ EmptyString ∧ p = MkParsed (pn_user name) (pn_elems name).
Proof.
  unfold Parse. destruct (bool_decide_reflect (pn_user name = EmptyString)) as [|Hu]; [done|].
  intros Hp. by injection Hp as <-.
Qed.

(** On names, the test of [copyEntry] says that the destination is the
    source or is below it. *)
Lemma HasPrefix_under dstDir src srcPath :
  Parse src = inr srcPath →
  HasPrefix (parsedOrZero dstDir) srcPath = true ↔ under src dstDir.
Proof.
  intros [Hu ->]%Parse_inr. rewrite HasPrefix_spec. unfold under, parsedOrZero, Parse.
  destruct (bool_decide_reflect (pn_user dstDir = EmptyString)) as [Hd|Hd]; simpl.
  - split.
    + intros [Heq _]. congruence.
    + intros [Heq _]. congruence.
  - done.
Qed.

Section Walk.
Context {W Dir : Type}.
Variable cli : Client W Dir.

Lemma call_calls {A} c (op : W → W * (Error + A)) st st' r :
  call c op st = (st', r) → calls st' = calls st ++ [c].
Proof. unfold call. destruct (op (world st)) as [w x]. by intros [= <- _]. Qed.

(** A property of the calls that a loop adds holds when it holds of the
    calls that each turn adds. *)
Lemma forEach_calls {A} (Q : Call → Prop) (f : A → M W unit) l :
  (∀ x st st' r, x ∈ l → f x st = (st', r) →
     ∃ new, calls st' = calls st ++ new ∧ Forall Q new) →
  ∀ st st' r, forEach l f st = (st', r) →
     ∃ new, calls st' = calls st ++ new ∧ Forall Q new.
Proof.
  induction l as [|x l IH]; intros Hf st st' r; simpl.
  - intros [= <- _]. exists []. by rewrite app_nil_r.
  - intros H. apply bind_inv in H as [(st1 & [] & H1 & H2)|[(e & H1 & _)|[H1 _]]].
    + apply Hf in H1 as (n1 & E1 & F1); [|left].
      apply IH in H2 as (n2 & E2 & F2); [|intros; eapply Hf; [by right|done]].
      exists (n1 ++ n2). rewrite E2, E1, app_assoc. split; [done|by apply Forall_app].
    + eapply Hf; [left|done].
    + eapply Hf; [left|done].
Qed.

(** No step of [copyEntry] deletes anything. *)
Lemma copyEntry_no_delete fuel dstDir e st st' r :
  copyEntry cli fuel dstDir e st = (st', r) →
  ∃ new, calls st' = calls st ++ new ∧ Forall (λ c, isDelete c = false) new.
Proof.
  revert dstDir e st st' r. induction fuel as [|fuel IH]; intros dstDir e st st' r; simpl.
  { intros [= <- _]. exists []. by rewrite app_nil_r. }
  assert (Hnil : ∀ (x : Res unit), (st, x) = (st', r) →
    ∃ new, calls st' = calls st ++ new ∧ Forall (λ c, isDelete c = false) new).
  { intros x [= <- _]. exists []. by rewrite app_nil_r. }
  destruct (Parse (Name e)) as [err|srcPath]; [apply Hnil|].
  destruct (Nat.eqb _ _); [apply Hnil|].
  destruct (HasPrefix _ _); [apply Hnil|].
  destruct (IsDir e).
  - intros H.
    apply bind_inv in H as [(s1 & d1 & H1 & H)|[(e1 & H1 & _)|[H1 _]]];
      [|apply call_calls in H1; exists [CMakeDirectory (Join dstDir (Elem srcPath (NElem srcPath - 1)))];
        split; [done|by constructor]..].
    apply call_calls in H1.
    apply bind_inv in H as [(s2 & d2 & H2 & H)|[(e2 & H2 & _)|[H2 _]]];
      [|apply call_calls in H2; eexists [_; _]; rewrite H2, H1, <- app_assoc;
        split; [done|by repeat constructor]..].
    apply call_calls in H2.
    apply bind_inv in H as [(s3 & [des oe] & H3 & H)|[(e3 & H3 & _)|[H3 _]]];
      [|unfold dirGlob in H3; apply call_calls in H3; eexists [_; _; _]; rewrite H3, H2, H1, <- !app_assoc;
        split; [done|by repeat constructor]..].
    unfold dirGlob in H3. apply call_calls in H3.
    assert (Hloop : ∀ s r', forEach des (copyEntry cli fuel (Join dstDir (Elem srcPath (NElem srcPath - 1)))) s = (st', r') →
      ∃ new, calls st' = calls s ++ new ∧ Forall (λ c, isDelete c = false) new).
    { intros s r'. apply forEach_calls. intros x sa sb rb _. apply IH. }
    assert (Hfin : ∀ new, calls st' = calls s3 ++ new → Forall (λ c, isDelete c = false) new →
      ∃ new, calls st' = calls st ++ new ∧ Forall (λ c, isDelete c = false) new).
    { intros new Hn Fn. eexists (_ :: _ :: _ :: new).
      rewrite Hn, H3, H2, H1, <- !app_assoc. split; [done|by repeat constructor]. }
    destruct oe as [err|].
    + case_bool_decide.
      * apply Hloop in H as (new & Hn & Fn). by eapply Hfin.
      * injection H as <- _. apply (Hfin []); [by rewrite app_nil_r|constructor].
    + apply Hloop in H as (new & Hn & Fn). by eapply Hfin.
  - destruct (IsLink e); intros H.
    + apply bind_inv in H as [(s1 & d1 & H1 & H)|[(e1 & H1 & _)|[H1 _]]];
        apply call_calls in H1; [injection H as <- _|..]; eexists [_]; (split; [done|by constructor]).
    + apply bind_inv in H as [(s1 & d1 & H1 & H)|[(e1 & H1 & _)|[H1 _]]];
        apply call_calls in H1; [injection H as <- _|..]; eexists [_]; (split; [done|by constructor]).
Qed.

(** The guards of [copyEntry], for an entry that is not a root. *)
Lemma copyEntry_dispatch fuel dstDir e srcPath st :
  Parse (Name e) = inr srcPath →
  NElem srcPath ≠ 0 →
  HasPrefix (parsedOrZero dstDir) srcPath = false →
  copyEntry cli (S fuel) dstDir e st =
    let dst := copyName dstDir srcPath in
    (if IsDir e then
       _ <- cliMakeDirectory cli dst ;;
       dir <- cliDirServer cli (Name e) ;;
       r <- dirGlob cli dir (AllFilesGlob (Name e)) ;;
       match r with
       | (des, Some err) =>
           if bool_decide (err = ErrFollowLink)
           then forEach des (copyEntry cli fuel dst)
           else raise err
       | (des, None) => forEach des (copyEntry cli fuel dst)
       end
     else if IsLink e then _ <- cliPutLink cli (Link e) dst ;; ret tt
     else _ <- cliPutDuplicate cli (Name e) dst ;; ret tt) st.
Proof.
  intros HP Hn Hpre. simpl. rewrite HP.
  destruct (Nat.eqb_spec (NElem srcPath) 0) as [|_]; [done|].
  unfold parsedOrZero in Hpre. by rewrite Hpre.
Qed.

Lemma copyEntry_root fuel dstDir e srcPath st :
  Parse (Name e) = inr srcPath →
  NElem srcPath = 0 →
  copyEntry cli (S fuel) dstDir e st =
    (st, Raise (E (Name e) Other "cannot copy a root")).
Proof. intros HP Hn. simpl. by rewrite HP, Hn. Qed.

Lemma copyEntry_into_itself fuel dstDir e srcPath st :
  Parse (Name e) = inr srcPath →
  NElem srcPath ≠ 0 →
  HasPrefix (parsedOrZero dstDir) srcPath = true →
  copyEntry cli (S fuel) dstDir e st =
    (st, Raise (E (Name e) Other
                  "cannot copy a directory into one of its sub-directories")).
Proof.
  intros HP Hn Hpre. simpl. rewrite HP.
  destruct (Nat.eqb_spec (NElem srcPath) 0) as [|_]; [done|].
  unfold parsedOrZero in Hpre. by rewrite Hpre.
Qed.

(** [copy] is the check of the destination followed by the loop. *)
Lemma copy_unfold fuel dst srcs st :
  copy cli fuel dst srcs st =
  let '(w, r) := Lookup cli dst true (world st) in
  let st1 := MkState w (calls st ++ [CLookup dst true]) in
  match r with
  | inl e => (st1, Raise e)
  | inr d =>
    if IsDir d then forEach srcs (copySource cli fuel dst) st1
    else (st1, Raise (E dst NotDir EmptyString))
  end.
Proof.
  unfold copy, bind, cliLookup, call.
  destruct (Lookup cli dst true (world st)) as [w [e|d]]; [done|].
  by destruct (IsDir d).
Qed.

End Walk.

(** ** The destination check of [copy] *)

(** C10: [copy] with no source makes the one lookup of the destination
    and no other call; it gives the lookup's error when the destination
    does not resolve, [NotDir] when it resolves to an entry that is not a
    directory, and nil otherwise. *)
Theorem copy_no_sources {W Dir} (cli : Client W Dir) fuel dst st :
  copy cli fuel dst [] st =
  let '(w, r) := Lookup cli dst true (world st) in
  (MkState w (calls st ++ [CLookup dst true]),
   match r with
   | inl e => Raise e
   | inr d => if IsDir d then Val tt else Raise (E dst NotDir EmptyString)
   end).
Proof.
  rewrite copy_unfold. destruct (Lookup cli dst true (world st)) as [w [e|d]]; [done|].
  by destruct (IsDir d).
Qed.

(** C8: when the lookup of the destination fails with a [NotExist] error,
    [copy] returns that error; when it gives an entry that is not a
    directory, [copy] returns a [NotDir] error naming the destination; in
    both cases the lookup of the destination is the only call made, so no
    source is looked up or copied. *)
Theorem copy_destination_checked {W Dir} (cli : Client W Dir) fuel dst srcs st :
  (∀ w e, Lookup cli dst true (world st) = (w, inl e) → kindOf e = NotExist →
     copy cli fuel dst srcs st
       = (MkState w (calls st ++ [CLookup dst true]), Raise e))
  ∧ (∀ w d, Lookup cli dst true (world st) = (w, inr d) → IsDir d = false →
     copy cli fuel dst srcs st
       = (MkState w (calls st ++ [CLookup dst true]), Raise (E dst NotDir EmptyString))
     ∧ kindOf (E dst NotDir EmptyString) = NotDir).
Proof.
  split.
  - intros w e HL _. rewrite copy_unfold. by rewrite HL.
  - intros w d HL Hd. rewrite copy_unfold. by rewrite HL, Hd.
Qed.

(** ** Removing a name that is absent *)

(** C9: when the lookup of the name fails with a [NotExist] error, [rm]
    returns that error, and so does the loop over the names of a request
    that starts with it; the lookup is the only call made, so nothing is
    created, deleted or changed. *)
Theorem rm_absent {W Dir} (cli : Client W Dir) fuel name rest st w e :
  Lookup cli name false (world st) = (w, inl e) →
  kindOf e = NotExist →
  rm cli fuel name st = (MkState w (calls st ++ [CLookup name false]), Raise e)
  ∧ rmAll cli fuel (name :: rest) st
    = (MkState w (calls st ++ [CLookup name false]), Raise e)
  ∧ Forall (λ c, mutating c = false) [CLookup name false].
Proof.
  intros HL _.
  assert (Hrm : rm cli fuel name st
    = (MkState w (calls st ++ [CLookup name false]), Raise e)).
  { unfold rm, bind, cliLookup, call. by rewrite HL. }
  split; [done|]. split; [|by repeat constructor].
  unfold rmAll. simpl. by apply bind_raise.
Qed.

(** ** The guards of [copyEntry] *)

(** C4, as the code has it: when the first source resolves to a root,
    [copy] fails for every destination and creates nothing: with the
    error of the destination check when the destination does not resolve
    or is not a directory, and otherwise with an error of kind [Other]
    that names the root and reads "cannot copy a root". *)
Theorem copy_root_fails {W Dir} (cli : Client W Dir) fuel dst src rest st w1 r1 w2 e srcPath :
  Lookup cli dst true (world st) = (w1, r1) →
  Lookup cli src false w1 = (w2, inr e) →
  Parse (Name e) = inr srcPath →
  NElem srcPath = 0 →
  copy cli (S fuel) dst (src :: rest) st =
    match r1 with
    | inl err => (MkState w1 (calls st ++ [CLookup dst true]), Raise err)
    | inr d =>
      if IsDir d
      then (MkState w2 (calls st ++ [CLookup dst true; CLookup src false]),
            Raise (E (Name e) Other "cannot copy a root"))
      else (MkState w1 (calls st ++ [CLookup dst true]), Raise (E dst NotDir EmptyString))
    end.
Proof.
  intros HL1 HL2 HP Hn. rewrite copy_unfold, HL1.
  destruct r1 as [err|d]; [done|]. destruct (IsDir d); [|done].
  cbn [forEach]. unfold copySource.
  erewrite bind_raise; [done|].
  erewrite bind_val; [|unfold cliLookup, call; cbn [world calls]; by rewrite HL2].
  rewrite (copyEntry_root _ _ _ _ srcPath) by done.
  by rewrite <- app_assoc.
Qed.

(** C3, as the code has it: for an entry whose name parses, when the
    destination directory is the source or is below it, [copyEntry] makes
    no call and fails with an error of kind [Other] that names the source
    (the text is the one of the root check when the source is a root);
    when the destination is neither, and the source is not a root, the
    first call is the creation of the same-named entry in the destination
    directory. *)
Theorem copyEntry_into_own_subtree {W Dir} (cli : Client W Dir) fuel dstDir e srcPath st :
  Parse (Name e) = inr srcPath →
  (under (Name e) dstDir →
     ∃ text, copyEntry cli (S fuel) dstDir e st = (st, Raise (E (Name e) Other text))
       ∧ (text = "cannot copy a directory into one of its sub-directories"
          ∨ text = "cannot copy a root" ∧ NElem srcPath = 0))
  ∧ (¬ under (Name e) dstDir → NElem srcPath ≠ 0 →
     ∃ st' r rest, copyEntry cli (S fuel) dstDir e st = (st', r)
       ∧ calls st' = calls st ++ creation dstDir srcPath e :: rest).
Proof.
  intros HP. split.
  - intros Hu. apply (HasPrefix_under dstDir _ _ HP) in Hu.
    destruct (decide (NElem srcPath = 0)) as [Hn|Hn].
    + eexists. split; [by eapply copyEntry_root|by right].
    + eexists. split; [by eapply copyEntry_into_itself|by left].
  - intros Hu Hn.
    assert (Hpre : HasPrefix (parsedOrZero dstDir) srcPath = false).
    { destruct (HasPrefix _ _) eqn:Hh; [|done].
      by apply (HasPrefix_under dstDir _ _ HP) in Hh. }
    rewrite (copyEntry_dispatch _ _ _ _ srcPath) by done.
    unfold creation. cbn zeta. destruct (IsDir e).
    + destruct (bind _ _ st) as [st' r] eqn:H. exists st', r.
      apply bind_inv in H as [(s1 & d1 & H1 & H)|[(e1 & H1 & _)|[H1 _]]];
        [|apply call_calls in H1; by exists []..].
      apply call_calls in H1.
      assert (∃ new, calls st' = calls s1 ++ new) as [new Hnew].
      { apply bind_inv in H as [(s2 & d2 & H2 & H)|[(e2 & H2 & _)|[H2 _]]];
          [|apply call_calls in H2; by eexists..].
        apply call_calls in H2.
        apply bind_inv in H as [(s3 & [des oe] & H3 & H)|[(e3 & H3 & _)|[H3 _]]];
          [|unfold dirGlob in H3; apply call_calls in H3; eexists; by rewrite H3, H2, <- app_assoc..].
        unfold dirGlob in H3. apply call_calls in H3.
        assert (∃ new, calls st' = calls s3 ++ new) as [new Hnew].
        { assert (Hloop : ∀ r', forEach des (copyEntry cli fuel (copyName dstDir srcPath)) s3 = (st', r') →
            ∃ new, calls st' = calls s3 ++ new).
          { intros r' Hl. eapply (forEach_calls (λ _, True)) in Hl as (new & Hn' & _); [by eexists|].
            intros x sa sb rb _ Hx. apply copyEntry_no_delete in Hx as (n & Hn' & _).
            exists n. split; [done|]. by apply Forall_forall. }
          destruct oe as [err|]; [|by eapply Hloop].
          destruct (bool_decide (err = ErrFollowLink)); [by eapply Hloop|].
          injection H as <- _. exists []. by rewrite app_nil_r. }
        eexists. by rewrite Hnew, H3, H2, <- !app_assoc. }
      exists new. by rewrite Hnew, H1, <- app_assoc.
    + destruct (IsLink e).
      * destruct (bind _ _ st) as [st' r] eqn:H. exists st', r, [].
        apply bind_inv in H as [(s1 & d1 & H1 & H)|[(e1 & H1 & _)|[H1 _]]];
          apply call_calls in H1; [by injection H as <- _|done..].
      * destruct (bind _ _ st) as [st' r] eqn:H. exists st', r, [].
        apply bind_inv in H as [(s1 & d1 & H1 & H)|[(e1 & H1 & _)|[H1 _]]];
          apply call_calls in H1; [by injection H as <- _|done..].
Qed.

Lemma last_Elem (srcPath : Parsed) :
  NElem srcPath ≠ 0 →
  last (elems srcPath) = Some (Elem srcPath (NElem srcPath - 1)).
Proof.
  unfold NElem, Elem. destruct srcPath as [usr l]. simpl.
  induction l as [|x l IH] using rev_ind; [done|]. intros _.
  rewrite last_snoc, length_app. simpl.
  replace (length l + 1 - 1) with (length l) by lia.
  by rewrite app_nth2, Nat.sub_diag by lia.
Qed.

(** ** Links *)

(** C6: for a link entry that passes the guards, [copyEntry] makes one
    call: [PutLink] of the target that the entry carries, at the name in
    the destination directory whose last element is the last element of
    the source; the result is the result of that call.  The target is not
    looked up and [PutDuplicate] is not called. *)
Theorem copyEntry_link {W Dir} (cli : Client W Dir) fuel dstDir e srcPath st :
  Parse (Name e) = inr srcPath →
  NElem srcPath ≠ 0 →
  ¬ under (Name e) dstDir →
  IsLink e = true →
  ∃ x, last (pn_elems (Name e)) = Some x ∧
    copyEntry cli (S fuel) dstDir e st =
      let '(w, r) := PutLink cli (Link e) (Join dstDir x) (world st) in
      (MkState w (calls st ++ [CPutLink (Link e) (Join dstDir x)]),
       match r with inl err => Raise err | inr _ => Val tt end).
Proof.
  intros HP Hn Hu Hl. exists (Elem srcPath (NElem srcPath - 1)). split.
  { pose proof (last_Elem srcPath Hn) as Hlast.
    apply Parse_inr in HP as [_ ->]. done. }
  assert (Hpre : HasPrefix (parsedOrZero dstDir) srcPath = false).
  { destruct (HasPrefix _ _) eqn:Hh; [|done].
    by apply (HasPrefix_under dstDir _ _ HP) in Hh. }
  rewrite (copyEntry_dispatch _ _ _ _ srcPath) by done. cbn zeta.
  assert (IsDir e = false) as ->.
  { unfold IsLink, IsDir in *. by destruct (Attr e). }
  rewrite Hl. unfold bind, cliPutLink, call, copyName.
  by destruct (PutLink cli _ _ _) as [w [err|d]].
Qed.

(** ** The sentinel [ErrFollowLink] *)

(** In [copyEntry] the sentinel from [Glob] is not an error: the entries
    that came with it are copied. *)
Lemma copyEntry_follow_link {W Dir} (cli : Client W Dir) fuel dstDir e srcPath st
    w1 d1 w2 dir w3 des :
  Parse (Name e) = inr srcPath →
  NElem srcPath ≠ 0 →
  HasPrefix (parsedOrZero dstDir) srcPath = false →
  IsDir e = true →
  MakeDirectory cli (copyName dstDir srcPath) (world st) = (w1, inr d1) →
  DirServer cli (Name e) w1 = (w2, inr dir) →
  Glob cli dir (AllFilesGlob (Name e)) w2 = (w3, (des, Some ErrFollowLink)) →
  copyEntry cli (S fuel) dstDir e st =
    forEach des (copyEntry cli fuel (copyName dstDir srcPath))
      (MkState w3 (calls st ++ [CMakeDirectory (copyName dstDir srcPath);
                                 CDirServer (Name e); CGlob (AllFilesGlob (Name e))])).
Proof.
  intros HP Hn Hpre Hd H1 H2 H3.
  rewrite (copyEntry_dispatch _ _ _ _ srcPath) by done. cbn zeta. rewrite Hd.
  unfold bind, cliMakeDirectory, cliDirServer, dirGlob, call. cbn [world calls].
  rewrite H1. cbn [world calls]. rewrite H2. cbn [world calls]. rewrite H3.
  cbn [world calls]. rewrite bool_decide_eq_true_2 by done.
  by rewrite <- !app_assoc.
Qed.

(** In [rmEntry] every error from [Glob] is returned, the sentinel too:
    nothing is deleted. *)
Lemma rmEntry_follow_link {W Dir} (cli : Client W Dir) fuel de st w1 dir w2 des err :
  IsDir de = true →
  DirServer cli (Name de) (world st) = (w1, inr dir) →
  Glob cli dir (AllFilesGlob (Name de)) w1 = (w2, (des, Some err)) →
  rmEntry cli (S fuel) de st =
    (MkState w2 (calls st ++ [CDirServer (Name de); CGlob (AllFilesGlob (Name de))]),
     Raise err).
Proof.
  intros Hd H1 H2. simpl. rewrite Hd.
  unfold bind, cliDirServer, dirGlob, call. cbn [world calls].
  rewrite H1. cbn [world calls]. rewrite H2. cbn [world calls].
  by rewrite <- !app_assoc.
Qed.

(** ** The first error ends [copy] *)




(** ** Names and their prefixes *)

Module names.
Import mem.

Lemma under_extend dir name : under dir name ↔ ∃ s, name = extend dir s.
Proof.
  unfold under, extend. destruct dir as [ud ld], name as [un ln]. simpl. split.
  - intros [-> [s ->]]. by exists s.
  - intros [s [= -> ->]]. split; [done|]. by exists s.
Qed.

Lemma under_refl p : under p p.
Proof. split; done. Qed.

Lemma under_trans a b c : under a b → under b c → under a c.
Proof. intros [Hu1 Hp1] [Hu2 Hp2]. split; [congruence|by etrans]. Qed.

Lemma under_antisym a b : under a b → under b a → a = b.
Proof.
  destruct a as [ua la], b as [ub lb]. intros [Hu1 Hp1] [Hu2 Hp2]. simpl in *.
  f_equal; [done|]. by apply (anti_symm prefix).
Qed.

Lemma under_Join dir x : under dir (Join dir x).
Proof. split; [done|]. simpl. by apply prefix_app_r. Qed.

Lemma Join_ne dir x : Join dir x ≠ dir.
Proof.
  destruct dir as [ud ld]. unfold Join. simpl. intros [= H].
  apply (f_equal length) in H. rewrite length_app in H. simpl in H. lia.
Qed.

Lemma not_under_Join dir x : ¬ under (Join dir x) dir.
Proof. intros [_ H]. simpl in H. by apply prefix_snoc_not in H. Qed.

(** Below [dir] and not [dir]: below one of the names directly under it. *)
Lemma under_strict dir name :
  under dir name → name ≠ dir → ∃ x, under (Join dir x) name.
Proof.
  intros [s ->]%under_extend Hne. destruct s as [|x s].
  - destruct Hne. unfold extend. rewrite app_nil_r. by destruct dir.
  - exists x. apply under_extend. exists s. unfold extend, Join. simpl.
    by rewrite <- app_assoc.
Qed.

Lemma under_total a b c : under a c → under b c → under a b ∨ under b a.
Proof.
  intros [Hu1 Hp1] [Hu2 Hp2].
  destruct (prefix_weak_total _ _ _ Hp1 Hp2); [left|right]; (split; [congruence|done]).
Qed.

(** Two names directly under one directory have no name below both. *)
Lemma under_siblings dir x y name :
  under (Join dir x) name → under (Join dir y) name → x = y.
Proof.
  intros [_ [s1 H1]] [_ [s2 H2]]. simpl in *. rewrite H1 in H2.
  rewrite <- !app_assoc in H2. apply app_inv_head in H2. by injection H2.
Qed.

(** A name below [dir] and above a name that is below [Join dir x] is
    [dir] itself or is below [Join dir x]. *)
Lemma under_between dir x p q :
  under dir p → under p q → under (Join dir x) q → p = dir ∨ under (Join dir x) p.
Proof.
  intros Hdp Hpq Hxq. destruct (decide (p = dir)) as [|Hne]; [by left|right].
  destruct (under_strict _ _ Hdp Hne) as [y Hy].
  assert (y = x) as -> by (eapply under_siblings; [by eapply under_trans|done]).
  done.
Qed.

Lemma isChild_spec dir name : isChild dir name = true ↔ ∃ x, name = Join dir x.
Proof.
  unfold isChild, parentOf, Join. rewrite bool_decide_eq_true.
  destruct name as [un ln], dir as [ud ld]. simpl. split.
  - intros [Hne [= -> <-]].
    destruct ln as [|a ln _] using rev_ind; [done|].
    exists a. by rewrite removelast_last.
  - intros [x [= -> ->]]. split.
    + intros H. by apply app_eq_nil in H as [_ ?].
    + by rewrite removelast_last.
Qed.

Lemma parentOf_Join dir x : parentOf (Join dir x) = dir.
Proof. unfold parentOf, Join. simpl. rewrite removelast_last. by destruct dir. Qed.

Lemma Name_entryOf name n : Name (entryOf name n) = name.
Proof. by destruct n. Qed.

Lemma IsDir_entryOf name n : IsDir (entryOf name n) = bool_decide (n = NDir).
Proof. by destruct n. Qed.

End names.

(** ** The name space as a tree *)

Section NameSpaceFacts.
Import mem names.
Implicit Types (m : gmap PathName Node) (p dir name : PathName).

Lemma extend_snoc p s x : extend p (s ++ [x]) = Join (extend p s) x.
Proof. unfold extend, Join. simpl. by rewrite app_assoc. Qed.

Lemma extend_nil p : extend p [] = p.
Proof. unfold extend. rewrite app_nil_r. by destruct p. Qed.

Lemma wfNs_extend m p s n :
  wfNs m → m !! extend p s = Some n → s ≠ [] → m !! p = Some NDir.
Proof.
  intros Hwf. revert n. induction s as [|x s IH] using rev_ind; [done|].
  intros n Hm _. rewrite extend_snoc in Hm.
  assert (Hp : m !! parentOf (Join (extend p s) x) = Some NDir).
  { eapply Hwf; [done|]. simpl. intros H. by apply app_eq_nil in H as [_ ?]. }
  rewrite parentOf_Join in Hp. destruct s as [|y s].
  - by rewrite extend_nil in Hp.
  - eapply IH; [exact Hp|done].
Qed.

Lemma wfNs_under m dir p n :
  wfNs m → under dir p → p ≠ dir → m !! p = Some n → m !! dir = Some NDir.
Proof.
  intros Hwf [s ->]%under_extend Hne Hm. eapply wfNs_extend; [done..|].
  intros ->. by rewrite extend_nil in Hne.
Qed.

Lemma children_spec m dir d :
  d ∈ children m dir ↔ ∃ x n, m !! Join dir x = Some n ∧ d = entryOf (Join dir x) n.
Proof.
  unfold children. rewrite list_elem_of_fmap. split.
  - intros ([p n] & -> & [Hc Hin]%list_elem_of_filter). simpl in *.
    apply isChild_spec in Hc as [x ->]. apply elem_of_map_to_list in Hin. eauto.
  - intros (x & n & Hm & ->). exists (Join dir x, n). split; [done|].
    apply list_elem_of_filter. split.
    + simpl. apply isChild_spec. eauto.
    + by apply elem_of_map_to_list.
Qed.

Lemma children_NoDup m dir : NoDup (Name <$> children m dir).
Proof.
  unfold children. rewrite <- list_fmap_compose.
  rewrite (list_fmap_ext _ fst) by (intros i pn _; apply Name_entryOf).
  eapply sublist_NoDup; [apply (NoDup_fst_map_to_list m)|].
  apply fmap_sublist, sublist_filter.
Qed.

Lemma children_consistent m dir :
  Forall (λ d, isChild dir (Name d) = true ∧ consistent m d) (children m dir).
Proof.
  apply Forall_forall. intros d (x & n & Hm & ->)%children_spec.
  rewrite Name_entryOf. split; [apply isChild_spec; eauto|].
  exists n. by rewrite Name_entryOf.
Qed.

Lemma globIn_AllFiles m dir :
  m !! dir = Some NDir → globIn m (AllFilesGlob dir) = (children m dir, None).
Proof.
  intros Hm. unfold globIn, AllFilesGlob. simpl. rewrite rev_unit.
  fold (Join dir "*"). by rewrite parentOf_Join, Hm.
Qed.

Lemma postOrdered_app a b :
  postOrdered a → postOrdered b →
  (∀ p, CDelete p ∈ a → Forall (λ c, ¬ deletesBelow p c) b) →
  postOrdered (a ++ b).
Proof.
  induction a as [|c a IH]; intros Ha Hb Hab; [done|]. simpl in *.
  destruct Ha as [Hc Ha]. split.
  - destruct c; try done. apply Forall_app. split; [done|]. apply Hab. left.
  - apply IH; [done..|]. intros p Hp. apply Hab. by right.
Qed.

Lemma postOrdered_no_delete l :
  Forall (λ c, isDelete c = false) l → postOrdered l.
Proof.
  induction 1 as [|c l Hc _ IH]; [done|]. simpl. split; [|done]. by destruct c.
Qed.

End NameSpaceFacts.

(** ** Removing a tree of the name space in memory *)

Section RemoveFacts.
Import mem names.

Lemma rmLoop_mem fuel dir
  (IH : ∀ de w tr st' r, wfNs (ns w) → consistent (ns w) de →
        rmEntry client fuel de (MkState w tr) = (st', r) →
        rmPost fuel [Name de] w tr st' r) :
  ∀ l w tr st' r, wfNs (ns w) → NoDup (Name <$> l) →
    Forall (λ d, isChild dir (Name d) = true ∧ consistent (ns w) d) l →
    forEach l (rmEntry client fuel) (MkState w tr) = (st', r) →
    rmPost fuel (Name <$> l) w tr st' r.
Proof.
  induction l as [|d l IHl]; intros w tr st' r Hwf Hnd Hall Hrun.
  { simpl in Hrun. injection Hrun as <- <-. unfold rmPost; simpl.
    split; [done|]. split; [done|]. split; [by left|].
    split; [by intros _ d p Hd%elem_of_nil|].
    exists []. rewrite app_nil_r. by repeat split. }
  simpl in Hrun. inversion Hall as [|? ? [Hc Hcons] Hall']; subst.
  rewrite fmap_cons in Hnd. apply NoDup_cons in Hnd as [Hnotin Hnd'].
  assert (Hdisj : ∀ d' p, d' ∈ l → under (Name d) p → under (Name d') p → False).
  { intros d' p Hd' Hu Hu'. apply Hnotin.
    rewrite Forall_forall in Hall'. destruct (Hall' _ Hd') as [[y Hy]%isChild_spec _].
    apply isChild_spec in Hc as [x Hx]. rewrite Hx, Hy in *.
    assert (x = y) as -> by (eapply under_siblings; done).
    rewrite <- Hy. by apply list_elem_of_fmap_2. }
  apply bind_inv in Hrun as [(s1 & [] & H1 & H2)|[(e & H1 & ->)|[H1 ->]]].
  - destruct s1 as [w1 tr1].
    apply IH in H1 as (Hf1 & Hwf1 & Hfr1 & Hs1 & new1 & Hc1 & Hu1 & Hpo1 & _ & _);
      [|done..]. simpl in *.
    assert (Hkeep : ∀ d' p, d' ∈ l → under (Name d') p → ns w1 !! p = ns w !! p).
    { intros d' p Hd' Hu'. destruct (Hfr1 p) as [->|[_ (d0 & Hd0 & Hu0)]]; [done|].
      apply list_elem_of_singleton in Hd0 as ->. exfalso. by eapply Hdisj. }
    assert (Hall1 : Forall (λ d, isChild dir (Name d) = true ∧ consistent (ns w1) d) l).
    { apply Forall_forall. intros d' Hd'. rewrite Forall_forall in Hall'.
      destruct (Hall' _ Hd') as [Hc' (n & Hn & He)]. split; [done|].
      exists n. split; [|done]. rewrite (Hkeep d'); [done..|apply under_refl]. }
    apply IHl in H2 as (Hf2 & Hwf2 & Hfr2 & Hs2 & new2 & Hc2 & Hu2 & Hpo2 & Hfail2 & Hoof2);
      [|done..].
    split; [congruence|]. split; [done|]. split; [|split].
    + intros p. destruct (Hfr2 p) as [Hp|[Hp (d0 & Hd0 & Hu0)]].
      * rewrite Hp. destruct (Hfr1 p) as [->|[Hp1 (d0 & Hd0 & Hu0)]]; [by left|].
        right. split; [done|]. apply list_elem_of_singleton in Hd0 as ->.
        exists (Name d). split; [left|done].
      * right. split; [done|]. exists d0. split; [by right|done].
    + intros -> d0 p Hd0 Hu0. apply elem_of_cons in Hd0 as [->|Hd0].
      * destruct (Hfr2 p) as [->|[? _]]; [|done]. eapply Hs1; [done|left|done].
      * by eapply Hs2.
    + exists (new1 ++ new2). split; [by rewrite Hc2, Hc1, app_assoc|].
      split; [|split; [|split]].
      * apply Forall_app. split.
        -- eapply Forall_impl; [exact Hu1|]. intros c (d0 & Hd0%list_elem_of_singleton & Hu0).
           subst. exists (Name d). split; [left|done].
        -- eapply Forall_impl; [exact Hu2|]. intros c (d0 & Hd0 & Hu0 & Hs0).
           exists d0. split; [by right|]. split; [done|].
           destruct (Hfr1 (callPath c)) as [<-|[Hnone _]]; [done|].
           rewrite Hnone in Hs0. by destruct Hs0.
      * apply postOrdered_app; [done..|]. intros p Hp.
        rewrite Forall_forall in Hu1, Hu2. apply Forall_forall. intros c Hc0 Hbelow.
        destruct (Hu1 _ Hp) as (d0 & ->%list_elem_of_singleton & Hu0 & _).
        destruct (Hu2 _ Hc0) as (d2 & (d' & -> & Hd')%list_elem_of_fmap & Hu2' & _).
        destruct c; try done. simpl in *. destruct Hbelow as [Hb _].
        eapply Hdisj; [done| |done]. by eapply under_trans.
      * intros e He. destruct (Hfail2 e He) as (mid & c & d0 & -> & Hd0 & Hu0 & Hsame).
        exists (new1 ++ mid), c, d0. split; [by rewrite app_assoc|].
        split; [by right|]. split; [done|]. intros p Hup Hpc.
        rewrite Hsame by done. apply list_elem_of_fmap in Hd0 as (d' & -> & Hd').
        by eapply Hkeep.
      * intros Ho. destruct (Hoof2 Ho) as (p & n & d0 & Hd0 & Hp & Hup & Hlen).
        exists p, n, d0. split; [by right|]. split; [|done].
        apply list_elem_of_fmap in Hd0 as (d' & -> & Hd').
        by rewrite <- (Hkeep d').
  - apply IH in H1 as (Hf1 & Hwf1 & Hfr1 & _ & new1 & Hc1 & Hu1 & Hpo1 & Hfail1 & _);
      [|done..].
    split; [done|]. split; [done|]. split; [|split; [done|]].
    + intros p. destruct (Hfr1 p) as [->|[Hp1 (d0 & ->%list_elem_of_singleton & Hu0)]];
        [by left|]. right. split; [done|]. exists (Name d). split; [left|done].
    + exists new1. split; [done|]. split; [|split; [done|split; [|done]]].
      * eapply Forall_impl; [exact Hu1|]. intros c (d0 & Hd0%list_elem_of_singleton & Hu0).
        subst. exists (Name d). split; [left|done].
      * intros e' He'. destruct (Hfail1 e' He') as (mid & c & d0 & -> & ->%list_elem_of_singleton & Hu0 & Hsame).
        exists mid, c, (Name d). split; [done|]. split; [left|done].
  - apply IH in H1 as (Hf1 & Hwf1 & Hfr1 & _ & new1 & Hc1 & Hu1 & Hpo1 & _ & Hoof1);
      [|done..].
    split; [done|]. split; [done|]. split; [|split; [done|]].
    + intros p. destruct (Hfr1 p) as [->|[Hp1 (d0 & ->%list_elem_of_singleton & Hu0)]];
        [by left|]. right. split; [done|]. exists (Name d). split; [left|done].
    + exists new1. split; [done|]. split; [|split; [done|split; [done|]]].
      * eapply Forall_impl; [exact Hu1|]. intros c (d0 & Hd0%list_elem_of_singleton & Hu0).
        subst. exists (Name d). split; [left|done].
      * intros _. destruct (Hoof1 eq_refl) as (p & n & d0 & ->%list_elem_of_singleton & Hp & Hup & Hlen).
        exists p, n, (Name d). split; [left|done].
Qed.

Lemma rmEntry_unfold {W Dir} (cli : Client W Dir) fuel de :
  rmEntry cli (S fuel) de =
    if IsDir de then
      dir <- cliDirServer cli (Name de) ;;
      r <- dirGlob cli dir (AllFilesGlob (Name de)) ;;
      match r with
      | (_, Some err) => raise err
      | (des, None) => forEach des (rmEntry cli fuel) ;;; cliDelete cli (Name de)
      end
    else cliDelete cli (Name de).
Proof. done. Qed.

(** The calls of the in-memory client, as steps of the monad. *)
Lemma cliDirServer_mem name w tr :
  cliDirServer client name (MkState w tr) =
    (MkState w (tr ++ [CDirServer name]),
     match faults w (CDirServer name) with Some e => Raise e | None => Val tt end).
Proof.
  unfold cliDirServer, call, client, memDirServer, guarded. simpl.
  by destruct (faults w (CDirServer name)).
Qed.

Lemma dirGlob_mem name w tr :
  ns w !! name = Some NDir →
  dirGlob client tt (AllFilesGlob name) (MkState w tr) =
    (MkState w (tr ++ [CGlob (AllFilesGlob name)]),
     Val match faults w (CGlob (AllFilesGlob name)) with
         | Some ErrFollowLink => (children (ns w) name, Some ErrFollowLink)
         | Some e => ([], Some e)
         | None => (children (ns w) name, None)
         end).
Proof.
  intros Hm. unfold dirGlob, call, client, memGlob. simpl.
  rewrite (globIn_AllFiles _ _ Hm).
  by destruct (faults w (CGlob (AllFilesGlob name))) as [[]|].
Qed.

Lemma cliDelete_mem name w tr :
  cliDelete client name (MkState w tr) =
    match faults w (CDelete name) with
    | Some e => (MkState w (tr ++ [CDelete name]), Raise e)
    | None =>
      match ns w !! name with
      | Some _ => (MkState (setNs w (delete name (ns w))) (tr ++ [CDelete name]), Val tt)
      | None => (MkState w (tr ++ [CDelete name]), Raise (E name NotExist EmptyString))
      end
    end.
Proof.
  unfold cliDelete, call, client, memDelete. simpl.
  destruct (faults w (CDelete name)); [done|]. by destruct (ns w !! name).
Qed.

(** Removing an entry with nothing below it keeps the tree a tree. *)
Lemma wfNs_delete m name :
  wfNs m → (∀ p, under name p → p ≠ name → m !! p = None) → wfNs (delete name m).
Proof.
  intros Hwf Hnone p n Hp Hne.
  apply lookup_delete_Some in Hp as [Hpn Hp].
  rewrite lookup_delete_ne; [by eapply Hwf|].
  intros ->. 
  assert (Hc : isChild (parentOf p) p = true) by (by apply bool_decide_eq_true).
  apply isChild_spec in Hc as [x Hx].
  rewrite Hnone in Hp; [done| |done].
  rewrite Hx at 2. apply under_Join.
Qed.

(** A removal that fails before any [Delete]. *)
Lemma rmPost_unchanged fuel name w tr mid c e :
  wfNs (ns w) → is_Some (ns w !! name) →
  Forall (λ c, isDelete c = false ∧ callPath c = name) (mid ++ [c]) →
  rmPost fuel [name] w tr (MkState w (tr ++ mid ++ [c])) (Raise e).
Proof.
  intros Hwf Hsome Hall. split; [done|]. split; [done|]. split; [by left|]. split; [done|].
  exists (mid ++ [c]). split; [done|]. split; [|split; [|split; [|done]]].
  - eapply Forall_impl; [exact Hall|]. intros c' [_ Hc']. exists name.
    split; [left|]. rewrite Hc'. split; [apply under_refl|done].
  - apply postOrdered_no_delete. eapply Forall_impl; [exact Hall|]. by intros c' [? _].
  - intros e' _. exists mid, c, name. split; [done|]. split; [left|].
    apply Forall_app in Hall as [_ Hc]. apply Forall_singleton in Hc as [_ ->].
    split; [apply under_refl|done].
Qed.

Lemma children_names m dir d :
  d ∈ Name <$> children m dir ↔ ∃ x, d = Join dir x ∧ is_Some (m !! d).
Proof.
  rewrite list_elem_of_fmap. split.
  - intros (de & -> & (x & n & Hm & ->)%children_spec). rewrite Name_entryOf. eauto.
  - intros (x & -> & [n Hn]). exists (entryOf (Join dir x) n).
    rewrite Name_entryOf. split; [done|]. apply children_spec. eauto.
Qed.

(** The last step of [rmEntry]: the [Delete] of the entry itself, once
    nothing is left below it. *)
Lemma rmEntry_final fuel name w tr w1 mid st' r :
  faults w1 = faults w → wfNs (ns w1) → is_Some (ns w !! name) →
  (∀ p, ns w1 !! p = ns w !! p ∨ (ns w1 !! p = None ∧ under name p ∧ p ≠ name)) →
  (∀ p, under name p → p ≠ name → ns w1 !! p = None) →
  Forall (λ c, under name (callPath c) ∧ is_Some (ns w !! callPath c)) mid →
  postOrdered mid →
  cliDelete client name (MkState w1 (tr ++ mid)) = (st', r) →
  rmPost fuel [name] w tr st' r
  ∧ (r = Val tt → ∃ mid', calls st' = tr ++ mid' ++ [CDelete name]).
Proof.
  intros Hf Hwf [n Hn] Hfr Hnone Hmid Hpo Hrun.
  assert (Hname : ns w1 !! name = Some n).
  { destruct (Hfr name) as [->|(_ & _ & ?)]; done. }
  assert (Hpo' : postOrdered (mid ++ [CDelete name])).
  { apply postOrdered_app; [done|simpl; by repeat constructor|].
    intros p Hp. apply Forall_singleton. simpl. intros [Hu Hne].
    rewrite Forall_forall in Hmid. apply Hmid in Hp as [Hp _]. simpl in Hp.
    apply Hne. by apply under_antisym. }
  assert (Hall : Forall (λ c, ∃ d, d ∈ [name] ∧ under d (callPath c)
                              ∧ is_Some (ns w !! callPath c)) (mid ++ [CDelete name])).
  { apply Forall_app. split.
    - eapply Forall_impl; [exact Hmid|]. intros c Hc. exists name. split; [left|done].
    - apply Forall_singleton. exists name. split; [left|]. simpl.
      split; [apply under_refl|by eexists]. }
  rewrite cliDelete_mem in Hrun. destruct (faults w1 (CDelete name)) as [e|].
  - injection Hrun as <- <-. split; [|done].
    split; [done|]. split; [done|]. split; [|split; [done|]].
    + intros p. destruct (Hfr p) as [?|(? & ? & _)]; [by left|right].
      split; [done|]. exists name. split; [left|done].
    + exists (mid ++ [CDelete name]). simpl. rewrite <- app_assoc.
      split; [done|]. split; [done|]. split; [done|]. split; [|done].
      intros e' _. exists mid, (CDelete name), name. split; [done|]. split; [left|].
      split; [apply under_refl|]. simpl. intros p Hp1 Hp2.
      assert (p = name) as -> by (by apply under_antisym). congruence.
  - rewrite Hname in Hrun. injection Hrun as <- <-. split.
    + split; [done|]. split; [by apply wfNs_delete|]. simpl. split; [|split].
      * intros p. destruct (decide (p = name)) as [->|Hne].
        -- right. rewrite lookup_delete_eq. split; [done|]. exists name.
           split; [left|apply under_refl].
        -- rewrite lookup_delete_ne by done.
           destruct (Hfr p) as [?|(? & ? & _)]; [by left|right].
           split; [done|]. exists name. split; [left|done].
      * intros _ d p ->%list_elem_of_singleton Hp.
        destruct (decide (p = name)) as [->|Hne]; [by rewrite lookup_delete_eq|].
        rewrite lookup_delete_ne by done. by apply Hnone.
      * exists (mid ++ [CDelete name]). rewrite <- app_assoc. by repeat split.
    + intros _. exists mid. simpl. by rewrite <- app_assoc.
Qed.

Lemma rmEntry_mem fuel :
  ∀ de w tr st' r, wfNs (ns w) → consistent (ns w) de →
    rmEntry client fuel de (MkState w tr) = (st', r) →
    rmPost fuel [Name de] w tr st' r
    ∧ (r = Val tt → ∃ mid, calls st' = tr ++ mid ++ [CDelete (Name de)]).
Proof.
  induction fuel as [|fuel IH]; intros de w tr st' r Hwf (n & Hn & He) Hrun.
  { simpl in Hrun. injection Hrun as <- <-. split; [|done].
    split; [done|]. split; [done|]. split; [by left|]. split; [done|].
    exists []. rewrite app_nil_r. split; [done|]. split; [constructor|].
    split; [done|]. split; [done|].
    intros _. exists (Name de), n, (Name de). split; [left|]. split; [done|].
    split; [apply under_refl|lia]. }
  rewrite rmEntry_unfold in Hrun. rewrite He, IsDir_entryOf in Hrun.
  rewrite Name_entryOf in *. set (name := Name de) in *. clearbody name.
  destruct (bool_decide_reflect (n = NDir)) as [->|Hnd].
  - apply bind_inv in Hrun as [(s1 & [] & H1 & H2)|[(e & H1 & ->)|[H1 ->]]];
      rewrite cliDirServer_mem in H1; destruct (faults w (CDirServer name)) as [e1|] eqn:F1;
      try done.
    + injection H1 as <-.
      apply bind_inv in H2 as [(s2 & [des oe] & H1 & H2)|[(e & H1 & ->)|[H1 ->]]];
        rewrite dirGlob_mem in H1 by done; [|done..].
      injection H1 as <- Hglob.
      assert (Hearly : ∀ e, (MkState w ((tr ++ [CDirServer name]) ++ [CGlob (AllFilesGlob name)]), Raise e) = (st', r) →
        rmPost (S fuel) [name] w tr st' r
        ∧ (r = Val tt → ∃ mid, calls st' = tr ++ mid ++ [CDelete name])).
      { intros e [= <- <-]. split; [|done]. rewrite <- app_assoc.
        apply (rmPost_unchanged _ _ _ _ [CDirServer name]); [done|by eexists|].
        repeat constructor. unfold AllFilesGlob. simpl. by rewrite parentOf_Join. }
      destruct (faults w (CGlob (AllFilesGlob name))) as [[|nm k t]|];
        injection Hglob as <- <-; [by eapply Hearly..|].
      assert (Hchild : ∀ d, d ∈ Name <$> children (ns w) name → under name d ∧ d ≠ name).
      { intros d (x & -> & _)%children_names. split; [apply under_Join|apply Join_ne]. }
      assert (Hloop : ∀ sL rL,
        forEach (children (ns w) name) (rmEntry client fuel)
          (MkState w ((tr ++ [CDirServer name]) ++ [CGlob (AllFilesGlob name)])) = (sL, rL) →
        rmPost fuel (Name <$> children (ns w) name) w
          ((tr ++ [CDirServer name]) ++ [CGlob (AllFilesGlob name)]) sL rL).
      { intros sL rL. apply (rmLoop_mem fuel name); [|done|apply children_NoDup|apply children_consistent].
        intros. by eapply IH. }
      assert (Hpre : Forall (λ c, ∃ d, d ∈ [name] ∧ under d (callPath c)
                                  ∧ is_Some (ns w !! callPath c))
                [CDirServer name; CGlob (AllFilesGlob name)]).
      { repeat constructor; exists name; (split; [left|]); simpl;
          [|unfold AllFilesGlob; rewrite parentOf_Join];
          (split; [apply under_refl|by eexists]). }
      apply bind_inv in H2 as [(sL & [] & HL & HD)|[(e & HL & ->)|[HL ->]]];
        apply Hloop in HL as (Hf & HwfL & Hfr & Hs & new & Hc & Hu & Hpo & Hfail & Hoof).
      * destruct sL as [wL trL]. simpl in *. subst trL.
        rewrite <- !app_assoc in HD. simpl in HD.
        change (tr ++ CDirServer name :: CGlob (AllFilesGlob name) :: new)
          with (tr ++ ([CDirServer name; CGlob (AllFilesGlob name)] ++ new)) in HD.
        eapply rmEntry_final in HD; [exact HD|done|done|by eexists|..].
        -- intros p. destruct (Hfr p) as [?|(? & d & Hd & Hud)]; [by left|right].
           split; [done|]. destruct (Hchild _ Hd) as [Hu1 Hne]. split; [by eapply under_trans|].
           intros ->. apply Hne. by apply under_antisym.
        -- intros p Hp Hne. destruct (under_strict _ _ Hp Hne) as [x Hx].
           destruct (ns w !! p) as [n|] eqn:Hpn.
           ++ assert (is_Some (ns w !! Join name x)) as Hsome.
              { destruct (decide (p = Join name x)) as [->|Hne']; [by eexists|].
                rewrite (wfNs_under _ _ _ _ Hwf Hx Hne' Hpn). by eexists. }
              eapply (Hs eq_refl (Join name x)); [|done].
              apply children_names. eauto.
           ++ destruct (Hfr p) as [?|[? _]]; congruence.
        -- apply Forall_app. split.
           ++ eapply Forall_impl; [exact Hpre|]. by intros c (d & ->%list_elem_of_singleton & ?).
           ++ eapply Forall_impl; [exact Hu|]. intros c (d & Hd & Hud & Hsc).
              destruct (Hchild _ Hd) as [Hu1 _]. split; [by eapply under_trans|done].
        -- apply postOrdered_app; [simpl; done|done|].
           intros p Hp. apply elem_of_cons in Hp as [?|Hp]; [done|].
           apply list_elem_of_singleton in Hp. done.
      * split; [|done]. split; [done|]. split; [done|]. split; [|split; [done|]].
        -- intros p. destruct (Hfr p) as [?|(? & d & Hd & Hud)]; [by left|right].
           split; [done|]. exists name. split; [left|].
           destruct (Hchild _ Hd) as [Hu1 _]. by eapply under_trans.
        -- exists ([CDirServer name; CGlob (AllFilesGlob name)] ++ new).
           split; [by rewrite Hc, <- !app_assoc|]. split; [|split; [|split; [|done]]].
           ++ apply Forall_app. split; [done|].
              eapply Forall_impl; [exact Hu|]. intros c (d & Hd & Hud & Hsc).
              destruct (Hchild _ Hd) as [Hu1 _]. exists name.
              split; [left|]. split; [by eapply under_trans|done].
           ++ apply postOrdered_app; [simpl; done|done|].
              intros p Hp. apply elem_of_cons in Hp as [?|Hp]; [done|].
              apply list_elem_of_singleton in Hp. done.
           ++ intros e' He'. destruct (Hfail e' He') as (mid & c & d & -> & Hd & Hud & Hsame).
              exists ([CDirServer name; CGlob (AllFilesGlob name)] ++ mid), c, name.
              split; [by rewrite <- !app_assoc|]. split; [left|].
              destruct (Hchild _ Hd) as [Hu1 Hne]. split; [by eapply under_trans|].
              intros p Hp1 Hp2. apply children_names in Hd as (x & -> & _).
              destruct (under_between _ _ _ _ Hp1 Hp2 Hud) as [->|Hp3]; [|by apply Hsame].
              destruct (Hfr name) as [?|(_ & d' & Hd' & Hud')]; [done|].
              destruct (Hchild _ Hd') as [Hu2 Hne2]. destruct Hne2. by apply under_antisym.
      * split; [|done]. split; [done|]. split; [done|]. split; [|split; [done|]].
        -- intros p. destruct (Hfr p) as [?|(? & d & Hd & Hud)]; [by left|right].
           split; [done|]. exists name. split; [left|].
           destruct (Hchild _ Hd) as [Hu1 _]. by eapply under_trans.
        -- exists ([CDirServer name; CGlob (AllFilesGlob name)] ++ new).
           split; [by rewrite Hc, <- !app_assoc|]. split; [|split; [|split; [done|]]].
           ++ apply Forall_app. split; [done|].
              eapply Forall_impl; [exact Hu|]. intros c (d & Hd & Hud & Hsc).
              destruct (Hchild _ Hd) as [Hu1 _]. exists name.
              split; [left|]. split; [by eapply under_trans|done].
           ++ apply postOrdered_app; [simpl; done|done|].
              intros p Hp. apply elem_of_cons in Hp as [?|Hp]; [done|].
              apply list_elem_of_singleton in Hp. done.
           ++ intros _. destruct (Hoof eq_refl) as (p & n & d & Hd & Hp & Hud & Hlen).
              exists p, n, name. split; [left|]. split; [done|].
              apply children_names in Hd as (x & -> & _).
              split; [eapply under_trans; [apply under_Join|done]|].
              simpl in Hlen. rewrite length_app in Hlen. simpl in Hlen. lia.
    + injection H1 as <- <-. split; [|done].
      apply (rmPost_unchanged _ _ _ _ []); [done|by eexists|]. by repeat constructor.
  - rewrite <- (app_nil_r tr) in Hrun.
    eapply rmEntry_final in Hrun; [|done|done|by eexists|by left| |constructor|done].
    + exact Hrun.
    + intros p Hp Hne. destruct (ns w !! p) as [n'|] eqn:Hpn; [|done].
      rewrite (wfNs_under _ _ _ _ Hwf Hp Hne Hpn) in Hn. by injection Hn as <-.
Qed.

End RemoveFacts.

(** ** Delete is post-order *)

Section RemoveTop.
Import mem names.

Lemma cliLookup_mem name follow w tr :
  cliLookup client name follow (MkState w tr) =
    (MkState w (tr ++ [CLookup name follow]),
     match faults w (CLookup name follow) with
     | Some e => Raise e
     | None =>
       match lookupIn MaxLinkHops (ns w) name follow with
       | inl e => Raise e
       | inr d => Val d
       end
     end).
Proof.
  unfold cliLookup, call, client, memLookup, guarded. cbn [Lookup world calls].
  destruct (faults w (CLookup name follow)); [done|].
  by destruct (lookupIn _ _ _ _).
Qed.

Lemma memLookup_world name follow w : (memLookup name follow w).1 = w.
Proof. unfold memLookup, guarded. by destruct (faults w _). Qed.

Lemma lookupIn_hit hops m name n :
  m !! name = Some n → lookupIn hops m name false = inr (entryOf name n).
Proof. intros Hm. destruct hops; simpl; rewrite Hm; by destruct n. Qed.

End RemoveTop.

(** C2: on the name space in memory, whose [Delete] removes the entry
    named whatever is below it and where the service may refuse any call.
    [rm] of a name that exists, in a name space that is a tree: once a
    name has been the argument of [Delete], no name below it is (children
    before parents, for every directory); when [rm] returns nil the last
    call is the [Delete] of the name itself and nothing at or below the
    name is left; when [rm] returns an error, the error is the one of the
    last call, and every entry from the name down to the name of that
    call is present and as it was; what is left is a tree in all cases;
    and [rm] answers when the fuel exceeds the depth of the tree below
    the name. *)
Theorem rm_post_order fuel w tr name n st' r :
  wfNs (mem.ns w) →
  mem.ns w !! name = Some n →
  rm mem.client fuel name (MkState w tr) = (st', r) →
  ∃ new, calls st' = tr ++ new ∧ postOrdered new ∧
    wfNs (mem.ns (world st')) ∧
    (r = Val tt →
       (∃ mid, new = mid ++ [CDelete name]) ∧
       ∀ p, under name p → mem.ns (world st') !! p = None) ∧
    (∀ e, r = Raise e →
       ∃ mid c, new = mid ++ [c] ∧ under name (callPath c) ∧
         ∀ p, under name p → under p (callPath c) →
           is_Some (mem.ns w !! p) ∧ mem.ns (world st') !! p = mem.ns w !! p) ∧
    (r = OutOfFuel →
       ∃ p, is_Some (mem.ns w !! p) ∧ under name p ∧
         (length (pn_elems name) + fuel ≤ length (pn_elems p))%nat).
Proof.
  intros Hwf Hn Hrun. unfold rm in Hrun.
  apply bind_inv in Hrun as [(s1 & de & H1 & H2)|[(e & H1 & ->)|[H1 ->]]];
    rewrite cliLookup_mem in H1; destruct (mem.faults w (CLookup name false)) as [e1|];
    try done; try (rewrite (lookupIn_hit _ _ _ _ Hn) in H1; try done).
  - injection H1 as <- <-.
    apply rmEntry_mem in H2 as [(Hf & Hwf' & Hfr & Hs & new & Hc & Hu & Hpo & Hfail & Hoof) Hlast];
      [|done|exists n; by rewrite names.Name_entryOf].
    rewrite names.Name_entryOf in *.
    exists (CLookup name false :: new). split; [by rewrite Hc, <- app_assoc|].
    split; [done|]. split; [done|]. split; [|split].
    + intros ->. split.
      * destruct (Hlast eq_refl) as [mid Hmid]. rewrite Hc in Hmid.
        apply app_inv_head in Hmid.
        exists (CLookup name false :: mid). simpl. congruence.
      * intros p Hp. eapply Hs; [done|left|done].
    + intros e He. destruct (Hfail e He) as (mid & c & d & -> & ->%list_elem_of_singleton & Hud & Hsame).
      exists (CLookup name false :: mid), c. split; [done|]. split; [done|].
      intros p Hp1 Hp2. split; [|by apply Hsame].
      apply Forall_app in Hu as [_ Hu]. apply Forall_singleton in Hu as (_ & _ & _ & [nc Hnc]).
      destruct (decide (p = callPath c)) as [->|Hne]; [by eexists|].
      rewrite (wfNs_under _ _ _ _ Hwf Hp2) by done. by eexists.
    + intros Ho. destruct (Hoof Ho) as (p & n' & d & ->%list_elem_of_singleton & Hp & Hup & Hlen).
      exists p. split; [by eexists|done].
  - injection H1 as <- <-. exists [CLookup name false]. split; [done|].
    split; [simpl; done|]. split; [done|]. split; [done|]. split; [|done].
    intros e _. exists [], (CLookup name false). split; [done|].
    split; [apply names.under_refl|]. simpl. intros p Hp1 Hp2.
    assert (p = name) as -> by (by apply names.under_antisym). split; [by eexists|done].
Qed.

(** Deleting /a when the service refuses to delete /a/b/c: the error is
    returned and /a/b and /a are still there. *)
Lemma rm_post_order_witness :
  let w := mem.MkWorld examples.chain
             (examples.refusing (CDelete (examples.u ["a"; "b"; "c"]))
                (E (examples.u ["a"; "b"; "c"]) Permission EmptyString)) in
  let out := rm mem.client 4 (examples.u ["a"]) (MkState w []) in
  out.2 = Raise (E (examples.u ["a"; "b"; "c"]) Permission EmptyString)
  ∧ mem.ns (world out.1) !! examples.u ["a"; "b"] = Some mem.NDir
  ∧ mem.ns (world out.1) !! examples.u ["a"] = Some mem.NDir
  ∧ ∃ new, calls out.1 = [] ++ new ∧ postOrdered new ∧
    wfNs (mem.ns (world out.1)) ∧
    (out.2 = Val tt →
       (∃ mid, new = mid ++ [CDelete (examples.u ["a"])]) ∧
       ∀ p, under (examples.u ["a"]) p → mem.ns (world out.1) !! p = None) ∧
    (∀ e, out.2 = Raise e →
       ∃ mid c, new = mid ++ [c] ∧ under (examples.u ["a"]) (callPath c) ∧
         ∀ p, under (examples.u ["a"]) p → under p (callPath c) →
           is_Some (mem.ns w !! p) ∧ mem.ns (world out.1) !! p = mem.ns w !! p) ∧
    (out.2 = OutOfFuel →
       ∃ p, is_Some (mem.ns w !! p) ∧ under (examples.u ["a"]) p ∧
         (length (pn_elems (examples.u ["a"])) + 4 ≤ length (pn_elems p))%nat).
Proof.
  intros w out. split; [by vm_compute|]. split; [by vm_compute|].
  split; [by vm_compute|].
  apply (rm_post_order 4 w [] (examples.u ["a"]) mem.NDir out.1 out.2).
  - refine (@bool_decide_unpack (wfNs _) (wfNs_dec _) _). by vm_compute.
  - by vm_compute.
  - apply surjective_pairing.
Defined.

(** ** Copying a tree of the name space in memory *)

Section CopyFacts.
Import mem names.

Lemma preOrdered_app a b :
  preOrdered a → preOrdered b →
  (∀ c, c ∈ a → mutating c = true → Forall (λ c', ¬ createsAbove (callPath c) c') b) →
  preOrdered (a ++ b).
Proof.
  induction a as [|c a IH]; intros Ha Hb Hab; [done|]. simpl in *.
  destruct Ha as [Hc Ha]. split.
  - intros Hm. apply Forall_app. split; [by apply Hc|]. apply Hab; [left|done].
  - apply IH; [done..|]. intros c' Hc'. apply Hab. by right.
Qed.

Lemma preOrdered_no_mutation l :
  Forall (λ c, mutating c = false) l → preOrdered l.
Proof.
  induction 1 as [|c l Hc _ IH]; [done|]. simpl. split; [|done]. by rewrite Hc.
Qed.

Lemma parentOf_ne name : pn_elems name ≠ [] → parentOf name ≠ name.
Proof.
  intros Hne. assert (Hc : isChild (parentOf name) name = true)
    by (by apply bool_decide_eq_true).
  apply isChild_spec in Hc as [x Hx]. rewrite Hx at 2. intros H.
  by apply (Join_ne (parentOf name) x).
Qed.

(** Putting an entry in a directory, at a name that is not a directory,
    keeps the tree a tree. *)
Lemma wfNs_insert m name n :
  wfNs m → (pn_elems name ≠ [] → m !! parentOf name = Some NDir) →
  m !! name ≠ Some NDir → wfNs (<[name := n]> m).
Proof.
  intros Hwf Hpar Hnd p n' Hp Hne.
  destruct (decide (p = name)) as [->|Hpn].
  - rewrite lookup_insert_ne; [by apply Hpar|]. intros H. by apply (parentOf_ne name).
  - rewrite lookup_insert_ne in Hp by done.
    rewrite lookup_insert_ne; [by eapply Hwf|].
    intros H. apply Hnd. rewrite H. by eapply Hwf.
Qed.

Lemma putNode_inv name n w w1 r1 :
  putNode name n w = (w1, r1) →
  (w1 = w ∧ ∃ e, r1 = inl e)
  ∨ (r1 = inr (entryOf name n) ∧ w1 = setNs w (<[name := n]> (ns w))
     ∧ ns w !! name ≠ Some NDir ∧ ns w !! parentOf name = Some NDir).
Proof.
  unfold putNode. destruct (pn_elems name); [intros [= <- <-]; eauto|].
  destruct (ns w !! name) as [[]|] eqn:Hn;
    try (intros [= <- <-]; eauto);
    destruct (ns w !! parentOf name) as [[]|]; intros [= <- <-]; eauto;
    right; repeat split; congruence.
Qed.

(** The guards of [copyEntry] in terms of names. *)
Lemma target_Join dstDir src x :
  pn_user src ≠ EmptyString → target dstDir (Join src x) = Join dstDir x.
Proof.
  intros Hu. unfold target, parsedOrZero, Parse, copyName. simpl.
  rewrite bool_decide_eq_false_2 by done. unfold Elem, NElem. simpl.
  rewrite length_app. simpl. replace (length (pn_elems src) + 1 - 1) with (length (pn_elems src)) by lia.
  by rewrite app_nth2, Nat.sub_diag by lia.
Qed.

Lemma under_Join_inv a b x : under a (Join b x) → a = Join b x ∨ under a b.
Proof.
  destruct a as [ua la], b as [ub lb]. unfold under, Join. simpl.
  intros [-> [s Hs]]. destruct s as [|y s _] using rev_ind.
  - left. rewrite app_nil_r in Hs. by subst.
  - right. split; [done|]. rewrite app_assoc in Hs.
    apply app_inj_tail in Hs as [-> _]. by exists s.
Qed.

(** A target that was not there has nothing in common with the tree of a
    source that is there, unless the destination is in that tree. *)
Lemma target_disjoint m src dstDir x :
  wfNs m → is_Some (m !! src) → m !! Join dstDir x = None → ¬ under src dstDir →
  ∀ p, under src p → ¬ under (Join dstDir x) p.
Proof.
  intros Hwf [n Hn] Ht Hnu p Hsp Htp.
  destruct (under_total _ _ _ Htp Hsp) as [Hts|Hst].
  - destruct (decide (src = Join dstDir x)) as [->|Hne]; [congruence|].
    rewrite (wfNs_under _ _ _ _ Hwf Hts Hne Hn) in Ht. done.
  - apply under_Join_inv in Hst as [->|Hst]; [congruence|done].
Qed.

Lemma extend_cons p x s : extend p (x :: s) = extend (Join p x) s.
Proof. unfold extend, Join. simpl. by rewrite <- app_assoc. Qed.

Lemma under_extend_r p s : under p (extend p s).
Proof. apply under_extend. by exists s. Qed.

(** The calls that put an entry, on the name space in memory. *)
Lemma cliMakeDirectory_inv t w tr s1 r1 :
  pn_elems t ≠ [] →
  cliMakeDirectory client t (MkState w tr) = (s1, r1) →
  calls s1 = tr ++ [CMakeDirectory t] ∧
  ((world s1 = w ∧ ∃ e, r1 = Raise e)
   ∨ ((∃ d, r1 = Val d) ∧ world s1 = setNs w (<[t := NDir]> (ns w))
      ∧ ns w !! t = None ∧ ns w !! parentOf t = Some NDir)).
Proof.
  intros Hne. unfold cliMakeDirectory, call, client, memMakeDirectory, guarded.
  cbn [MakeDirectory world calls].
  destruct (faults w (CMakeDirectory t)) as [e|]; [intros [= <- <-]; eauto|].
  destruct (ns w !! t) as [n|] eqn:Ht; [intros [= <- <-]; eauto|].
  destruct (pn_elems t) as [|y l] eqn:Hl; [done|].
  destruct (putNode t NDir w) as [w1 x1] eqn:Hput.
  apply putNode_inv in Hput as [[-> [e ->]]|(-> & -> & _ & Hpar)]; intros [= <- <-];
    (split; [done|]); eauto 10.
Qed.

Lemma cliPutLink_inv tgt t w tr s1 r1 :
  cliPutLink client tgt t (MkState w tr) = (s1, r1) →
  calls s1 = tr ++ [CPutLink tgt t] ∧
  ((world s1 = w ∧ ∃ e, r1 = Raise e)
   ∨ ((∃ d, r1 = Val d) ∧ world s1 = setNs w (<[t := NLink tgt]> (ns w))
      ∧ ns w !! t ≠ Some NDir ∧ ns w !! parentOf t = Some NDir)).
Proof.
  unfold cliPutLink, call, client, memPutLink, guarded. cbn [PutLink world calls].
  destruct (faults w (CPutLink tgt t)) as [e|]; [intros [= <- <-]; eauto|].
  destruct (putNode t (NLink tgt) w) as [w1 x1] eqn:Hput.
  apply putNode_inv in Hput as [[-> [e ->]]|(-> & -> & Hnd & Hpar)]; intros [= <- <-];
    (split; [done|]); eauto 10.
Qed.

Lemma lookupIn_file hops m name b follow :
  m !! name = Some (NFile b) →
  lookupIn hops m name follow = inr (entryOf name (NFile b)).
Proof. intros Hm. destruct hops; simpl; by rewrite Hm. Qed.

Lemma cliPutDuplicate_inv src b t w tr s1 r1 :
  ns w !! src = Some (NFile b) →
  cliPutDuplicate client src t (MkState w tr) = (s1, r1) →
  calls s1 = tr ++ [CPutDuplicate src t] ∧
  ((world s1 = w ∧ ∃ e, r1 = Raise e)
   ∨ ((∃ d, r1 = Val d) ∧ world s1 = setNs w (<[t := NFile b]> (ns w))
      ∧ ns w !! t ≠ Some NDir ∧ ns w !! parentOf t = Some NDir)).
Proof.
  intros Hsrc.
  unfold cliPutDuplicate, call, client, memPutDuplicate, guarded.
  cbn [PutDuplicate world calls].
  destruct (faults w (CPutDuplicate src t)) as [e|]; [intros [= <- <-]; eauto|].
  rewrite (lookupIn_file _ _ _ _ _ Hsrc). cbn [IsDir entryOf Attr Blocks].
  destruct (putNode t (NFile b) w) as [w1 x1] eqn:Hput.
  apply putNode_inv in Hput as [[-> [e ->]]|(-> & -> & Hnd & Hpar)]; intros [= <- <-];
    (split; [done|]); eauto 10.
Qed.

(** A copy that has changed nothing. *)
Lemma copyPost_same fuel roots w tr new e :
  wfNs (ns w) →
  Forall (λ c, mutating c = true → ∃ sd, sd ∈ roots ∧ under sd.2 (callPath c)) new →
  preOrdered new →
  copyPost fuel roots w tr (MkState w (tr ++ new)) (Raise e).
Proof.
  intros Hwf Hall Hpo. split; [done|]. split; [done|]. split; [by left|].
  split; [done|]. exists new. by repeat split.
Qed.

(** The copy of an entry that is not a directory: one call that puts the
    same entry at the target. *)
Lemma copyPost_single fuel src t n w tr c s1 (r1 : Res DirEntry) :
  wfNs (ns w) → ns w !! src = Some n → n ≠ NDir →
  mutating c = true → callPath c = t →
  calls s1 = tr ++ [c] →
  ((world s1 = w ∧ ∃ e, r1 = Raise e)
   ∨ ((∃ d, r1 = Val d) ∧ world s1 = setNs w (<[t := n]> (ns w))
      ∧ ns w !! t ≠ Some NDir ∧ ns w !! parentOf t = Some NDir)) →
  copyPost fuel [(src, t)] w tr s1
    (match r1 with Val _ => Val tt | Raise e => Raise e | OutOfFuel => OutOfFuel end).
Proof.
  intros Hwf Hsrc Hn Hmut Hpath Hcalls Hres.
  assert (Hall : Forall (λ c, mutating c = true →
            ∃ sd, sd ∈ [(src, t)] ∧ under sd.2 (callPath c)) [c]).
  { apply Forall_singleton. intros _. exists (src, t). split; [left|].
    rewrite Hpath. apply under_refl. }
  assert (Hpo : preOrdered [c]) by (simpl; split; [by constructor|done]).
  destruct s1 as [w1 tr1]. simpl in *. subst tr1.
  destruct Hres as [[-> [e ->]]|([d ->] & -> & Hnd & Hpar)].
  - by apply copyPost_same.
  - split; [done|]. split; [by apply wfNs_insert|]. simpl. split; [|split].
    + intros p. destruct (decide (p = t)) as [->|Hne].
      * right. exists (src, t). split; [left|apply under_refl].
      * left. by rewrite lookup_insert_ne.
    + intros _ sd s n' ->%list_elem_of_singleton Hs. simpl in *.
      destruct s as [|y s].
      * rewrite extend_nil in *. rewrite lookup_insert_eq. congruence.
      * assert (ns w !! src = Some NDir) by (by eapply wfNs_extend). congruence.
    + exists [c]. by repeat split.
Qed.

(** The loop of [copyEntry] over the entries directly under [src], which
    are copied into [t]. *)
Lemma copyLoop_mem fuel src t
  (IH : ∀ e w tr st' r, wfNs (ns w) → consistent (ns w) e →
        copyEntry client fuel t e (MkState w tr) = (st', r) →
        copyPost fuel [(Name e, target t (Name e))] w tr st' r) :
  pn_user src ≠ EmptyString →
  (∀ p, under src p → ¬ under t p) →
  ∀ l w tr st' r, wfNs (ns w) → NoDup (Name <$> l) →
    Forall (λ d, isChild src (Name d) = true ∧ consistent (ns w) d) l →
    forEach l (copyEntry client fuel t) (MkState w tr) = (st', r) →
    copyPost fuel ((λ d, (Name d, target t (Name d))) <$> l) w tr st' r.
Proof.
  intros Hu Hdis.
  induction l as [|d l IHl]; intros w tr st' r Hwf Hnd Hall Hrun.
  { simpl in Hrun. injection Hrun as <- <-. unfold copyPost; simpl.
    split; [done|]. split; [done|]. split; [by left|].
    split; [by intros _ sd s n Hd%elem_of_nil|].
    exists []. rewrite app_nil_r. by repeat split. }
  simpl in Hrun. inversion Hall as [|? ? [Hc Hcons] Hall']; subst.
  rewrite fmap_cons in Hnd. apply NoDup_cons in Hnd as [Hnotin Hnd'].
  apply isChild_spec in Hc as [x Hx].
  assert (Ht : target t (Name d) = Join t x) by (rewrite Hx; by apply target_Join).
  assert (Htl : ∀ d', d' ∈ l → ∃ y, Name d' = Join src y ∧ target t (Name d') = Join t y ∧ y ≠ x).
  { intros d' Hd'. rewrite Forall_forall in Hall'.
    destruct (Hall' _ Hd') as [[y Hy]%isChild_spec _]. exists y.
    split; [done|]. split; [rewrite Hy; by apply target_Join|].
    intros ->. apply Hnotin. rewrite Hx, <- Hy. by apply list_elem_of_fmap_2. }
  assert (Hdisj : ∀ sd p, sd ∈ (λ d, (Name d, target t (Name d))) <$> l →
            under (Join t x) p → under sd.2 p → False).
  { intros sd p (d' & -> & Hd')%list_elem_of_fmap H1 H2. simpl in H2.
    destruct (Htl _ Hd') as (y & _ & Hty & Hne). rewrite Hty in H2.
    apply Hne. symmetry. by eapply under_siblings. }
  rewrite fmap_cons. cbn beta. rewrite Ht.
  assert (Hhead : ∀ (P : PathName * PathName → Prop),
            (∃ sd, sd ∈ [(Name d, target t (Name d))] ∧ P sd) → P (Name d, Join t x)).
  { intros P (sd & ->%list_elem_of_singleton & HP). by rewrite <- Ht. }
  apply bind_inv in Hrun as [(s1 & [] & H1 & H2)|[(e & H1 & ->)|[H1 ->]]].
  - destruct s1 as [w1 tr1].
    apply IH in H1 as (Hf1 & Hwf1 & Hfr1 & Hs1 & new1 & Hc1 & Hu1 & Hpo1 & _); [|done..].
    simpl in *.
    assert (Hkeep : ∀ p, under src p → ns w1 !! p = ns w !! p).
    { intros p Hp. destruct (Hfr1 p) as [->|Hr]; [done|].
      apply (Hhead (λ sd, under sd.2 p)) in Hr. simpl in Hr.
      destruct (Hdis p Hp). eapply under_trans; [apply under_Join|done]. }
    assert (Hall1 : Forall (λ d, isChild src (Name d) = true ∧ consistent (ns w1) d) l).
    { apply Forall_forall. intros d' Hd'. rewrite Forall_forall in Hall'.
      destruct (Hall' _ Hd') as [Hc' (n & Hn & He)]. split; [done|].
      exists n. split; [|done]. rewrite Hkeep; [done|].
      apply isChild_spec in Hc' as [y ->]. apply under_Join. }
    apply IHl in H2 as (Hf2 & Hwf2 & Hfr2 & Hs2 & new2 & Hc2 & Hu2 & Hpo2 & Hoof2); [|done..].
    split; [congruence|]. split; [done|]. split; [|split].
    + intros p. destruct (Hfr2 p) as [Hp|(sd & Hsd & Hud)].
      * rewrite Hp. destruct (Hfr1 p) as [->|Hr]; [by left|].
        apply (Hhead (λ sd, under sd.2 p)) in Hr. right. eexists. split; [left|done].
      * right. exists sd. split; [by right|done].
    + intros -> sd s n Hsd Hn. apply elem_of_cons in Hsd as [->|Hsd].
      * simpl in *. rewrite <- Ht. rewrite <- Ht in Hdisj.
        assert (Hn1 : ns w1 !! extend (target t (Name d)) s = Some n).
        { eapply (Hs1 eq_refl (Name d, target t (Name d))); [left|done]. }
        destruct (Hfr2 (extend (target t (Name d)) s)) as [->|(sd & Hsd & Hud)]; [done|].
        destruct (Hdisj sd _ Hsd (under_extend_r _ _) Hud).
      * apply Hs2; [done..|]. rewrite Hkeep; [done|].
        apply list_elem_of_fmap in Hsd as (d' & -> & Hd'). simpl.
        destruct (Htl _ Hd') as (y & -> & _).
        eapply under_trans; [apply under_Join|apply under_extend_r].
    + exists (new1 ++ new2). split; [by rewrite Hc2, Hc1, app_assoc|].
      split; [|split].
      * apply Forall_app. split.
        -- eapply Forall_impl; [exact Hu1|]. intros c Hc Hm.
           apply (Hhead (λ sd, under sd.2 (callPath c))) in Hc; [|done].
           eexists. split; [left|done].
        -- eapply Forall_impl; [exact Hu2|]. intros c Hc Hm.
           destruct (Hc Hm) as (sd & Hsd & Hud). exists sd. split; [by right|done].
      * apply preOrdered_app; [done..|]. intros c Hc Hm.
        rewrite Forall_forall in Hu1, Hu2. apply Forall_forall. intros c' Hc' Habove.
        pose proof (Hhead (λ sd, under sd.2 (callPath c)) (Hu1 _ Hc Hm)) as Hcu. simpl in Hcu.
        destruct c'; try done. simpl in Habove. destruct Habove as [Hab _].
        destruct (Hu2 _ Hc' eq_refl) as (sd & Hsd & Hud). simpl in Hud.
        eapply Hdisj; [done|done|]. by eapply under_trans.
      * intros Ho. destruct (Hoof2 Ho) as (p & sd & Hsd & Hp & Hup & Hlen).
        exists p, sd. split; [by right|]. split; [|done].
        rewrite <- Hkeep; [done|].
        apply list_elem_of_fmap in Hsd as (d' & -> & Hd'). simpl in Hup.
        destruct (Htl _ Hd') as (y & Hy & _). rewrite Hy in Hup.
        eapply under_trans; [apply under_Join|done].
  - apply IH in H1 as (Hf1 & Hwf1 & Hfr1 & _ & new1 & Hc1 & Hu1 & Hpo1 & _); [|done..].
    split; [done|]. split; [done|]. split; [|split; [done|]].
    + intros p. destruct (Hfr1 p) as [->|Hr]; [by left|].
      apply (Hhead (λ sd, under sd.2 p)) in Hr. right. eexists. split; [left|done].
    + exists new1. split; [done|]. split; [|split; [done|done]].
      eapply Forall_impl; [exact Hu1|]. intros c Hc Hm.
      apply (Hhead (λ sd, under sd.2 (callPath c))) in Hc; [|done].
      eexists. split; [left|done].
  - apply IH in H1 as (Hf1 & Hwf1 & Hfr1 & _ & new1 & Hc1 & Hu1 & Hpo1 & Hoof1); [|done..].
    split; [done|]. split; [done|]. split; [|split; [done|]].
    + intros p. destruct (Hfr1 p) as [->|Hr]; [by left|].
      apply (Hhead (λ sd, under sd.2 p)) in Hr. right. eexists. split; [left|done].
    + exists new1. split; [done|]. split; [|split; [done|]].
      * eapply Forall_impl; [exact Hu1|]. intros c Hc Hm.
        apply (Hhead (λ sd, under sd.2 (callPath c))) in Hc; [|done].
        eexists. split; [left|done].
      * intros _. destruct (Hoof1 eq_refl) as (p & sd & ->%list_elem_of_singleton & Hp & Hup & Hlen).
        exists p. eexists. split; [left|]. done.
Qed.

(** The copy of a directory, once the directory has been made at the
    target: what the loop over its entries did is what the copy did. *)
Lemma copyPost_directory fuel src dstDir x w tr pre roots sL rL :
  let t := Join dstDir x in
  let w1 := setNs w (<[t := NDir]> (ns w)) in
  wfNs (ns w) → ns w !! src = Some NDir → ns w !! t = None →
  ¬ under src dstDir →
  Forall (λ c, mutating c = false) pre →
  copyPost fuel roots w1 ((tr ++ [CMakeDirectory t]) ++ pre) sL rL →
  (∀ sd, sd ∈ roots → ∃ y, sd = (Join src y, Join t y)) →
  (rL = Val tt → ∀ y, is_Some (ns w !! Join src y) → (Join src y, Join t y) ∈ roots) →
  copyPost (S fuel) [(src, t)] w tr sL rL.
Proof.
  intros t w1 Hwf Hsrc Ht Hnu Hpre (Hf & HwfL & Hfr & Hs & new & Hc & Hu & Hpo & Hoof)
    Hroots Hcover.
  assert (Hdis : ∀ p, under src p → ¬ under t p).
  { by apply (target_disjoint (ns w)). }
  assert (Hne : ∀ p, under src p → p ≠ t).
  { intros p Hp ->. apply (Hdis t Hp), under_refl. }
  assert (Hin : ∀ sd p, sd ∈ roots → under sd.2 p → under t p).
  { intros sd p Hsd Hp. destruct (Hroots _ Hsd) as [y ->]. simpl in Hp.
    eapply under_trans; [apply under_Join|done]. }
  split; [done|]. split; [done|]. split; [|split].
  - intros p. destruct (Hfr p) as [Hp|(sd & Hsd & Hud)].
    + destruct (decide (p = t)) as [->|Hpt].
      * right. exists (src, t). split; [left|apply under_refl].
      * left. rewrite Hp. simpl. by rewrite lookup_insert_ne.
    + right. exists (src, t). split; [left|]. by eapply Hin.
  - intros -> sd s n ->%list_elem_of_singleton Hn. simpl in *.
    destruct s as [|y s].
    + rewrite extend_nil in *. assert (n = NDir) as -> by congruence.
      destruct (Hfr t) as [->|(sd & Hsd & Hud)]; [simpl; by rewrite lookup_insert_eq|].
      destruct (Hroots _ Hsd) as [y ->]. simpl in Hud. by apply not_under_Join in Hud.
    + rewrite extend_cons in *.
      assert (Hy : is_Some (ns w !! Join src y)).
      { destruct s as [|z s]; [rewrite extend_nil in Hn; by eexists|].
        erewrite wfNs_extend; [by eexists|done|exact Hn|done]. }
      apply (Hs eq_refl (Join src y, Join t y)); [by apply Hcover|].
      simpl. rewrite lookup_insert_ne; [done|].
      intros Heq. eapply (Hne (extend (Join src y) s)); [|done].
      eapply under_trans; [apply under_Join|apply under_extend_r].
  - exists ([CMakeDirectory t] ++ pre ++ new).
    split; [by rewrite Hc, <- !app_assoc|]. split; [|split].
    + apply Forall_app. split; [|apply Forall_app; split].
      * apply Forall_singleton. intros _. exists (src, t). split; [left|apply under_refl].
      * eapply Forall_impl; [exact Hpre|]. intros c Hc0 Hm. congruence.
      * eapply Forall_impl; [exact Hu|]. intros c Hc0 Hm.
        destruct (Hc0 Hm) as (sd & Hsd & Hud). exists (src, t). split; [left|].
        by eapply Hin.
    + simpl. split.
      * intros _. apply Forall_app. split.
        -- eapply Forall_impl; [exact Hpre|]. intros c Hc0 Hab. by destruct c.
        -- rewrite Forall_forall in Hu. apply Forall_forall. intros c Hc0 Hab.
           destruct c; try done. simpl in Hab. destruct Hab as [Hab Hneq].
           destruct (Hu _ Hc0 eq_refl) as (sd & Hsd & Hud).
           destruct (Hroots _ Hsd) as [y ->]. simpl in Hud.
           eapply (not_under_Join t y). by eapply under_trans.
      * apply preOrdered_app; [by apply preOrdered_no_mutation|done|].
        intros c Hc0 Hm. rewrite Forall_forall in Hpre. rewrite (Hpre _ Hc0) in Hm. done.
    + intros Ho. destruct (Hoof Ho) as (p & sd & Hsd & Hp & Hup & Hlen).
      destruct (Hroots _ Hsd) as [y ->]. simpl in *.
      assert (Hsp : under src p) by (eapply under_trans; [apply under_Join|done]).
      exists p, (src, t). split; [left|]. simpl. split; [|split; [done|]].
      * rewrite lookup_insert_ne in Hp; [done|]. intros Heq. by apply (Hne p).
      * rewrite length_app in Hlen. simpl in Hlen. lia.
Qed.

Lemma bind_ret_tt {W A} (m : M W A) st :
  bind m (λ _, ret tt) st =
    ((m st).1, match (m st).2 with
               | Val _ => Val tt | Raise e => Raise e | OutOfFuel => OutOfFuel
               end).
Proof. unfold bind, ret. by destruct (m st) as [s1 [a|e|]]. Qed.

Lemma copyEntry_mem fuel :
  ∀ dstDir e w tr st' r, wfNs (ns w) → consistent (ns w) e →
    copyEntry client fuel dstDir e (MkState w tr) = (st', r) →
    copyPost fuel [(Name e, target dstDir (Name e))] w tr st' r.
Proof.
  induction fuel as [|fuel IH]; intros dstDir e w tr st' r Hwf (n & Hn & He) Hrun.
  { simpl in Hrun. injection Hrun as <- <-.
    split; [done|]. split; [done|]. split; [by left|]. split; [done|].
    exists []. rewrite app_nil_r. split; [done|]. split; [constructor|]. split; [done|].
    intros _. exists (Name e), (Name e, target dstDir (Name e)). split; [left|].
    simpl. split; [by eexists|]. split; [apply under_refl|lia]. }
  assert (Hraise : ∀ err, (MkState w tr, Raise err) = (st', r) →
            copyPost (S fuel) [(Name e, target dstDir (Name e))] w tr st' r).
  { intros err [= <- <-]. rewrite <- (app_nil_r tr) at 2.
    apply copyPost_same; [done|constructor|done]. }
  destruct (Parse (Name e)) as [err|srcPath] eqn:HP.
  { simpl in Hrun. rewrite HP in Hrun. by eapply Hraise. }
  destruct (decide (NElem srcPath = 0)) as [Hz|Hz].
  { rewrite (copyEntry_root _ _ _ _ srcPath) in Hrun by done. by eapply Hraise. }
  destruct (HasPrefix (parsedOrZero dstDir) srcPath) eqn:Hpre.
  { rewrite (copyEntry_into_itself _ _ _ _ srcPath) in Hrun by done. by eapply Hraise. }
  rewrite (copyEntry_dispatch _ _ _ _ srcPath) in Hrun by done. cbn zeta in Hrun.
  clear Hraise.
  assert (Hnu : ¬ under (Name e) dstDir).
  { intros H. apply (HasPrefix_under dstDir _ _ HP) in H. congruence. }
  assert (Htgt : target dstDir (Name e) = copyName dstDir srcPath).
  { unfold target, parsedOrZero. by rewrite HP. }
  rewrite Htgt. unfold copyName in *.
  set (x := Elem srcPath (NElem srcPath - 1)) in *. clearbody x.
  set (t := Join dstDir x) in *.
  assert (Hux : pn_user (Name e) ≠ EmptyString) by (by apply Parse_inr in HP as [? _]).
  assert (HisDir : IsDir e = bool_decide (n = NDir)) by (rewrite He; apply IsDir_entryOf).
  assert (Htne : pn_elems t ≠ []).
  { simpl. intros H. by apply app_eq_nil in H as [_ ?]. }
  assert (Hpar : parentOf t = dstDir) by apply parentOf_Join.
  rewrite HisDir in Hrun. destruct n as [|tgt|b].
  - rewrite bool_decide_eq_true_2 in Hrun by done.
    apply bind_inv in Hrun as [(s1 & d1 & H1 & H2)|[(e1 & H1 & ->)|[H1 ->]]];
      apply cliMakeDirectory_inv in H1 as [Hc1 Hres1]; try done.
    + destruct Hres1 as [[_ [? ?]]|(_ & Hw1 & Ht & Hp)]; [done|].
      destruct s1 as [w1 tr1]. simpl in Hc1, Hw1. subst w1 tr1.
      assert (Hsrc1 : <[t := NDir]> (ns w) !! Name e = Some NDir).
      { rewrite lookup_insert_ne; [done|]. intros Heq. congruence. }
      assert (Hwf1 : wfNs (<[t := NDir]> (ns w))).
      { apply wfNs_insert; [done|by intros _|congruence]. }
      assert (Hnil : ∀ tr' err,
        copyPost fuel [] (setNs w (<[t := NDir]> (ns w))) tr'
          (MkState (setNs w (<[t := NDir]> (ns w))) tr') (Raise err)).
      { intros tr' err. rewrite <- (app_nil_r tr') at 2.
        apply copyPost_same; [done|constructor|done]. }
      apply bind_inv in H2 as [(s2 & [] & H1 & H2)|[(e1 & H1 & ->)|[H1 ->]]];
        rewrite cliDirServer_mem in H1; cbn [setNs faults] in H1;
        destruct (faults w (CDirServer (Name e))) as [eD|]; try done.
      * injection H1 as <-.
        apply bind_inv in H2 as [(s3 & [des oe] & H1 & H2)|[(e1 & H1 & ->)|[H1 ->]]];
          rewrite dirGlob_mem in H1 by done; [|done..].
        cbn [setNs faults ns] in H1. injection H1 as <- Hglob.
        rewrite <- (app_assoc _ [CDirServer (Name e)] [CGlob (AllFilesGlob (Name e))]) in H2.
        assert (Hloop : ∀ sL rL,
          forEach (children (<[t := NDir]> (ns w)) (Name e)) (copyEntry client fuel t)
            (MkState (setNs w (<[t := NDir]> (ns w)))
               ((tr ++ [CMakeDirectory t]) ++
                [CDirServer (Name e)] ++ [CGlob (AllFilesGlob (Name e))])) = (sL, rL) →
          copyPost (S fuel) [(Name e, t)] w tr sL rL).
        { intros sL rL HL.
          eapply (copyLoop_mem fuel (Name e) t) in HL;
            [|intros; by eapply IH|done|by eapply (target_disjoint (ns w))|done
             |apply children_NoDup|apply children_consistent].
          eapply copyPost_directory; [done|done|done|done| |exact HL|..].
          - by repeat constructor.
          - intros sd (d & -> & (y & n & Hy & ->)%children_spec)%list_elem_of_fmap.
            exists y. rewrite Name_entryOf. by rewrite target_Join.
          - intros _ y [n Hy]. apply list_elem_of_fmap.
            exists (entryOf (Join (Name e) y) n). rewrite Name_entryOf.
            split; [by rewrite target_Join|]. apply children_spec. exists y, n.
            split; [|done]. simpl. rewrite lookup_insert_ne; [done|].
            intros Heq. rewrite <- Heq in Hy. congruence. }
        assert (Hearly : ∀ err,
          (MkState (setNs w (<[t := NDir]> (ns w)))
             ((tr ++ [CMakeDirectory t]) ++
              [CDirServer (Name e)] ++ [CGlob (AllFilesGlob (Name e))]), Raise err) = (st', r) →
          copyPost (S fuel) [(Name e, t)] w tr st' r).
        { intros err [= <- <-].
          eapply (copyPost_directory _ _ _ _ _ _ _ []); [done|done|done|done| |apply Hnil|..].
          - by repeat constructor.
          - by intros sd Hsd%elem_of_nil.
          - done. }
        destruct (faults w (CGlob (AllFilesGlob (Name e)))) as [[|nm k txt]|];
          injection Hglob as <- <-.
        -- rewrite bool_decide_eq_true_2 in H2 by done. by apply Hloop.
        -- rewrite bool_decide_eq_false_2 in H2 by done. by eapply Hearly.
        -- by apply Hloop.
      * injection H1 as <- <-.
        eapply (copyPost_directory _ _ _ _ _ _ _ []); [done|done|done|done| |apply Hnil|..].
        -- by repeat constructor.
        -- by intros sd Hsd%elem_of_nil.
        -- done.
    + destruct Hres1 as [[Hw1 _]|([? ?] & _)]; [|done].
      destruct st' as [w' tr']. simpl in Hw1, Hc1. subst w' tr'.
      apply copyPost_same; [done| |simpl; split; [by constructor|done]].
      apply Forall_singleton. intros _. exists (Name e, t). split; [left|apply under_refl].
    + destruct Hres1 as [[_ [? ?]]|([? ?] & _)]; done.
  - rewrite bool_decide_eq_false_2 in Hrun by done.
    assert (Hl : IsLink e = true) by (by rewrite He).
    assert (Hlt : Link e = tgt) by (by rewrite He).
    rewrite Hl, Hlt, bind_ret_tt in Hrun. injection Hrun as <- <-.
    destruct (cliPutLink client tgt t (MkState w tr)) as [s1 r1] eqn:H1.
    apply cliPutLink_inv in H1 as [Hc1 Hres1]. rewrite Hpar in Hres1.
    apply (copyPost_single _ _ t (NLink tgt) _ _ (CPutLink tgt t)); try done.
    by rewrite Hpar.
  - rewrite bool_decide_eq_false_2 in Hrun by done.
    assert (Hl : IsLink e = false) by (by rewrite He).
    rewrite Hl, bind_ret_tt in Hrun. injection Hrun as <- <-.
    destruct (cliPutDuplicate client (Name e) t (MkState w tr)) as [s1 r1] eqn:H1.
    eapply cliPutDuplicate_inv in H1 as [Hc1 Hres1]; [|done]. rewrite Hpar in Hres1.
    apply (copyPost_single _ _ t (NFile b) _ _ (CPutDuplicate (Name e) t)); try done.
    by rewrite Hpar.
Qed.

End CopyFacts.

(** ** Copy of a directory *)




(** ** The claims on the name space of the examples *)

Lemma pair_snd {A B} (p : A * B) (b : B) : p.2 = b → p = (p.1, b).
Proof. intros <-. apply surjective_pairing. Qed.

Section Examples.
Import mem examples.

(** A destination that does not exist, and one that is a file. *)
Lemma copy_destination_checked_witness :
  let st := start tree in
  (copy client 3 (u ["nope"]) [u ["a"]] st).2 = Raise (E (u ["nope"]) NotExist EmptyString)
  ∧ calls (copy client 3 (u ["nope"]) [u ["a"]] st).1 = [CLookup (u ["nope"]) true]
  ∧ (copy client 3 (u ["a"; "f"]) [u ["a"]] st).2 = Raise (E (u ["a"; "f"]) NotDir EmptyString)
  ∧ calls (copy client 3 (u ["a"; "f"]) [u ["a"]] st).1 = [CLookup (u ["a"; "f"]) true].
Proof.
  intros st.
  set (L1 := Lookup client (u ["nope"]) true (world st)).
  assert (HL1 : L1 = (L1.1, inl (E (u ["nope"]) NotExist EmptyString)))
    by (apply pair_snd; by vm_compute).
  set (L2 := Lookup client (u ["a"; "f"]) true (world st)).
  assert (HL2 : L2 = (L2.1, inr (entryOf (u ["a"; "f"]) (NFile [1]))))
    by (apply pair_snd; by vm_compute).
  destruct (copy_destination_checked client 3 (u ["nope"]) [u ["a"]] st) as [H1 _].
  destruct (copy_destination_checked client 3 (u ["a"; "f"]) [u ["a"]] st) as [_ H2].
  rewrite (H1 _ _ HL1 eq_refl). destruct (H2 _ _ HL2 eq_refl) as [-> _].
  repeat split.
Defined.

(** A name that does not exist. *)
Lemma rm_absent_witness :
  let st := start tree in
  (rm client 3 (u ["nope"]) st).2 = Raise (E (u ["nope"]) NotExist EmptyString)
  ∧ calls (rm client 3 (u ["nope"]) st).1 = [CLookup (u ["nope"]) false]
  ∧ world (rm client 3 (u ["nope"]) st).1 = world st
  ∧ (rmAll client 3 [u ["nope"]; u ["a"]] st).2 = Raise (E (u ["nope"]) NotExist EmptyString)
  ∧ calls (rmAll client 3 [u ["nope"]; u ["a"]] st).1 = [CLookup (u ["nope"]) false].
Proof.
  intros st.
  set (L1 := Lookup client (u ["nope"]) false (world st)).
  assert (HL1 : L1 = (L1.1, inl (E (u ["nope"]) NotExist EmptyString)))
    by (apply pair_snd; by vm_compute).
  destruct (rm_absent client 3 (u ["nope"]) [u ["a"]] st _ _ HL1 eq_refl)
    as (-> & -> & _).
  split; [done|]. split; [done|]. split; [apply memLookup_world|]. by split.
Defined.

(** The root as a source, for the destination /dst. *)
Lemma copy_root_fails_witness :
  let st := start tree in
  (copy client 3 (u ["dst"]) [u []; u ["a"]] st).2
    = Raise (E (u []) Other "cannot copy a root")
  ∧ calls (copy client 3 (u ["dst"]) [u []; u ["a"]] st).1
    = [CLookup (u ["dst"]) true; CLookup (u []) false].
Proof.
  intros st.
  set (L1 := Lookup client (u ["dst"]) true (world st)).
  assert (HL1 : L1 = (L1.1, inr (entryOf (u ["dst"]) NDir)))
    by (apply pair_snd; by vm_compute).
  set (L2 := Lookup client (u []) false L1.1).
  assert (HL2 : L2 = (L2.1, inr (entryOf (u []) NDir)))
    by (apply pair_snd; by vm_compute).
  rewrite (copy_root_fails client 2 (u ["dst"]) (u []) [u ["a"]] st
             _ _ _ _ (MkParsed "ann@example.com" []) HL1 HL2 eq_refl eq_refl).
  repeat split.
Defined.

(** C4 as stated fails: the error of the copy of a root has no kind, and
    for a destination that does not exist the error is the one of the
    lookup of the destination. *)
Lemma copy_root_not_invalid :
  ¬ (∃ e, (copy client 3 (u ["dst"]) [u []] (start tree)).2 = Raise e
          ∧ kindOf e = Invalid)
  ∧ ¬ (∃ e, (copy client 3 (u ["nope"]) [u []] (start tree)).2 = Raise e
            ∧ kindOf e = Invalid).
Proof.
  split; intros (e & He & Hk); vm_compute in He; injection He as <-; done.
Qed.

(** /a copied into /a/b and into /a is refused; into /dst it starts. *)
Lemma copyEntry_into_own_subtree_witness :
  let st := start tree in
  let e := entryOf (u ["a"]) NDir in
  (∃ text, copyEntry client 3 (u ["a"; "b"]) e st = (st, Raise (E (u ["a"]) Other text)))
  ∧ (∃ text, copyEntry client 3 (u ["a"]) e st = (st, Raise (E (u ["a"]) Other text)))
  ∧ ∃ st' r rest, copyEntry client 3 (u ["dst"]) e st = (st', r)
      ∧ calls st' = CMakeDirectory (u ["dst"; "a"]) :: rest.
Proof.
  intros st e.
  destruct (copyEntry_into_own_subtree client 2 (u ["a"; "b"]) e
              (MkParsed "ann@example.com" ["a"]) st eq_refl) as [H1 _].
  destruct (copyEntry_into_own_subtree client 2 (u ["a"]) e
              (MkParsed "ann@example.com" ["a"]) st eq_refl) as [H2 _].
  destruct (copyEntry_into_own_subtree client 2 (u ["dst"]) e
              (MkParsed "ann@example.com" ["a"]) st eq_refl) as [_ H3].
  split; [|split].
  - destruct H1 as (text & Ht & _);
      [refine (@bool_decide_unpack _ (under_dec _ _) _); by vm_compute|]. eauto.
  - destruct H2 as (text & Ht & _);
      [refine (@bool_decide_unpack _ (under_dec _ _) _); by vm_compute|]. eauto.
  - destruct H3 as (st' & r & rest & Hr & Hc);
      [refine (proj1 (bool_decide_eq_false _) _); by vm_compute|done|].
    exists st', r, rest. split; [exact Hr|exact Hc].
Defined.

(** C3 as stated fails: the error of a copy into the source's own tree
    has no kind. *)
Lemma copy_into_itself_not_invalid :
  ¬ (∃ e, (copy client 3 (u ["a"; "b"]) [u ["a"]] (start tree)).2 = Raise e
          ∧ kindOf e = Invalid)
  ∧ ¬ (∃ e, (copy client 3 (u ["a"]) [u ["a"]] (start tree)).2 = Raise e
            ∧ kindOf e = Invalid).
Proof.
  split; intros (e & He & Hk); vm_compute in He; injection He as <-; done.
Qed.

(** The link /a/l to /x, copied to /dst. *)
Lemma copyEntry_link_witness :
  let st := start tree in
  let e := entryOf (u ["a"; "l"]) (NLink (u ["x"])) in
  calls (copyEntry client 1 (u ["dst"]) e st).1 = [CPutLink (u ["x"]) (u ["dst"; "l"])]
  ∧ ns (world (copyEntry client 1 (u ["dst"]) e st).1) !! u ["dst"; "l"]
    = Some (NLink (u ["x"]))
  ∧ ∃ x, last (pn_elems (Name e)) = Some x ∧
      copyEntry client 1 (u ["dst"]) e st =
        let '(w, r) := PutLink client (Link e) (Join (u ["dst"]) x) (world st) in
        (MkState w (calls st ++ [CPutLink (Link e) (Join (u ["dst"]) x)]),
         match r with inl err => Raise err | inr _ => Val tt end).
Proof.
  intros st e. split; [by vm_compute|]. split; [by vm_compute|].
  apply (copyEntry_link client 0 (u ["dst"]) e (MkParsed "ann@example.com" ["a"; "l"]) st).
  - done.
  - done.
  - refine (proj1 (bool_decide_eq_false _) _). by vm_compute.
  - done.
Defined.

(** C7 fails for [rm]: when [Glob] gives the sentinel for /a, [rm] of /a
    returns the sentinel as its error after the listing and deletes
    nothing, while [copy] of /a with the same service copies the entries
    and returns nil. *)
Theorem rm_follow_link_fatal :
  let w := MkWorld tree (refusing (CGlob (AllFilesGlob (u ["a"]))) ErrFollowLink) in
  (rm client 5 (u ["a"]) (MkState w [])).2 = Raise ErrFollowLink
  ∧ calls (rm client 5 (u ["a"]) (MkState w [])).1
    = [CLookup (u ["a"]) false; CDirServer (u ["a"]); CGlob (AllFilesGlob (u ["a"]))]
  ∧ (copy client 5 (u ["dst"]) [u ["a"]] (MkState w [])).2 = Val tt
  ∧ ns (world (copy client 5 (u ["dst"]) [u ["a"]] (MkState w [])).1)
      !! u ["dst"; "a"; "b"; "g"] = Some (NFile [2; 3]).
Proof. by vm_compute. Qed.

End Examples.

(** ** More on the walk over any client *)

(** X1: for an entry that is neither a directory nor a link and passes
    the guards, [copyEntry] makes one call: [PutDuplicate] from the name
    of the entry to the name in the destination directory whose last
    element is the last element of the source; the result is the result
    of that call.  Nothing of the content is read or written. *)
Theorem copyEntry_file {W Dir} (cli : Client W Dir) fuel dstDir e srcPath st :
  Parse (Name e) = inr srcPath →
  NElem srcPath ≠ 0 →
  ¬ under (Name e) dstDir →
  IsDir e = false →
  IsLink e = false →
  ∃ x, last (pn_elems (Name e)) = Some x ∧
    copyEntry cli (S fuel) dstDir e st =
      let '(w, r) := PutDuplicate cli (Name e) (Join dstDir x) (world st) in
      (MkState w (calls st ++ [CPutDuplicate (Name e) (Join dstDir x)]),
       match r with inl err => Raise err | inr _ => Val tt end).
Proof.
  intros HP Hn Hu Hd Hl. exists (Elem srcPath (NElem srcPath - 1)). split.
  { pose proof (last_Elem srcPath Hn) as Hlast.
    apply Parse_inr in HP as [_ ->]. done. }
  assert (Hpre : HasPrefix (parsedOrZero dstDir) srcPath = false).
  { destruct (HasPrefix _ _) eqn:Hh; [|done].
    by apply (HasPrefix_under dstDir _ _ HP) in Hh. }
  rewrite (copyEntry_dispatch _ _ _ _ srcPath) by done. cbn zeta.
  rewrite Hd, Hl. unfold bind, cliPutDuplicate, call, copyName.
  by destruct (PutDuplicate cli _ _ _) as [w [err|d]].
Qed.

Lemma rmEntry_calls {W Dir} (cli : Client W Dir) fuel de st st' r :
  rmEntry cli fuel de st = (st', r) →
  ∃ new, calls st' = calls st ++ new ∧ Forall rmCall new.
Proof.
  revert de st st' r. induction fuel as [|fuel IH]; intros de st st' r.
  { simpl. intros [= <- _]. exists []. by rewrite app_nil_r. }
  rewrite rmEntry_unfold.
  assert (Hdel : ∀ s, cliDelete cli (Name de) s = (st', r) →
            ∃ new, calls st' = calls s ++ new ∧ Forall rmCall new).
  { intros s H. unfold cliDelete in H. apply call_calls in H. exists [CDelete (Name de)].
    split; [done|]. by repeat constructor. }
  destruct (IsDir de); [|apply Hdel].
  intros H.
  apply bind_inv in H as [(s1 & d1 & H1 & H)|[(e1 & H1 & _)|[H1 _]]];
    unfold cliDirServer in H1; apply call_calls in H1;
    [|exists [CDirServer (Name de)]; split; [done|by repeat constructor]..].
  apply bind_inv in H as [(s2 & [des oe] & H2 & H)|[(e2 & H2 & _)|[H2 _]]];
    unfold dirGlob in H2; apply call_calls in H2;
    [|eexists [_; _]; rewrite H2, H1, <- app_assoc; split; [done|by repeat constructor]..].
  assert (Hfin : ∀ new, calls st' = calls s2 ++ new → Forall rmCall new →
            ∃ new, calls st' = calls st ++ new ∧ Forall rmCall new).
  { intros new Hn Fn. eexists (_ :: _ :: new). rewrite Hn, H2, H1, <- !app_assoc.
    split; [done|]. by repeat constructor. }
  destruct oe as [err|].
  { injection H as <- _. apply (Hfin []); [by rewrite app_nil_r|constructor]. }
  apply bind_inv in H as [(s3 & [] & H3 & H)|[(e3 & H3 & _)|[H3 _]]].
  - eapply (forEach_calls rmCall) in H3 as (n3 & Hn3 & F3); [|intros; by eapply IH].
    apply Hdel in H as (n4 & Hn4 & F4). apply (Hfin (n3 ++ n4)).
    + by rewrite Hn4, Hn3, app_assoc.
    + by apply Forall_app.
  - eapply (forEach_calls rmCall) in H3 as (n3 & Hn3 & F3); [|intros; by eapply IH].
    by apply (Hfin n3).
  - eapply (forEach_calls rmCall) in H3 as (n3 & Hn3 & F3); [|intros; by eapply IH].
    by apply (Hfin n3).
Qed.

(** X2: for every client and every outcome, the first call of [rm] is the
    lookup of the name, without following a final link, and every later
    call goes to a directory server, lists or deletes: [rm] looks
    nothing else up and creates nothing. *)
Theorem rm_calls {W Dir} (cli : Client W Dir) fuel name st st' r :
  rm cli fuel name st = (st', r) →
  ∃ new, calls st' = calls st ++ CLookup name false :: new ∧ Forall rmCall new.
Proof.
  unfold rm. intros H.
  apply bind_inv in H as [(s1 & d1 & H1 & H)|[(e1 & H1 & _)|[H1 _]]];
    apply call_calls in H1; [|by exists []..].
  apply rmEntry_calls in H as (new & Hn & Fn). exists new.
  by rewrite Hn, H1, <- app_assoc.
Qed.

Lemma copyEntry_calls {W Dir} (cli : Client W Dir) fuel dstDir e st st' r :
  copyEntry cli fuel dstDir e st = (st', r) →
  ∃ new, calls st' = calls st ++ new ∧ Forall copyCall new.
Proof.
  revert dstDir e st st' r. induction fuel as [|fuel IH]; intros dstDir e st st' r; simpl.
  { intros [= <- _]. exists []. by rewrite app_nil_r. }
  assert (Hnil : ∀ (x : Res unit), (st, x) = (st', r) →
    ∃ new, calls st' = calls st ++ new ∧ Forall copyCall new).
  { intros x [= <- _]. exists []. by rewrite app_nil_r. }
  destruct (Parse (Name e)) as [err|srcPath]; [apply Hnil|].
  destruct (Nat.eqb _ _); [apply Hnil|].
  destruct (HasPrefix _ _); [apply Hnil|].
  destruct (IsDir e).
  - intros H.
    apply bind_inv in H as [(s1 & d1 & H1 & H)|[(e1 & H1 & _)|[H1 _]]];
      [|apply call_calls in H1; eexists [_]; split; [done|by repeat constructor]..].
    apply call_calls in H1.
    apply bind_inv in H as [(s2 & d2 & H2 & H)|[(e2 & H2 & _)|[H2 _]]];
      [|apply call_calls in H2; eexists [_; _]; rewrite H2, H1, <- app_assoc;
        split; [done|by repeat constructor]..].
    apply call_calls in H2.
    apply bind_inv in H as [(s3 & [des oe] & H3 & H)|[(e3 & H3 & _)|[H3 _]]];
      unfold dirGlob in H3; apply call_calls in H3;
      [|eexists [_; _; _]; rewrite H3, H2, H1, <- !app_assoc;
        split; [done|by repeat constructor]..].
    assert (Hloop : ∀ s r', forEach des (copyEntry cli fuel (Join dstDir (Elem srcPath (NElem srcPath - 1)))) s = (st', r') →
      ∃ new, calls st' = calls s ++ new ∧ Forall copyCall new).
    { intros s r'. apply forEach_calls. intros x sa sb rb _. apply IH. }
    assert (Hfin : ∀ new, calls st' = calls s3 ++ new → Forall copyCall new →
      ∃ new, calls st' = calls st ++ new ∧ Forall copyCall new).
    { intros new Hn Fn. eexists (_ :: _ :: _ :: new).
      rewrite Hn, H3, H2, H1, <- !app_assoc. split; [done|by repeat constructor]. }
    destruct oe as [err|].
    + destruct (bool_decide (err = ErrFollowLink)).
      * apply Hloop in H as (new & Hn & Fn). by eapply Hfin.
      * injection H as <- _. apply (Hfin []); [by rewrite app_nil_r|constructor].
    + apply Hloop in H as (new & Hn & Fn). by eapply Hfin.
  - destruct (IsLink e); intros H.
    + apply bind_inv in H as [(s1 & d1 & H1 & H)|[(e1 & H1 & _)|[H1 _]]];
        apply call_calls in H1; [injection H as <- _|..]; eexists [_];
        (split; [done|by repeat constructor]).
    + apply bind_inv in H as [(s1 & d1 & H1 & H)|[(e1 & H1 & _)|[H1 _]]];
        apply call_calls in H1; [injection H as <- _|..]; eexists [_];
        (split; [done|by repeat constructor]).
Qed.

(** X3: for every client and every outcome, the first call of [copy] is
    the lookup of the destination, which follows links; every other
    lookup is of one of the sources and does not follow a final link;
    and no call is a [Delete]. *)
Theorem copy_calls {W Dir} (cli : Client W Dir) fuel dst srcs st st' r :
  copy cli fuel dst srcs st = (st', r) →
  ∃ new, calls st' = calls st ++ CLookup dst true :: new
         ∧ Forall (copyLoopCall srcs) new.
Proof.
  rewrite copy_unfold.
  destruct (Lookup cli dst true (world st)) as [w [err|d]].
  { intros [= <- _]. by exists []. }
  destruct (IsDir d); [|intros [= <- _]; by exists []].
  intros H. eapply (forEach_calls (copyLoopCall srcs)) in H as (new & Hn & Fn).
  - exists new. simpl in Hn. by rewrite Hn, <- app_assoc.
  - intros src sa sb rb Hsrc Hrun. unfold copySource in Hrun.
    apply bind_inv in Hrun as [(s1 & d1 & H1 & Hce)|[(e1 & H1 & _)|[H1 _]]];
      apply call_calls in H1;
      [|exists [CLookup src false]; split; [done|by repeat constructor]..].
    apply copyEntry_calls in Hce as (new & Hn & Fn).
    exists (CLookup src false :: new). rewrite Hn, H1, <- app_assoc.
    split; [done|]. constructor; [done|].
    eapply Forall_impl; [exact Fn|]. intros c Hc. by destruct c.
Qed.

(** X4: the loop of the "rm" request removes the paths in the order
    given and stops at the first error: when the paths before [name]
    were removed and [rm] of [name] fails from the state they left, the
    loop returns that error in the state in which the failure left the
    service, and no call is made for the paths after [name]. *)
Theorem rmAll_first_error {W Dir} (cli : Client W Dir) fuel pre name post st st1 st2 e :
  rmAll cli fuel pre st = (st1, Val tt) →
  rm cli fuel name st1 = (st2, Raise e) →
  rmAll cli fuel (pre ++ name :: post) st = (st2, Raise e)
  ∧ ∃ new, calls st2 = calls st1 ++ CLookup name false :: new ∧ Forall rmCall new.
Proof.
  intros Hpre Hrm. split.
  - unfold rmAll in *. rewrite forEach_app. erewrite bind_val by exact Hpre.
    cbn [forEach]. by apply bind_raise.
  - unfold rm in Hrm.
    apply bind_inv in Hrm as [(s1 & d1 & H1 & H)|[(e1 & H1 & _)|[H1 _]]];
      apply call_calls in H1; [|by exists []..].
    apply rmEntry_calls in H as (new & Hn & Fn). exists new.
    by rewrite Hn, H1, <- app_assoc.
Qed.

(** ** More on the walk over the name space in memory *)

Section MemWalk.
Import mem names.



(** X6: on the name space in memory, whatever the outcome of [copyEntry]
    of an entry of a name space that is a tree: every entry at or below
    the source is as it was, and so is every entry that is not at or
    below the name of the copy in the destination directory. *)
Theorem copyEntry_source_kept fuel w tr dstDir e st' r :
  wfNs (ns w) →
  consistent (ns w) e →
  copyEntry client fuel dstDir e (MkState w tr) = (st', r) →
  (∀ p, under (Name e) p → ns (world st') !! p = ns w !! p)
  ∧ (∀ p, ¬ under (target dstDir (Name e)) p → ns (world st') !! p = ns w !! p).
Proof.
  intros Hwf Hcons Hrun.
  pose proof (copyEntry_mem fuel dstDir e w tr st' r Hwf Hcons Hrun)
    as (_ & _ & Hfr & _).
  assert (Hout : ∀ p, ¬ under (target dstDir (Name e)) p →
            ns (world st') !! p = ns w !! p).
  { intros p Hp. destruct (Hfr p) as [?|(sd & ->%list_elem_of_singleton & Hu)]; done. }
  split; [|done].
  destruct Hcons as (n & Hn & He).
  destruct fuel as [|fuel]; [simpl in Hrun; by injection Hrun as <- _|].
  destruct (Parse (Name e)) as [err|srcPath] eqn:HP.
  { simpl in Hrun. rewrite HP in Hrun. by injection Hrun as <- _. }
  destruct (decide (NElem srcPath = 0)) as [Hz|Hz].
  { rewrite (copyEntry_root _ _ _ _ srcPath) in Hrun by done. by injection Hrun as <- _. }
  destruct (HasPrefix (parsedOrZero dstDir) srcPath) eqn:Hpre.
  { rewrite (copyEntry_into_itself _ _ _ _ srcPath) in Hrun by done.
    by injection Hrun as <- _. }
  rewrite (copyEntry_dispatch _ _ _ _ srcPath) in Hrun by done. cbn zeta in Hrun.
  assert (Hnu : ¬ under (Name e) dstDir).
  { intros H. apply (HasPrefix_under dstDir _ _ HP) in H. congruence. }
  assert (Htgt : target dstDir (Name e) = copyName dstDir srcPath).
  { unfold target, parsedOrZero. by rewrite HP. }
  rewrite Htgt in Hout. unfold copyName in *.
  set (x := Elem srcPath (NElem srcPath - 1)) in *. clearbody x.
  assert (Htne : pn_elems (Join dstDir x) ≠ []).
  { simpl. intros H. by apply app_eq_nil in H as [_ ?]. }
  assert (HisDir : IsDir e = bool_decide (n = NDir)) by (rewrite He; apply IsDir_entryOf).
  assert (Hsingle : ∀ s1 (r1 : Res DirEntry) n',
    ns w !! Name e = Some n' →
    ((world s1 = w ∧ ∃ e, r1 = Raise e)
     ∨ ((∃ d, r1 = Val d) ∧ world s1 = setNs w (<[Join dstDir x := n']> (ns w))
        ∧ ns w !! Join dstDir x ≠ Some NDir
        ∧ ns w !! parentOf (Join dstDir x) = Some NDir)) →
    ∀ p, under (Name e) p → ns (world s1) !! p = ns w !! p).
  { intros s1 r1 n' Hn' [[-> _]|(_ & -> & _ & _)] p Hp; [done|]. simpl.
    destruct (decide (p = Join dstDir x)) as [->|Hne]; [|by rewrite lookup_insert_ne].
    rewrite lookup_insert_eq.
    apply under_Join_inv in Hp as [Heq|Hp]; [|done]. by rewrite <- Heq. }
  rewrite HisDir in Hrun. destruct n as [|tgt|b].
  - rewrite bool_decide_eq_true_2 in Hrun by done.
    apply bind_inv in Hrun as [(s1 & d1 & H1 & H2)|[(e1 & H1 & ->)|[H1 ->]]];
      apply cliMakeDirectory_inv in H1 as [Hc1 Hres1]; try done.
    + destruct Hres1 as [[_ [? ?]]|(_ & Hw1 & Ht & Hp)]; [done|].
      intros p Hp'. apply Hout.
      eapply (target_disjoint (ns w) (Name e) dstDir x); [done|by eexists|done..].
    + destruct Hres1 as [[Hw1 _]|([? ?] & _)]; [|done]. intros p _. by rewrite Hw1.
    + destruct Hres1 as [[_ [? ?]]|([? ?] & _)]; done.
  - rewrite bool_decide_eq_false_2 in Hrun by done.
    assert (Hl : IsLink e = true) by (by rewrite He).
    assert (Hlt : Link e = tgt) by (by rewrite He).
    rewrite Hl, Hlt, bind_ret_tt in Hrun. injection Hrun as <- _.
    destruct (cliPutLink client tgt (Join dstDir x) (MkState w tr)) as [s1 r1] eqn:H1.
    apply cliPutLink_inv in H1 as [_ Hres1]. by eapply Hsingle.
  - rewrite bool_decide_eq_false_2 in Hrun by done.
    assert (Hl : IsLink e = false) by (by rewrite He).
    rewrite Hl, bind_ret_tt in Hrun. injection Hrun as <- _.
    destruct (cliPutDuplicate client (Name e) (Join dstDir x) (MkState w tr)) as [s1 r1] eqn:H1.
    eapply cliPutDuplicate_inv in H1 as [_ Hres1]; [|done]. by eapply Hsingle.
Qed.

Lemma copyEntry_source_kept_witness :
  let w := MkWorld examples.tree noFaults in
  let e := entryOf (examples.u ["a"]) NDir in
  let out := copyEntry client 5 (examples.u ["dst"]) e (MkState w []) in
  out.2 = Val tt
  ∧ (∀ p, under (Name e) p → ns (world out.1) !! p = ns w !! p)
  ∧ (∀ p, ¬ under (target (examples.u ["dst"]) (Name e)) p →
          ns (world out.1) !! p = ns w !! p).
Proof.
  intros w e out. split; [by vm_compute|].
  apply (copyEntry_source_kept 5 w [] (examples.u ["dst"]) e out.1 out.2).
  - refine (@bool_decide_unpack (wfNs _) (wfNs_dec _) _). by vm_compute.
  - exists NDir. split; [by vm_compute|done].
  - apply surjective_pairing.
Defined.

End MemWalk.

Section KeepsNames.
Import mem names.

Lemma forEach_world {W A} (R : W → W → Prop) (f : A → M W unit) l :
  (∀ w, R w w) → (∀ a b c, R a b → R b c → R a c) →
  (∀ x st st' r, f x st = (st', r) → R (world st) (world st')) →
  ∀ st st' r, forEach l f st = (st', r) → R (world st) (world st').
Proof.
  intros Hrefl Htrans Hf. induction l as [|x l IH]; intros st st' r; simpl.
  - intros [= <- _]. apply Hrefl.
  - intros H. apply bind_inv in H as [(s1 & [] & H1 & H2)|[(e & H1 & _)|[H1 _]]];
      [|by eapply Hf..].
    eapply Htrans; [by eapply Hf|by eapply IH].
Qed.

Lemma call_world {W A} (R : W → W → Prop) c (op : W → W * (Error + A)) st st' r :
  (∀ w w' x, op w = (w', x) → R w w') →
  call c op st = (st', r) → R (world st) (world st').
Proof.
  intros Hop. unfold call. destruct (op (world st)) as [w x] eqn:Hw.
  intros [= <- _]. simpl. by eapply Hop.
Qed.

Lemma keepsNames_refl w : keepsNames w w.
Proof. by intros p. Qed.

Lemma keepsNames_trans a b c : keepsNames a b → keepsNames b c → keepsNames a c.
Proof. intros H1 H2 p Hp. by apply H2, H1. Qed.

Lemma keepsNames_insert w name n : keepsNames w (setNs w (<[name := n]> (ns w))).
Proof.
  intros p Hp. simpl. destruct (decide (name = p)) as [->|Hne].
  - rewrite lookup_insert_eq. by eexists.
  - by rewrite lookup_insert_ne.
Qed.

Lemma guarded_keeps {A} c w (op : World * (Error + A)) w' x :
  keepsNames w op.1 → guarded c w op = (w', x) → keepsNames w w'.
Proof.
  unfold guarded. intros Hop. destruct (faults w c).
  - intros [= <- _]. apply keepsNames_refl.
  - intros Heq. by rewrite Heq in Hop.
Qed.

Lemma putNode_keeps name n w : keepsNames w (putNode name n w).1.
Proof.
  destruct (putNode name n w) as [w1 r1] eqn:H.
  apply putNode_inv in H as [[-> _]|(_ & -> & _)]; simpl.
  - apply keepsNames_refl.
  - apply keepsNames_insert.
Qed.

Lemma copyEntry_keeps fuel :
  ∀ dstDir e st st' r, copyEntry client fuel dstDir e st = (st', r) →
    keepsNames (world st) (world st').
Proof.
  induction fuel as [|fuel IH]; intros dstDir e st st' r; simpl.
  { intros [= <- _]. apply keepsNames_refl. }
  assert (Hnil : ∀ (x : Res unit), (st, x) = (st', r) → keepsNames (world st) (world st')).
  { intros x [= <- _]. apply keepsNames_refl. }
  destruct (Parse (Name e)) as [err|srcPath]; [apply Hnil|].
  destruct (Nat.eqb _ _); [apply Hnil|].
  destruct (HasPrefix _ _); [apply Hnil|].
  assert (Hmk : ∀ name s s' (x : Res DirEntry),
    cliMakeDirectory client name s = (s', x) → keepsNames (world s) (world s')).
  { intros name s s' x. apply call_world. intros w w' y. cbn [client MakeDirectory].
    unfold memMakeDirectory. apply guarded_keeps.
    destruct (ns w !! name); [apply keepsNames_refl|].
    destruct (pn_elems name); [apply keepsNames_insert|apply putNode_keeps]. }
  assert (Hds : ∀ name s s' (x : Res unit),
    cliDirServer client name s = (s', x) → keepsNames (world s) (world s')).
  { intros name s s' x. apply call_world. intros w w' y. cbn [client DirServer].
    unfold memDirServer. apply guarded_keeps, keepsNames_refl. }
  assert (Hgl : ∀ pat s s' (x : Res (list DirEntry * option Error)),
    dirGlob client tt pat s = (s', x) → keepsNames (world s) (world s')).
  { intros pat s s' x. apply call_world. intros w w' y. cbn [client Glob].
    unfold memGlob. destruct (faults w (CGlob pat)) as [[]|]; intros [= <- _];
      apply keepsNames_refl. }
  destruct (IsDir e).
  - intros H.
    apply bind_inv in H as [(s1 & d1 & H1 & H)|[(e1 & H1 & _)|[H1 _]]];
      [|by eapply Hmk..].
    apply Hmk in H1. eapply keepsNames_trans; [exact H1|].
    apply bind_inv in H as [(s2 & [] & H2 & H)|[(e1 & H2 & _)|[H2 _]]];
      [|by eapply Hds..].
    apply Hds in H2. eapply keepsNames_trans; [exact H2|].
    apply bind_inv in H as [(s3 & [des oe] & H3 & H)|[(e1 & H3 & _)|[H3 _]]];
      [|by eapply Hgl..].
    apply Hgl in H3. eapply keepsNames_trans; [exact H3|].
    assert (Hloop : ∀ r', forEach des (copyEntry client fuel
              (Join dstDir (Elem srcPath (NElem srcPath - 1)))) s3 = (st', r') →
            keepsNames (world s3) (world st')).
    { intros r'. apply (forEach_world keepsNames);
        [apply keepsNames_refl|apply keepsNames_trans|]. intros y sa sb rb. apply IH. }
    destruct oe as [err|]; [|by eapply Hloop].
    destruct (bool_decide (err = ErrFollowLink)); [by eapply Hloop|].
    injection H as <- _. apply keepsNames_refl.
  - destruct (IsLink e); rewrite bind_ret_tt; intros [= <- _].
    + eapply (call_world keepsNames); [|apply surjective_pairing].
      intros w w' y. cbn [client PutLink]. unfold memPutLink.
      apply guarded_keeps, putNode_keeps.
    + eapply (call_world keepsNames); [|apply surjective_pairing].
      intros w w' y. cbn [client PutDuplicate]. unfold memPutDuplicate.
      apply guarded_keeps.
      destruct (lookupIn _ _ _ _) as [?|d]; [apply keepsNames_refl|].
      destruct (IsDir d); [apply keepsNames_refl|apply putNode_keeps].
Qed.

(** X7: on the name space in memory, from any state and whatever the
    outcome, [copy] removes no name: every name that the name space had
    before, it has after. *)
Theorem copy_keeps_names fuel dst srcs st st' r :
  copy client fuel dst srcs st = (st', r) →
  keepsNames (world st) (world st').
Proof.
  unfold copy. intros H.
  assert (Hlk : ∀ name follow s s' (x : Res DirEntry),
    cliLookup client name follow s = (s', x) → keepsNames (world s) (world s')).
  { intros name follow s s' x. apply call_world. intros w w' y. cbn [client Lookup].
    unfold memLookup. apply guarded_keeps, keepsNames_refl. }
  apply bind_inv in H as [(s1 & d1 & H1 & H)|[(e1 & H1 & _)|[H1 _]]];
    [|by eapply Hlk..].
  apply Hlk in H1. eapply keepsNames_trans; [exact H1|].
  destruct (negb (IsDir d1)); [injection H as <- _; apply keepsNames_refl|].
  eapply (forEach_world keepsNames) in H;
    [done|apply keepsNames_refl|apply keepsNames_trans|].
  intros src sa sb rb Hs. unfold copySource in Hs.
  apply bind_inv in Hs as [(s2 & d2 & H2 & Hs)|[(e1 & H2 & _)|[H2 _]]];
    [|by eapply Hlk..].
  apply Hlk in H2. eapply keepsNames_trans; [exact H2|]. by eapply copyEntry_keeps.
Qed.

End KeepsNames.

Section RemoveSucceeds.
Import mem names.

(** What the removal of one entry leaves of the entries beside it. *)
Lemma siblings_consistent fuel dir d l w tr s1 r1 :
  rmPost fuel [Name d] w tr s1 r1 →
  isChild dir (Name d) = true →
  Name d ∉ Name <$> l →
  Forall (λ d, isChild dir (Name d) = true ∧ consistent (ns w) d) l →
  Forall (λ d, isChild dir (Name d) = true ∧ consistent (ns (world s1)) d) l.
Proof.
  intros (_ & _ & Hfr & _) [x Hx]%isChild_spec Hnotin Hall.
  apply Forall_forall. intros d' Hd'. rewrite Forall_forall in Hall.
  destruct (Hall _ Hd') as [Hc' (n & Hn & He)]. split; [done|].
  exists n. split; [|done].
  destruct (Hfr (Name d')) as [->|[_ (d0 & ->%list_elem_of_singleton & Hu0)]]; [done|].
  exfalso. apply Hnotin. apply isChild_spec in Hc' as [y Hy].
  rewrite Hx, Hy in Hu0. assert (x = y) as ->.
  { eapply under_siblings; [exact Hu0|apply under_refl]. }
  rewrite Hx, <- Hy. by apply list_elem_of_fmap_2.
Qed.

Lemma rmLoop_refused fuel dir
  (IH : ∀ de w tr st' e, wfNs (ns w) → consistent (ns w) de →
        rmEntry client fuel de (MkState w tr) = (st', Raise e) →
        ∃ c, faults w c = Some e) :
  ∀ l w tr st' e, wfNs (ns w) → NoDup (Name <$> l) →
    Forall (λ d, isChild dir (Name d) = true ∧ consistent (ns w) d) l →
    forEach l (rmEntry client fuel) (MkState w tr) = (st', Raise e) →
    ∃ c, faults w c = Some e.
Proof.
  induction l as [|d l IHl]; intros w tr st' e Hwf Hnd Hall Hrun; [done|].
  simpl in Hrun. inversion Hall as [|? ? [Hc Hcons] Hall']; subst.
  rewrite fmap_cons in Hnd. apply NoDup_cons in Hnd as [Hnotin Hnd'].
  apply bind_inv in Hrun as [(s1 & [] & H1 & H2)|[(e' & H1 & [= ->])|[_ ?]]]; [| |done].
  - destruct s1 as [w1 tr1].
    pose proof (rmEntry_mem fuel d w tr _ _ Hwf Hcons H1) as [Hpost _].
    pose proof (siblings_consistent _ _ _ _ _ _ _ _ Hpost Hc Hnotin Hall') as Hall1.
    destruct Hpost as (Hf1 & Hwf1 & _). simpl in *.
    destruct (IHl w1 tr1 st' e Hwf1 Hnd' Hall1 H2) as [c Hc']. exists c. congruence.
  - by eapply IH.
Qed.

(** On the name space in memory an error of [rmEntry] is the error of a
    call that the service refuses. *)
Lemma rmEntry_refused fuel :
  ∀ de w tr st' e, wfNs (ns w) → consistent (ns w) de →
    rmEntry client fuel de (MkState w tr) = (st', Raise e) →
    ∃ c, faults w c = Some e.
Proof.
  induction fuel as [|fuel IH]; intros de w tr st' e Hwf (n & Hn & He) Hrun; [done|].
  rewrite rmEntry_unfold in Hrun. rewrite He, IsDir_entryOf in Hrun.
  rewrite Name_entryOf in *. set (name := Name de) in *. clearbody name.
  assert (Hdel : ∀ w1 tr1, faults w1 = faults w → is_Some (ns w1 !! name) →
            cliDelete client name (MkState w1 tr1) = (st', Raise e) →
            ∃ c, faults w c = Some e).
  { intros w1 tr1 Hf [n1 Hn1] H. rewrite cliDelete_mem, Hf in H.
    destruct (faults w (CDelete name)) as [e1|] eqn:Hfl.
    - injection H as _ <-. eauto.
    - by rewrite Hn1 in H. }
  destruct (bool_decide_reflect (n = NDir)) as [->|Hnd]; [|by eapply Hdel].
  apply bind_inv in Hrun as [(s1 & [] & H1 & H2)|[(e' & H1 & [= ->])|[_ ?]]]; [| |done];
    rewrite cliDirServer_mem in H1; destruct (faults w (CDirServer name)) as [e1|] eqn:F1;
    try done; [|injection H1 as _ <-; eauto].
  injection H1 as <-.
  apply bind_inv in H2 as [(s2 & [des oe] & H1 & H2)|[(e' & H1 & _)|[H1 _]]];
    rewrite dirGlob_mem in H1 by done; [|done..].
  injection H1 as <- Hglob.
  destruct (faults w (CGlob (AllFilesGlob name))) as [[|nm k t]|] eqn:F2;
    injection Hglob as <- <-; [injection H2 as _ <-; eauto..|].
  apply bind_inv in H2 as [(sL & [] & HL & HD)|[(e' & HL & [= ->])|[_ ?]]]; [| |done].
  - pose proof (rmLoop_mem fuel name
        (λ de w tr st' r Hw Hc Hr, proj1 (rmEntry_mem fuel de w tr st' r Hw Hc Hr))
        _ _ _ _ _ Hwf (children_NoDup _ _) (children_consistent _ _) HL)
      as (Hf & _ & Hfr & _).
    destruct sL as [wL trL]. simpl in *. eapply Hdel; [done| |done].
    destruct (Hfr name) as [->|(_ & d & Hd & Hud)]; [by eexists|].
    apply children_names in Hd as (x & -> & _). by apply not_under_Join in Hud.
  - eapply (rmLoop_refused fuel name); [|done|apply children_NoDup|apply children_consistent|done].
    intros. by eapply IH.
Qed.

(** X8: on the name space in memory, when the service refuses no call,
    [rm] of a name that exists in a name space that is a tree, with fuel
    above the depth of the tree below the name, returns nil; afterwards
    the names at or below the name are gone and every other entry is as
    it was. *)
Theorem rm_succeeds fuel w tr name n :
  wfNs (ns w) →
  ns w !! name = Some n →
  (∀ c, faults w c = None) →
  (∀ p, is_Some (ns w !! p) → under name p →
        (length (pn_elems p) < length (pn_elems name) + fuel)%nat) →
  ∃ st', rm client fuel name (MkState w tr) = (st', Val tt)
    ∧ ∀ p, ns (world st') !! p = if decide (under name p) then None else ns w !! p.
Proof.
  intros Hwf Hn Hnof Hdepth.
  destruct (rm client fuel name (MkState w tr)) as [st' r] eqn:Hrun.
  exists st'. unfold rm in Hrun.
  apply bind_inv in Hrun as [(s1 & de & H1 & H2)|[(e & H1 & ->)|[H1 ->]]];
    rewrite cliLookup_mem, Hnof, (lookupIn_hit _ _ _ _ Hn) in H1; try done.
  injection H1 as <- <-.
  assert (Hcons : consistent (ns w) (entryOf name n)).
  { exists n. by rewrite Name_entryOf. }
  pose proof (rmEntry_mem _ _ _ _ _ _ Hwf Hcons H2)
    as [(_ & _ & Hfr & Hs & new & _ & _ & _ & _ & Hoof) _].
  rewrite Name_entryOf in *.
  destruct r as [[]|e|].
  - split; [done|]. intros p. destruct (decide (under name p)) as [Hu|Hu].
    + eapply Hs; [done|left|done].
    + destruct (Hfr p) as [?|(_ & d & ->%list_elem_of_singleton & ?)]; done.
  - destruct (rmEntry_refused _ _ _ _ _ _ Hwf Hcons H2) as [c Hc]. by rewrite Hnof in Hc.
  - destruct (Hoof eq_refl) as (p & n' & d & ->%list_elem_of_singleton & Hp & Hu & Hlen).
    assert (is_Some (ns w !! p)) as Hsome by (by eexists).
    specialize (Hdepth p Hsome Hu). lia.
Qed.

Lemma rm_succeeds_witness :
  let w := MkWorld examples.tree noFaults in
  ∃ st', rm client 3 (examples.u ["a"]) (MkState w []) = (st', Val tt)
    ∧ ∀ p, ns (world st') !! p
           = if decide (under (examples.u ["a"]) p) then None else ns w !! p.
Proof.
  intros w. apply (rm_succeeds 3 w [] (examples.u ["a"]) NDir).
  - refine (@bool_decide_unpack (wfNs _) (wfNs_dec _) _). by vm_compute.
  - by vm_compute.
  - done.
  - intros p Hp Hu.
    assert (Hin : p ∈ (map_to_list (ns w)).*1).
    { destruct Hp as [x Hx]. apply list_elem_of_fmap. exists (p, x).
      split; [done|]. by apply elem_of_map_to_list. }
    revert Hin. generalize p. clear p Hp Hu. apply Forall_forall.
    by vm_compute; repeat constructor.
Defined.

End RemoveSucceeds.

Section CopySucceeds.
Import mem names.







End CopySucceeds.

(** ** Runs of the walk on the example trees *)

Section MoreExamples.
Import mem examples.

(** The file /a/f, copied to /dst. *)
Lemma copyEntry_file_witness :
  let st := start tree in
  let e := entryOf (u ["a"; "f"]) (NFile [1]) in
  ns (world (copyEntry client 1 (u ["dst"]) e st).1) !! u ["dst"; "f"] = Some (NFile [1])
  ∧ ∃ x, last (pn_elems (Name e)) = Some x ∧
      copyEntry client 1 (u ["dst"]) e st =
        let '(w, r) := PutDuplicate client (Name e) (Join (u ["dst"]) x) (world st) in
        (MkState w (calls st ++ [CPutDuplicate (Name e) (Join (u ["dst"]) x)]),
         match r with inl err => Raise err | inr _ => Val tt end).
Proof.
  intros st e. split; [by vm_compute|].
  apply (copyEntry_file client 0 (u ["dst"]) e (MkParsed "ann@example.com" ["a"; "f"]) st).
  - done.
  - done.
  - refine (proj1 (bool_decide_eq_false _) _). by vm_compute.
  - done.
  - done.
Defined.

(** The removal of /a/b: a lookup, and then only listings and deletions. *)
Lemma rm_calls_witness :
  let out := rm client 5 (u ["a"; "b"]) (start tree) in
  out.2 = Val tt
  ∧ ∃ new, calls out.1 = calls (start tree) ++ CLookup (u ["a"; "b"]) false :: new
           ∧ Forall rmCall new.
Proof.
  intros out. split; [by vm_compute|].
  apply (rm_calls client 5 (u ["a"; "b"]) (start tree) out.1 out.2).
  apply surjective_pairing.
Defined.

(** The copy of /a/f and /a/b to /dst. *)
Lemma copy_calls_witness :
  let srcs := [u ["a"; "f"]; u ["a"; "b"]] in
  let out := copy client 5 (u ["dst"]) srcs (start tree) in
  out.2 = Val tt
  ∧ ∃ new, calls out.1 = calls (start tree) ++ CLookup (u ["dst"]) true :: new
           ∧ Forall (copyLoopCall srcs) new.
Proof.
  intros srcs out. split; [by vm_compute|].
  apply (copy_calls client 5 (u ["dst"]) srcs (start tree) out.1 out.2).
  apply surjective_pairing.
Defined.

(** The removal of /a/f, /nope and /a/b: /a/f is gone and /a/b is still
    there when the error of /nope is returned. *)
Lemma rmAll_first_error_witness :
  let out := rmAll client 5 ([u ["a"; "f"]] ++ u ["nope"] :: [u ["a"; "b"]]) (start tree) in
  out.2 = Raise (E (u ["nope"]) NotExist EmptyString)
  ∧ ns (world out.1) !! u ["a"; "f"] = None
  ∧ ns (world out.1) !! u ["a"; "b"] = Some NDir
  ∧ ∃ (st1 : State World) new,
      calls out.1 = calls st1 ++ CLookup (u ["nope"]) false :: new ∧ Forall rmCall new.
Proof.
  intros out. split; [by vm_compute|]. split; [by vm_compute|]. split; [by vm_compute|].
  set (R1 := rmAll client 5 [u ["a"; "f"]] (start tree)).
  assert (HR1 : R1 = (R1.1, Val tt)) by (apply pair_snd; by vm_compute).
  set (R2 := rm client 5 (u ["nope"]) R1.1).
  assert (HR2 : R2 = (R2.1, Raise (E (u ["nope"]) NotExist EmptyString)))
    by (apply pair_snd; by vm_compute).
  destruct (rmAll_first_error client 5 [u ["a"; "f"]] (u ["nope"]) [u ["a"; "b"]]
              (start tree) _ _ _ HR1 HR2) as (Hout & new & Hnew & Hall).
  exists R1.1, new. unfold out. rewrite Hout. split; [exact Hnew|exact Hall].
Defined.

(** The copy of /a to /dst keeps /a/b/g. *)
Lemma copy_keeps_names_witness :
  let out := copy client 5 (u ["dst"]) [u ["a"]] (start tree) in
  out.2 = Val tt
  ∧ keepsNames (world (start tree)) (world out.1).
Proof.
  intros out. split; [by vm_compute|].
  apply (copy_keeps_names 5 (u ["dst"]) [u ["a"]] (start tree) out.1 out.2).
  apply surjective_pairing.
Defined.

End MoreExamples.

(** ** The first error of a copy *)

Section Recorded.
Context {W Dir : Type}.
Variable cli : Client W Dir.
























End Recorded.

Section FirstErrorMem.
Import mem names.








End FirstErrorMem.


Section FirstErrorExamples.
Import mem examples.



End FirstErrorExamples.

(** ** The HTTP handler *)

Section HandlerFacts.
Import server api.
Context {W Dir SR : Type}.
Variable cli : Client W Dir.
Variable env : Env W SR.

(** X10: [httpError] answers 403, 404 or 500, by the first kind that
    matches among Private, Permission, NotExist and BrokenLink; the text
    of the error itself is sent only with 500, when none of them matches,
    and the body is the standard text of the status otherwise. *)
Theorem httpError_codes (err : GoError) :
  let matches k := errorsMatch env k err in
  (httpError env err = HTTPError "Forbidden" 403
     ∧ matches Private || matches Permission = true)
  ∨ (httpError env err = HTTPError "Not Found" 404
     ∧ matches Private || matches Permission = false
     ∧ matches NotExist || matches BrokenLink = true)
  ∨ (httpError env err = HTTPError (goErrorString env err) 500
     ∧ matches Private || matches Permission = false
     ∧ matches NotExist || matches BrokenLink = false).
Proof.
  intros matches. unfold httpError, ifError. subst matches. cbn beta.
  destruct (errorsMatch env Private err); [by left|].
  destruct (errorsMatch env Permission err); [by left|].
  destruct (errorsMatch env NotExist err); [by right; left|].
  destruct (errorsMatch env BrokenLink err); [by right; left|].
  by right; right.
Qed.

Lemma admitted_dec s r :
  admitted s r ↔
  (String.eqb (Method r) "POST"
   && String.eqb (FormValue r "key") (key s)
   && (String.eqb (FormValue r "method") "startup" || hasConfig s)) = true.
Proof.
  unfold admitted.
  rewrite !andb_true_iff, orb_true_iff, !String.eqb_eq. tauto.
Qed.

Lemma serveAPI_unfold fuel s r st :
  serveAPI cli env fuel s r st =
  if String.eqb (Method r) "POST"
     && String.eqb (FormValue r "key") (key s)
     && (String.eqb (FormValue r "method") "startup" || hasConfig s)
  then
    match dispatch cli env fuel s r st with
    | (sst, inl out) => (sst, out)
    | (sst, inr resp) =>
      match jsonMarshal env resp with
      | inl text => (sst, Replied (HTTPError text 500))
      | inr b => (sst, Replied (Written b))
      end
    end
  else
    ((s, st),
     Replied (if negb (String.eqb (Method r) "POST")
              then HTTPError "Expected POST request" 405
              else if negb (String.eqb (FormValue r "key") (key s))
              then HTTPError "Invalid key" 403
              else HTTPError "No configuration" 503)).
Proof.
  unfold serveAPI.
  destruct (String.eqb (Method r) "POST"); [|done].
  destruct (String.eqb (FormValue r "key") (key s)); [|done].
  destruct (String.eqb (FormValue r "method") "startup"); [done|].
  by destruct (hasConfig s).
Qed.

(** The switch of [serveAPI] ends early only without an answer of the
    walk, with the status 400 for a "put", or with a panic in "list"
    when there is no configuration. *)
Lemma dispatch_outcome fuel s r st sst out :
  dispatch cli env fuel s r st = (sst, inl out) →
  out = NoAnswer
  ∨ (∃ text, out = Replied (HTTPError text 400))
  ∨ (out = Panicked ∧ cfg s = None ∧ FormValue r "method" ≠ "startup").
Proof.
  unfold dispatch.
  destruct (String.eqb_spec (FormValue r "method") "startup") as [Hm|Hm].
  { destruct (startup env r s (world st)) as [[s1 w1] [[sResp c] err]].
    by destruct c. }
  destruct (String.eqb _ "list").
  { destruct (clientGlob env _ (world st)) as [w1 [des err]].
    destruct des, (cfg s); [done..|]. intros [= _ <-]. by right; right. }
  destruct (String.eqb _ "mkdir").
  { destruct (cliMakeDirectory cli _ st) as [st1 [d|e|]]; [done..|].
    intros [= _ <-]. by left. }
  destruct (String.eqb _ "rm").
  { destruct (rmAll cli fuel _ st) as [st1 [[]|e|]]; [done..|].
    intros [= _ <-]. by left. }
  destruct (String.eqb _ "copy").
  { destruct (copy cli fuel _ _ st) as [st1 [[]|e|]]; [done..|].
    intros [= _ <-]. by left. }
  destruct (String.eqb _ "put"); [|done].
  destruct (MultipartForm r) as [t|[|f files]];
    [intros [= _ <-]; right; left; by eexists..|].
  destruct (putAll env _ (f :: files) (world st)) as [w1 [reply|t]] eqn:Hp; [|done].
  intros [= _ <-]. right; left. clear -Hp.
  revert Hp. generalize (f :: files) (world st). intros l.
  induction l as [|[k fhs] l IH]; intros w; simpl; [done|].
  destruct fhs as [|fh fhs]; [intros [= _ <-]; by eexists|].
  destruct (put env _ fh w) as [w2 [e|]]; [done|]. apply IH.
Qed.

(** X11: a request to the API that is not a POST, has not the key of
    the server, or names a method other than "startup" while there is no
    configuration, gets the status 405, 403 or 503 (by the first of the
    three that applies), and the server and the service are left as they
    were; a request that passes the three gates never gets one of these:
    an HTTP error it gets has the status 400 or 500. *)
Theorem serveAPI_refused fuel s r st :
  (¬ admitted s r →
     ∃ text code,
       serveAPI cli env fuel s r st = ((s, st), Replied (HTTPError text code))
       ∧ ((code = 405 ∧ Method r ≠ "POST")
          ∨ (code = 403 ∧ Method r = "POST" ∧ FormValue r "key" ≠ key s)
          ∨ (code = 503 ∧ Method r = "POST" ∧ FormValue r "key" = key s
             ∧ FormValue r "method" ≠ "startup" ∧ hasConfig s = false)))
  ∧ (admitted s r →
     ∀ text code,
       (serveAPI cli env fuel s r st).2 = Replied (HTTPError text code) →
       code = 400 ∨ code = 500).
Proof.
  rewrite admitted_dec, serveAPI_unfold. split.
  - intros Hn. apply not_true_is_false in Hn. rewrite Hn.
    destruct (String.eqb_spec (Method r) "POST") as [HM|HM]; simpl.
    2:{ eexists _, _. split; [done|]. by left. }
    destruct (String.eqb_spec (FormValue r "key") (key s)) as [HK|HK]; simpl.
    2:{ eexists _, _. split; [done|]. right; left. done. }
    eexists _, _. split; [done|]. right; right.
    simpl in Hn.
    apply orb_false_iff in Hn as [H1 H2]. apply String.eqb_neq in H1. done.
  - intros ->. intros text code.
    destruct (dispatch cli env fuel s r st) as [sst [out|resp]] eqn:Hd.
    + simpl. intros ->. left.
      by apply dispatch_outcome in Hd as [|[[t [= _ <-]]|[]]].
    + destruct (jsonMarshal env resp); simpl; [|done]. intros [= _ <-]. by right.
Qed.





Lemma dispatch_server fuel s r st :
  FormValue r "method" ≠ "startup" → (dispatch cli env fuel s r st).1.1 = s.
Proof.
  intros Hm. unfold dispatch. apply String.eqb_neq in Hm. rewrite Hm.
  destruct (String.eqb _ "list").
  { destruct (clientGlob env _ (world st)) as [w1 [des err]]. by destruct des, (cfg s). }
  destruct (String.eqb _ "mkdir").
  { by destruct (cliMakeDirectory cli _ st) as [st1 [d|e|]]. }
  destruct (String.eqb _ "rm").
  { destruct (rmAll cli fuel _ st) as [st1 res]. by destruct (errText env res). }
  destruct (String.eqb _ "copy").
  { destruct (copy cli fuel _ _ st) as [st1 res]. by destruct (errText env res). }
  destruct (String.eqb _ "put"); [|done].
  destruct (MultipartForm r) as [t|[|f files]]; [done..|].
  by destruct (putAll env _ (f :: files) (world st)) as [w1 [reply|t]].
Qed.

Lemma serveAPI_effect fuel s r st s' st' out :
  serveAPI cli env fuel s r st = ((s', st'), out) →
  ((s', st') ≠ (s, st) → admitted s r)
  ∧ (s' ≠ s → admitted s r ∧ FormValue r "method" = "startup").
Proof.
  rewrite serveAPI_unfold, (admitted_dec s r).
  destruct (_ && _); [|intros [= <- <- _]; split; [done|by intros []]].
  intros H. split; [done|]. intros Hs. split; [done|].
  destruct (String.eqb_spec (FormValue r "method") "startup") as [|Hm]; [done|].
  pose proof (dispatch_server fuel s r st Hm) as Hd.
  destruct (dispatch cli env fuel s r st) as [[s1 st1] [o|resp]]; simpl in Hd.
  - by injection H as <- _ _.
  - by destruct (jsonMarshal env resp); injection H as <- _ _.
Qed.


Lemma serveContent_effect s r st st' out :
  serveContent cli env s r st = (st', out) →
  st' ≠ st → tokenValid env s r.
Proof.
  unfold serveContent, hasConfig, tokenValid.
  destruct (cfg s) as [c|]; [|by intros [= <- _]].
  destruct (cliSet s); [|by intros [= <- _]]. cbn [negb].
  destruct (URLPath r) as [|ch p]; [by intros [= <- _]|]. cbn [dropSlash].
  destruct (xsrfValid env _ _ _ p) eqn:Hx; [|by intros [= <- _]].
  intros _ _. by exists c, ch, p.
Qed.

(** X13: a request changes the server or the state of the service, or
    adds a call, only when it is a request to the API that passes its
    three gates, or a request for content with a configuration and a
    token that is valid for its path; and the server itself is changed
    only by an admitted "startup" request. *)
Theorem ServeHTTP_effect fuel s r st s' st' out :
  ServeHTTP cli env fuel s r st = ((s', st'), out) →
  ((s', st') ≠ (s, st) →
     (URLPath r = "/_upspin" ∧ admitted s r)
     ∨ (URLPath r ≠ "/_upspin" ∧ tokenValid env s r))
  ∧ (s' ≠ s →
     URLPath r = "/_upspin" ∧ admitted s r ∧ FormValue r "method" = "startup").
Proof.
  unfold ServeHTTP.
  destruct (String.eqb_spec (URLPath r) "/_upspin") as [Hp|Hp].
  { intros H. apply serveAPI_effect in H as [H1 H2]. split.
    - intros Hne. left. split; [done|by apply H1].
    - intros Hne. split; [done|by apply H2]. }
  destruct (containsAt (URLPath r)).
  - destruct (serveContent cli env s r st) as [st1 o] eqn:Hc.
    intros [= <- <- _]. split; [|done].
    intros Hne. right. split; [done|].
    eapply serveContent_effect; [exact Hc|]. by intros ->.
  - intros [= <- <- _]. split; done.
Qed.

(** X14: a file of the name space is served only for a request whose
    token is valid for its path, with a configuration: the file is the
    one the path names, the entry whose time is sent is the one that
    [Lookup] of that name (following links) gave, this lookup is the one
    call recorded, and [Open] was called after it. *)
Theorem ServeHTTP_serves_file fuel s r st s' st' name de file :
  ServeHTTP cli env fuel s r st = ((s', st'), Replied (ServedFile name de file)) →
  ∃ c ch p w1,
    cfg s = Some c ∧ cliSet s = true ∧ URLPath r = String ch p
    ∧ xsrfValid env (FormValue r "token") (key s) (UserName c) p = true
    ∧ file = pathNameOf env p ∧ name = pathBase env p
    ∧ Lookup cli file true (world st) = (w1, inr de)
    ∧ clientOpen env file w1 = (world st', None)
    ∧ calls st' = calls st ++ [CLookup file true]
    ∧ s' = s.
Proof.
  unfold ServeHTTP.
  destruct (String.eqb_spec (URLPath r) "/_upspin") as [Hp|Hp].
  { rewrite serveAPI_unfold.
    destruct (_ && _); [|destruct (negb _); [done|]; by destruct (negb _)].
    destruct (dispatch cli env fuel s r st) as [sst [o|resp]] eqn:Hd.
    - intros [= -> ->]. by apply dispatch_outcome in Hd as [|[[t ?]|[]]].
    - by destruct (jsonMarshal env resp). }
  destruct (containsAt (URLPath r)).
  2:{ unfold serveStatic. destruct (dropSlash _); [|done].
      destruct (File env _); [|done]. by destruct (errorsMatch env _ _). }
  destruct (serveContent cli env s r st) as [st1 o] eqn:Hc.
  intros [= <- <- ->]. revert Hc. unfold serveContent, hasConfig.
  destruct (cfg s) as [c|]; [|done].
  destruct (cliSet s); [|done]. cbn [negb].
  destruct (URLPath r) as [|ch p]; [done|]. cbn [dropSlash].
  destruct (xsrfValid env _ _ _ p) eqn:Hx; [|done]. cbn [negb].
  unfold cliLookup, call.
  destruct (Lookup cli _ true (world st)) as [w1 [e|d]] eqn:Hl.
  { unfold httpError, ifError. intros [= _ H]. revert H.
    by repeat destruct (errorsMatch env _ _). }
  cbn [world calls].
  destruct (clientOpen env _ w1) as [w2 [e|]] eqn:Ho.
  { unfold httpError, ifError. intros [= _ H]. revert H.
    by repeat destruct (errorsMatch env _ _). }
  intros [= <- <- <- <-]. by exists c, ch, p, w1.
Qed.



End HandlerFacts.

Lemma triple_snd {A B C} (p : A * B * C) (c : C) : p.2 = c → p = ((p.1.1, p.1.2), c).
Proof. intros <-. by destruct p as [[]]. Qed.

(** ** Requests to a handler over the name space in memory *)

Section HandlerExamples.
Import mem examples server api handler_examples.

(** A GET request to the API, and a POST without the key. *)
Lemma serveAPI_refused_witness :
  let r1 := get "/_upspin" (λ _, []) in
  let r2 := MkRequest "POST" "/_upspin" (λ _, []) (inl "no multipart form") in
  (∃ text code,
     serveAPI client env 5 ready r1 (start tree)
       = ((ready, start tree), Replied (HTTPError text code))
     ∧ ((code = 405 ∧ Method r1 ≠ "POST")
        ∨ (code = 403 ∧ Method r1 = "POST" ∧ FormValue r1 "key" ≠ key ready)
        ∨ (code = 503 ∧ Method r1 = "POST" ∧ FormValue r1 "key" = key ready
           ∧ FormValue r1 "method" ≠ "startup" ∧ hasConfig ready = false)))
  ∧ (serveAPI client env 5 ready r2 (start tree)).2
      = Replied (HTTPError "Invalid key" 403).
Proof.
  intros r1 r2. split; [|by vm_compute].
  apply (proj1 (serveAPI_refused client env 5 ready r1 (start tree))).
  intros (HM & _). by vm_compute in HM.
Defined.


(** The request to remove /a/b changes the name space, and the
    "startup" request changes the server. *)
Lemma ServeHTTP_effect_witness :
  let r := post "rm" (λ k, if String.eqb k "paths[]" then ["ann@example.com/a/b"] else []) in
  let r0 := post "startup" (λ _, []) in
  let s0 := MkServer "k" None false in
  ((URLPath r = "/_upspin" ∧ admitted ready r)
   ∨ (URLPath r ≠ "/_upspin" ∧ tokenValid env ready r))
  ∧ (ServeHTTP client env 5 s0 r0 (start tree)).1.1 = ready
  ∧ URLPath r0 = "/_upspin" ∧ admitted s0 r0 ∧ FormValue r0 "method" = "startup".
Proof.
  intros r r0 s0.
  set (out := ServeHTTP client env 5 ready r (start tree)).
  set (out0 := ServeHTTP client env 5 s0 r0 (start tree)).
  split; [|split; [by vm_compute|]].
  - apply (proj1 (ServeHTTP_effect client env 5 ready r (start tree)
                    out.1.1 out.1.2 out.2 (triple_snd out out.2 eq_refl))).
    intros Hst. apply (f_equal (λ x, length (calls x.2))) in Hst.
    vm_compute in Hst. discriminate Hst.
  - apply (proj2 (ServeHTTP_effect client env 5 s0 r0 (start tree)
                    out0.1.1 out0.1.2 out0.2 (triple_snd out0 out0.2 eq_refl))).
    intros Hs. apply (f_equal cliSet) in Hs. vm_compute in Hs. discriminate Hs.
Defined.

(** The request for the content of /a/f, with its token. *)
Lemma ServeHTTP_serves_file_witness :
  let r := get "/ann@example.com/a/f"
             (λ k, if String.eqb k "token" then ["k:ann@example.com:ann@example.com/a/f"]
                   else []) in
  let out := ServeHTTP client env 5 ready r (start tree) in
  out.2 = Replied (ServedFile "f" (entryOf (u ["a"; "f"]) (NFile [1])) (u ["a"; "f"]))
  ∧ ∃ c ch p w1,
      cfg ready = Some c ∧ cliSet ready = true ∧ URLPath r = String ch p
      ∧ xsrfValid env (FormValue r "token") (key ready) (UserName c) p = true
      ∧ u ["a"; "f"] = pathNameOf env p ∧ "f" = pathBase env p
      ∧ Lookup client (u ["a"; "f"]) true (world (start tree))
          = (w1, inr (entryOf (u ["a"; "f"]) (NFile [1])))
      ∧ clientOpen env (u ["a"; "f"]) w1 = (world out.1.2, None)
      ∧ calls out.1.2 = calls (start tree) ++ [CLookup (u ["a"; "f"]) true]
      ∧ out.1.1 = ready.
Proof.
  intros r out.
  assert (H2 : out.2
    = Replied (ServedFile "f" (entryOf (u ["a"; "f"]) (NFile [1])) (u ["a"; "f"])))
    by (by vm_compute).
  split; [exact H2|].
  apply (ServeHTTP_serves_file client env 5 ready r (start tree) out.1.1 out.1.2
           "f" (entryOf (u ["a"; "f"]) (NFile [1])) (u ["a"; "f"])).
  by apply triple_snd.
Defined.


End HandlerExamples.

(** ** The "put" request *)

Section PutFacts.
Import server.
Context {W Dir SR : Type}.
Variable cli : Client W Dir.
Variable env : Env W SR.

Lemma putAll_first dir files w :
  putAll env dir (map (λ kf, (kf.1, take 1 kf.2)) files) w = putAll env dir files w.
Proof.
  revert w. induction files as [|[k fhs] files IH]; intros w; [done|].
  cbn [map fst snd putAll]. destruct fhs as [|fh fhs]; [done|]. cbn [take].
  destruct (put env dir fh w) as [w1 [e|]]; [done|]. apply IH.
Qed.

(** X17: of the files that a form gives for one key, the "put" request
    stores the first and ignores the others without an error: a request
    to the API, other than "startup", gets the same reply and leaves the
    same state as the request with only the first file of every key. *)
Theorem serveAPI_first_handle fuel s r st :
  FormValue r "method" ≠ "startup" →
  serveAPI cli env fuel s (firstHandles r) st = serveAPI cli env fuel s r st.
Proof.
  intros Hm. apply String.eqb_neq in Hm.
  assert (Hd : dispatch cli env fuel s (firstHandles r) st = dispatch cli env fuel s r st).
  { unfold dispatch.
    change (FormValue (firstHandles r)) with (FormValue r).
    change (Form (firstHandles r)) with (Form r).
    rewrite Hm.
    destruct (String.eqb _ "list"); [done|].
    destruct (String.eqb _ "mkdir"); [done|].
    destruct (String.eqb _ "rm"); [done|].
    destruct (String.eqb _ "copy"); [done|].
    destruct (String.eqb _ "put"); [|done].
    cbn [firstHandles MultipartForm].
    destruct (MultipartForm r) as [t|[|f files]]; [done..|].
    pose proof (putAll_first (pathNameOf env (FormValue r "dir")) (f :: files) (world st)) as Hp.
    cbn [map] in Hp. cbn [map]. by rewrite Hp. }
  unfold serveAPI.
  change (FormValue (firstHandles r)) with (FormValue r).
  change (Method (firstHandles r)) with (Method r).
  by rewrite Hd.
Qed.

End PutFacts.

(** ** Strings *)

Lemma append_nil_l (b : string) : (EmptyString ++ b)%string = b.
Proof. done. Qed.

Lemma append_cons c (a b : string) : (String c a ++ b)%string = String c (a ++ b).
Proof. done. Qed.

Ltac sapp := rewrite ?append_cons, ?append_nil_l.

Section StringFacts.
Import gostrings.

Lemma length_app_s (a b : string) :
  String.length (a ++ b)%string = String.length a + String.length b.
Proof. induction a as [|c a IH]; sapp; simpl; [done|by rewrite IH]. Qed.

Lemma app_assoc_s (a b c : string) : ((a ++ b) ++ c = a ++ (b ++ c))%string.
Proof. induction a as [|x a IH]; sapp; [done|by rewrite IH]. Qed.

Lemma substring_zero (s : string) : substring 0 0 s = EmptyString.
Proof. by destruct s. Qed.

Lemma substring_all (s : string) : substring 0 (String.length s) s = s.
Proof. induction s as [|c s IH]; simpl; [done|by rewrite IH]. Qed.

Lemma substring_app_r (a b : string) n m :
  substring (String.length a + n) m (a ++ b)%string = substring n m b.
Proof. induction a as [|c a IH]; sapp; simpl; [done|exact IH]. Qed.

Lemma substring_app_l (a b : string) :
  substring 0 (String.length a) (a ++ b)%string = a.
Proof.
  induction a as [|c a IH]; sapp; simpl; [apply substring_zero|by rewrite IH].
Qed.

Lemma substring_split (s : string) n :
  (n ≤ String.length s)%nat →
  s = (substring 0 n s ++ substring n (String.length s - n) s)%string.
Proof.
  revert n. induction s as [|c s IH]; intros n Hn; simpl in *.
  - by destruct n.
  - destruct n as [|n]; simpl.
    + by rewrite substring_all.
    + sapp. f_equal. apply IH. lia.
Qed.

Lemma substring_length (s : string) n m :
  (n + m ≤ String.length s)%nat → String.length (substring n m s) = m.
Proof.
  revert n m. induction s as [|c s IH]; intros n m H; simpl in *.
  - destruct n, m; simpl in *; lia.
  - destruct n as [|n].
    + destruct m as [|m]; simpl; [done|]. f_equal. apply IH. lia.
    + apply IH. lia.
Qed.

Lemma app_inj_length (a b a' b' : string) :
  String.length a = String.length a' →
  (a ++ b = a' ++ b')%string → a = a' ∧ b = b'.
Proof.
  revert a'. induction a as [|c a IH]; intros [|c' a'] Hl; simpl in *; try done.
  intros [= -> H]. apply IH in H as [-> ->]; [done|lia].
Qed.

Lemma IndexByte_range s c : (-1 ≤ IndexByte s c < len s)%Z.
Proof.
  unfold len. induction s as [|a s IH]; simpl; [lia|].
  destruct (Ascii.eqb a c); [lia|].
  destruct (Z.ltb_spec (IndexByte s c) 0); lia.
Qed.

Lemma IndexByte_found s c i :
  IndexByte s c = i → (0 ≤ i)%Z →
  ∃ name rest, s = (name ++ String c rest)%string ∧ len name = i
               ∧ IndexByte name c = (-1)%Z.
Proof.
  revert i. induction s as [|a s IH]; intros i; simpl; [lia|].
  destruct (Ascii.eqb_spec a c) as [->|Hne].
  - intros <- _. by exists EmptyString, s.
  - destruct (Z.ltb_spec (IndexByte s c) 0) as [|Hi]; [lia|].
    intros <- _. destruct (IH _ eq_refl Hi) as (name & rest & -> & Hl & Hn).
    exists (String a name), rest. split; [done|]. split.
    + unfold len in *. simpl. lia.
    + simpl. apply Ascii.eqb_neq in Hne. by rewrite Hne, Hn.
Qed.

Lemma IndexByte_app name c rest :
  IndexByte name c = (-1)%Z →
  IndexByte (name ++ String c rest)%string c = len name.
Proof.
  unfold len. induction name as [|a name IH]; simpl.
  - intros _. by rewrite Ascii.eqb_refl.
  - destruct (Ascii.eqb a c); [done|].
    destruct (Z.ltb_spec (IndexByte name c) 0) as [Hlt|Hge]; [|lia].
    intros _. pose proof (IndexByte_range name c) as Hr.
    rewrite IH by lia.
    destruct (Z.ltb_spec (Z.of_nat (String.length name)) 0); lia.
Qed.

Lemma IndexByte_none s c j :
  IndexByte s c = (-1)%Z → String.get j s ≠ Some c.
Proof.
  revert j. induction s as [|a s IH]; intros j; simpl; [done|].
  destruct (Ascii.eqb_spec a c) as [->|Hne]; [done|].
  destruct (Z.ltb_spec (IndexByte s c) 0) as [Hlt|Hge]; [|lia].
  intros _. destruct j as [|j]; [congruence|].
  apply IH. pose proof (IndexByte_range s c). lia.
Qed.

Lemma HasSuffix_iff s suf :
  HasSuffix s suf = true ↔ ∃ pre, s = (pre ++ suf)%string.
Proof.
  unfold HasSuffix, len. rewrite andb_true_iff, Z.leb_le, String.eqb_eq. split.
  - intros [Hl Hs].
    exists (substring 0 (String.length s - String.length suf) s).
    rewrite (substring_split s (String.length s - String.length suf)) at 1 by lia.
    f_equal. rewrite <- Hs at 3. f_equal; lia.
  - intros [pre ->]. rewrite length_app_s. split; [lia|].
    replace (Z.to_nat _) with (String.length pre + 0) by lia.
    rewrite Nat2Z.id, substring_app_r. apply substring_all.
Qed.

Lemma ReplaceFirst_none s c new :
  IndexByte s c = (-1)%Z → ReplaceFirst s c new = s.
Proof.
  induction s as [|a s IH]; simpl; [done|].
  destruct (Ascii.eqb a c); [done|].
  destruct (Z.ltb_spec (IndexByte s c) 0) as [Hlt|Hge]; [|lia].
  intros _. f_equal. apply IH. pose proof (IndexByte_range s c). lia.
Qed.

Lemma ReplaceFirst_suffix a suf c new :
  IndexByte suf c = (-1)%Z →
  ∃ a', ReplaceFirst (a ++ suf)%string c new = (a' ++ suf)%string.
Proof.
  intros Hs. induction a as [|x a [a' IH]]; simpl.
  - exists EmptyString. by apply ReplaceFirst_none.
  - destruct (Ascii.eqb x c).
    + exists (new ++ a)%string. by rewrite app_assoc_s.
    + exists (String x a'). simpl. by rewrite IH.
Qed.

End StringFacts.

(** ** The helpers *)

Section HelperFacts.
Import gostrings helpers.

(** X18: [isLocal] returns nil exactly when the address splits into a
    host and a port, the host resolves, and every address it resolves to
    is a loopback address, which holds of a host that resolves to no
    address at all; and one address that is not a loopback address gives
    the error that names the address given, whatever the others are. *)
Theorem isLocal_nil {IP} (SplitHostPort : string → string + (string * string))
    (LookupIP : string → string + list IP) (IsLoopback : IP → bool)
    (quote : string → string) (addr : string) :
  (isLocal SplitHostPort LookupIP IsLoopback quote addr = None
   ↔ ∃ host port ips, SplitHostPort addr = inr (host, port)
       ∧ LookupIP host = inr ips ∧ Forall (λ ip, IsLoopback ip = true) ips)
  ∧ (∀ host port ips, SplitHostPort addr = inr (host, port) →
       LookupIP host = inr ips → Exists (λ ip, IsLoopback ip = false) ips →
       isLocal SplitHostPort LookupIP IsLoopback quote addr
         = Some ("cannot listen on non-loopback address " ++ quote addr)%string).
Proof.
  assert (Hloop : ∀ ips : list IP,
    (loopbackAll IsLoopback quote addr ips = None
       ↔ Forall (λ ip, IsLoopback ip = true) ips)
    ∧ (Exists (λ ip, IsLoopback ip = false) ips →
       loopbackAll IsLoopback quote addr ips
         = Some ("cannot listen on non-loopback address " ++ quote addr)%string)).
  { induction ips as [|ip ips [IH1 IH2]]; simpl.
    - split; [done|]. by intros H%Exists_nil.
    - destruct (IsLoopback ip) eqn:Hip; simpl.
      + rewrite IH1. split.
        * split; [intros ?; by constructor|]. by intros [_ ?]%Forall_cons_1.
        * intros [H|H]%Exists_cons; [congruence|by apply IH2].
      + split; [|done]. split; [done|]. intros [H _]%Forall_cons_1. congruence. }
  unfold isLocal. split.
  - destruct (SplitHostPort addr) as [err|[host port]].
    { split; [done|]. by intros (? & ? & ? & ? & _). }
    destruct (LookupIP host) as [err|ips] eqn:Hl.
    { split; [done|]. intros (? & ? & ? & [= <- _] & ? & _). congruence. }
    rewrite (proj1 (Hloop ips)). split.
    + intros H. by exists host, port, ips.
    + intros (? & ? & ? & [= <- _] & H & HF). congruence.
  - intros host port ips -> ->. apply Hloop.
Qed.

(** X19: [hostResolvesTo] returns nil exactly when the host resolves to
    at least one address and the text of every address it resolves to is
    the address expected: a host that resolves to the expected address
    and to another one is reported. *)
Theorem hostResolvesTo_nil {IP} (LookupIP : string → string + list IP)
    (IPString : IP → string) (quote : string → string) (host ip : string) :
  hostResolvesTo LookupIP IPString quote host ip = None
  ↔ ∃ ips, LookupIP host = inr ips ∧ ips ≠ []
      ∧ Forall (λ ipp, IPString ipp = ip) ips.
Proof.
  assert (Hloop : ∀ ips : list IP,
    resolvesAll IPString quote host ip ips = None
      ↔ Forall (λ ipp, IPString ipp = ip) ips).
  { induction ips as [|ipp ips IH]; simpl; [done|].
    destruct (String.eqb_spec (IPString ipp) ip) as [He|He]; simpl.
    - rewrite IH. split; [intros ?; by constructor|]. by intros [_ ?]%Forall_cons_1.
    - split; [done|]. by intros [? _]%Forall_cons_1. }
  unfold hostResolvesTo.
  destruct (LookupIP host) as [err|[|ipp ips]].
  - split; [done|]. by intros (? & ? & _).
  - split; [done|]. by intros (? & [= <-] & ? & _).
  - rewrite Hloop. split.
    + intros H. by eexists.
    + by intros (? & [= <-] & _ & H).
Qed.

Lemma formatLoop_same quote quoteAll vals vals' :
  sameButSecrets vals vals' →
  ∀ first buf, formatLoop quote quoteAll vals first buf
               = formatLoop quote quoteAll vals' first buf.
Proof.
  induction 1 as [|[k vs] [k' vs'] vals vals' [Hk Hv] _ IH]; intros first buf; [done|].
  simpl in Hk, Hv. subst k'. cbn [formatLoop].
  destruct (String.eqb_spec k "method") as [|Hm]; [apply IH|].
  destruct (String.eqb_spec k "key") as [|Hkey]; [apply IH|].
  destruct (String.eqb_spec k "privateKeyData") as [|Hp]; [apply IH|].
  rewrite (Hv Hp Hm Hkey). apply IH.
Qed.

(** X20: what [formatRequest] writes to the log does not depend on the
    private key data, the session key or the method of the request: two
    forms with the same keys in the same order, and the same values for
    every other key, are written alike. *)
Theorem formatRequest_redacts quote quoteAll vals vals' :
  sameButSecrets vals vals' →
  formatRequest quote quoteAll vals = formatRequest quote quoteAll vals'.
Proof.
  intros H. unfold formatRequest. by rewrite (formatLoop_same _ _ _ _ H).
Qed.

Lemma domain_no_at : IndexByte domain "@"%char = (-1)%Z.
Proof. by vm_compute. Qed.

(** X21: [serviceAccountEmailToProjectID] never panics: the bounds of
    the slice hold for every email that passes the two tests; and it
    returns a project exactly for an email made of a name without an at
    sign, an at sign, the project and the domain
    ".iam.gserviceaccount.com". *)
Theorem serviceAccountEmailToProjectID_project quote email :
  serviceAccountEmailToProjectID quote email ≠ None
  ∧ ∀ project,
      serviceAccountEmailToProjectID quote email = Some (inr project)
      ↔ ∃ name, IndexByte name "@"%char = (-1)%Z
          ∧ email = (name ++ "@" ++ project ++ domain)%string.
Proof.
  assert (Hto : ∀ name project, IndexByte name "@"%char = (-1)%Z →
    serviceAccountEmailToProjectID quote (name ++ "@" ++ project ++ domain)%string
      = Some (inr project)).
  { intros name project Hn. unfold serviceAccountEmailToProjectID.
    change ("@" ++ project ++ domain)%string with (String "@"%char (project ++ domain)).
    rewrite (IndexByte_app _ _ _ Hn).
    assert (Hge : (len name <? 0)%Z = false) by (apply Z.ltb_ge; unfold len; lia).
    rewrite Hge.
    assert (Hs : HasSuffix (name ++ String "@" (project ++ domain)) domain = true).
    { apply HasSuffix_iff. exists (name ++ String "@"%char project)%string.
      by rewrite app_assoc_s. }
    rewrite Hs. cbn [negb]. unfold slice, len.
    change (name ++ String "@" (project ++ domain))%string
      with (name ++ (String "@" EmptyString ++ (project ++ domain)))%string.
    rewrite <- app_assoc_s, !length_app_s.
    change (String.length (String "@" EmptyString)) with 1.
    destruct (_ && _) eqn:Hb.
    2:{ apply andb_false_iff in Hb as [Hb|Hb];
          [apply andb_false_iff in Hb as [Hb|Hb]|]; apply Z.leb_gt in Hb; lia. }
    do 2 f_equal.
    replace (Z.to_nat (Z.of_nat _ + 1))
      with (String.length (name ++ String "@" EmptyString)%string + 0)
      by (rewrite length_app_s; simpl; lia).
    rewrite substring_app_r.
    replace (Z.to_nat _) with (String.length project) by lia.
    apply substring_app_l. }
  unfold serviceAccountEmailToProjectID in *.
  destruct (Z.ltb_spec (IndexByte email "@") 0) as [Hlt|Hge].
  { split; [done|]. intros project. split; [done|].
    intros (name & Hn & ->). specialize (Hto name project Hn).
    change ("@" ++ project ++ domain)%string with (String "@"%char (project ++ domain)) in *.
    rewrite (IndexByte_app _ _ _ Hn) in Hlt. unfold len in Hlt. lia. }
  destruct (HasSuffix email domain) eqn:Hs; cbn [negb].
  2:{ split; [done|]. intros project. split; [done|].
      intros (name & Hn & ->). apply not_true_iff_false in Hs. destruct Hs.
      apply HasSuffix_iff. exists (name ++ "@" ++ project)%string.
      by rewrite !app_assoc_s. }
  destruct (IndexByte_found email "@"%char _ eq_refl Hge) as (name & rest & He & Hl & Hn).
  apply HasSuffix_iff in Hs as [pre Hpre].
  assert (Hlen : (String.length domain ≤ String.length rest)%nat).
  { destruct (le_lt_dec (String.length domain) (String.length rest)) as [|Hlt]; [done|].
    exfalso.
    assert (Hg : String.get (String.length name) email = Some "@"%char).
    { rewrite He. symmetry. exact (append_correct2 name (String "@"%char rest) 0). }
    assert (Hle : (String.length pre ≤ String.length name)%nat).
    { apply (f_equal String.length) in He, Hpre. rewrite Hpre in He.
      rewrite !length_app_s in He. cbn [String.length] in He. lia. }
    rewrite Hpre in Hg.
    replace (String.length name)
      with ((String.length name - String.length pre) + String.length pre) in Hg by lia.
    rewrite <- append_correct2 in Hg.
    by apply (IndexByte_none _ _ _ domain_no_at) in Hg. }
  assert (Hemail : len email = (len name + 1 + len rest)%Z).
  { unfold len. rewrite He, length_app_s. simpl. lia. }
  unfold slice. rewrite Hemail, <- Hl.
  destruct (_ && _) eqn:Hb.
  2:{ unfold len in Hb. apply andb_false_iff in Hb as [Hb|Hb];
        [apply andb_false_iff in Hb as [Hb|Hb]|]; apply Z.leb_gt in Hb; lia. }
  split; [done|]. intros project. split.
  - intros [= <-]. exists name. split; [done|].
    rewrite He at 1. f_equal.
    change ("@" ++ ?x)%string with (String "@"%char x). f_equal.
    set (k := String.length rest - String.length domain).
    assert (Hsub : substring (Z.to_nat (len name + 1))
                     (Z.to_nat (len name + 1 + len rest - len domain - (len name + 1))) email
                   = substring 0 k rest).
    { rewrite He.
      change (name ++ String "@" rest)%string
        with (name ++ (String "@" EmptyString ++ rest))%string.
      rewrite <- app_assoc_s.
      replace (Z.to_nat (len name + 1))
        with (String.length (name ++ String "@" EmptyString)%string + 0)
        by (rewrite length_app_s; unfold len; simpl; lia).
      rewrite substring_app_r. f_equal. unfold len, k. lia. }
    rewrite Hsub.
    rewrite (substring_split rest k) at 1 by (unfold k; lia). f_equal.
    assert (Hk : String.length rest - k = String.length domain) by (unfold k; lia).
    rewrite Hk.
    assert (Heq : ((name ++ String "@" (substring 0 k rest))
                    ++ substring k (String.length domain) rest
                   = pre ++ domain)%string).
    { rewrite <- Hpre, He, app_assoc_s. f_equal. sapp. f_equal.
      rewrite <- Hk. symmetry. apply substring_split. unfold k. lia. }
    apply app_inj_length in Heq as [_ Hd]; [done|].
    apply (f_equal String.length) in Heq.
    rewrite !length_app_s in Heq.
    rewrite (substring_length rest k (String.length domain)) in Heq by (unfold k; lia).
    rewrite length_app_s. lia.
  - intros (name' & Hn' & He'). specialize (Hto name' project Hn').
    rewrite <- He' in Hto.
    destruct (Z.ltb_spec (IndexByte email "@") 0) as [|_]; [lia|].
    assert (Hs : HasSuffix email domain = true) by (apply HasSuffix_iff; by exists pre).
    rewrite Hs in Hto. cbn [negb] in Hto. unfold slice in Hto.
    rewrite Hemail, <- Hl, Hb in Hto. by injection Hto as ->.
Qed.

Lemma reasonsAll_Forall reason reasons :
  reasonsAll reason reasons = true ↔ Forall (λ e, e = reason) reasons.
Proof.
  induction reasons as [|e rest IH]; simpl; [done|].
  destruct (String.eqb_spec e reason) as [->|Hne]; simpl.
  - rewrite IH. split; [intros ?; by constructor|]. by intros [_ ?]%Forall_cons_1.
  - split; [done|]. by intros [? _]%Forall_cons_1.
Qed.

(** X22: [isExists] holds exactly of an error of the Google API with at
    least one reason, whose reasons are all "alreadyExists" or all
    "conflict": an error that has both reasons is not taken for one that
    says that the resource exists. *)
Theorem isExists_reasons err :
  isExists err = true
  ↔ ∃ reasons, err = Some (GoogleAPI reasons) ∧ reasons ≠ []
      ∧ (Forall (λ e, e = "alreadyExists") reasons
         ∨ Forall (λ e, e = "conflict") reasons).
Proof.
  destruct err as [[[|e rest]|text]|].
  - split; [done|]. by intros (? & [= <-] & ? & _).
  - unfold isExists, okReason.
    destruct (reasonsAll "alreadyExists" (e :: rest)) eqn:H1.
    { split; [|done]. intros _. exists (e :: rest). split; [done|]. split; [done|].
      left. by apply reasonsAll_Forall. }
    destruct (reasonsAll "conflict" (e :: rest)) eqn:H2.
    { split; [|done]. intros _. exists (e :: rest). split; [done|]. split; [done|].
      right. by apply reasonsAll_Forall. }
    split; [done|]. intros (? & [= <-] & _ & [H|H]); apply reasonsAll_Forall in H; congruence.
  - split; [done|]. by intros (? & ? & _).
  - split; [done|]. by intros (? & ? & _).
Qed.

(** X23: a local name ends in ".localhost.", whatever the user and the
    service are, and [IsLocal] accepts it whenever [SplitHostPort] finds
    no port in it. *)
Theorem IsLocal_LocalName (SplitHostPort : string → string + (string * string))
    user service err :
  SplitHostPort (LocalName user service) = inl err →
  HasSuffix (LocalName user service) localSuffix = true
  ∧ IsLocal SplitHostPort (LocalName user service) = true.
Proof.
  intros Hs.
  assert (H : HasSuffix (LocalName user service) localSuffix = true).
  { apply HasSuffix_iff. unfold LocalName.
    replace (user ++ "." ++ service ++ localSuffix)%string
      with ((user ++ "." ++ service) ++ localSuffix)%string
      by (by rewrite !app_assoc_s).
    apply ReplaceFirst_suffix. by vm_compute. }
  split; [done|]. unfold IsLocal. by rewrite Hs, H.
Qed.

End HelperFacts.

(** ** Runs of the helpers *)

Section HelperExamples.
Import mem examples server handler_examples gostrings helpers.

(** A form with two files under one key: only /dst/one is made. *)
Lemma serveAPI_first_handle_witness :
  let r := MkRequest "POST" "/_upspin"
             (λ k, if String.eqb k "key" then ["k"]
                   else if String.eqb k "method" then ["put"]
                   else if String.eqb k "dir" then ["ann@example.com/dst"] else [])
             (inr [("file", [MkFileHeader "one" (inr "1"); MkFileHeader "two" (inr "2")])]) in
  let out := serveAPI client env 5 ready r (start tree) in
  out.2 = Replied (Written "Error=")
  ∧ ns (world out.1.2) !! u ["dst"; "one"] = Some (NFile [])
  ∧ ns (world out.1.2) !! u ["dst"; "two"] = None
  ∧ serveAPI client env 5 ready (firstHandles r) (start tree) = out.
Proof.
  intros r out. split; [by vm_compute|]. split; [by vm_compute|].
  split; [by vm_compute|].
  apply (serveAPI_first_handle client env 5 ready r (start tree)).
  intros H. vm_compute in H. discriminate H.
Defined.

(** Two forms that differ in the private key data and in the session
    key. *)
Lemma formatRequest_redacts_witness :
  let quoteAll := String.concat "," in
  let vals := [("privateKeyData", ["secret"]); ("user", ["ann"]); ("key", ["k1"])] in
  let vals' := [("privateKeyData", ["other"]); ("user", ["ann"]); ("key", ["k2"])] in
  sameButSecrets vals vals'
  ∧ formatRequest id quoteAll vals = formatRequest id quoteAll vals'.
Proof.
  intros quoteAll vals vals'.
  assert (H : sameButSecrets vals vals').
  { repeat constructor; cbn [fst snd]; intros; done. }
  split; [exact H|]. exact (formatRequest_redacts id quoteAll vals vals' H).
Defined.

(** The local name of the directory server of ann@example.com. *)
Lemma IsLocal_LocalName_witness :
  let split := (λ _ : string, inl "missing port in address"
                  : string + (string * string)) in
  LocalName "ann@example.com" "dirserver" = "ann.example.com.dirserver.localhost."
  ∧ HasSuffix (LocalName "ann@example.com" "dirserver") localSuffix = true
  ∧ IsLocal split (LocalName "ann@example.com" "dirserver") = true.
Proof.
  intros split. split; [by vm_compute|].
  exact (IsLocal_LocalName split "ann@example.com" "dirserver"
           "missing port in address" eq_refl).
Defined.

End HelperExamples.
